(** * napcat-plugin-pixiv: the acquisition and filtering pipeline

    A shallow embedding of the TypeScript services of the plugin
    - [services/banned-words.service.ts]        (module [BannedWords]),
    - [services/pixiv.service.ts]               (modules [Pixiv] and
      [Materializer], the latter for [downloadImage]),
    - [handlers/message-handler.ts]             (module [Handler], the
      global rate limiter),
    followed by the properties proved about them.

    Conventions.  JavaScript numbers that hold integers are [Z]; array
    lengths and the [++] counters are [nat].  A field that may be
    [undefined] is an [option].  A function that may [throw] returns a
    [Result].  Everything the code obtains from its environment
    (Math.random, Date.now, randomUUID, the upstream API, the file system,
    the network, regular expressions and case mapping) is an explicit
    input.  Log messages are left out.  Ghost state, which no branch of the
    model reads, records the upstream calls issued, the attempts made and
    the downloads started. *)

From Stdlib Require Import ZArith String Ascii List Bool Lia Sorted.
From Stdlib Require Import Permutation.
From Stdlib Require DecimalString DecimalZ.
Import ListNotations.
Local Open Scope string_scope.
Local Open Scope Z_scope.

(* ================================================================== *)
(** * Part I.  The model                                                *)
(* ================================================================== *)

(** ** JavaScript primitives used by the services *)
Module Js.

(** Completion of a call: a value, a thrown [Error] with its message, or
    a loop model that ran out of fuel. *)
Inductive Result (A : Type) : Type :=
| Ok (a : A)
| Throw (message : string)
| OutOfFuel.
Arguments Ok {A} a.
Arguments Throw {A} message.
Arguments OutOfFuel {A}.

(** [a ?? d] *)
Definition nullish {A : Type} (a : option A) (d : A) : A :=
  match a with Some x => x | None => d end.

(** Truthiness of a possibly undefined string: [undefined] and [""] are
    falsy. *)
Definition truthy (s : option string) : bool :=
  match s with
  | Some s => negb (String.eqb s "")
  | None => false
  end.

(** [a || b] on possibly undefined strings. *)
Definition or_else (a b : option string) : option string :=
  if truthy a then a else b.

(** [s.includes(pat)] *)
Fixpoint includes (s pat : string) : bool :=
  if String.prefix pat s then true
  else match s with
       | EmptyString => false
       | String _ rest => includes rest pat
       end.

(** [arr.slice(0, n)] for an integer [n]: a negative [n] counts from the
    end of the array. *)
Definition slice0 {A : Type} (n : Z) (l : list A) : list A :=
  if n <? 0 then firstn (Z.to_nat (Z.of_nat (length l) + n)) l
  else firstn (Z.to_nat n) l.

(** [arr[i] = x] for an index inside the array. *)
Fixpoint set_nth {A : Type} (i : nat) (x : A) (l : list A) : list A :=
  match l, i with
  | [], _ => []
  | _ :: t, O => x :: t
  | h :: t, S i' => h :: set_nth i' x t
  end.

(** [[a[i], a[j]] = [a[j], a[i]]] *)
Definition swap {A : Type} (i j : nat) (l : list A) : list A :=
  match nth_error l i, nth_error l j with
  | Some xi, Some xj => set_nth j xi (set_nth i xj l)
  | _, _ => l
  end.

(** Math.random is an oracle.  Each draw is the numerator [k] of the
    fraction [k / 2^53] in [0, 1) that the call returns; the oracle is the
    list of the draws still to come (an exhausted oracle answers 0). *)
Definition Random : Type := list Z.

Definition two53 : Z := 2 ^ 53.

(** The product of two doubles is the double nearest to the exact
    product, a tie going to the even significand (IEEE 754 binary64).
    [round_double x] is the numerator over [2^53] of the double nearest to
    [x / 2^53], for [x >= 0]: a numerator of more than 53 bits keeps its
    53 leading bits, rounded. *)
Definition round_double (x : Z) : Z :=
  let shift := Z.log2 x - 52 in
  if shift <=? 0 then x
  else
    let q := x / 2 ^ shift in
    let r := x mod 2 ^ shift in
    let half := 2 ^ (shift - 1) in
    let q := if (half <? r) || ((r =? half) && Z.odd q) then q + 1 else q in
    q * 2 ^ shift.

(** [Math.floor(Math.random() * n)] for an integer [n]: the draw
    [k / 2^53] times the double [n] is the double nearest to
    [k * n / 2^53]. *)
Definition random_floor (n : Z) (rng : Random) : Z * Random :=
  match rng with
  | [] => (0, [])
  | k :: rest => (round_double ((k mod two53) * n) / two53, rest)
  end.

(** The parts of the engine that are taken as given: case mapping and
    regular expressions.  [new_RegExp p flags] is [None] when the
    constructor throws a SyntaxError. *)
Class Engine : Type := {
  RegExp : Type;
  toLowerCase : string -> string;
  new_RegExp : string -> string -> option RegExp;
  RegExp_test : RegExp -> string -> bool
}.

End Js.
Export Js(Result, Ok, Throw, OutOfFuel).

(** ** services/banned-words.service.ts *)
Module BannedWords.
Import Js.

Inductive BannedWordMatchType : Type := regex | exact | fuzzy.

Record BannedWord : Type := mkBannedWord {
  id : string;
  pattern : string;
  matchType : BannedWordMatchType;
  enabled : bool;
  createdAt : Z
}.

(** The fields of [update]'s [Partial<Pick<BannedWord, ...>>] argument. *)
Record Updates : Type := mkUpdates {
  u_pattern : option string;
  u_matchType : option BannedWordMatchType;
  u_enabled : option bool
}.

(** The private fields of the service object. *)
Record Service : Type := mkService {
  words : list BannedWord;
  loaded : bool
}.

(** Modelled from the spec: the persistence collaborator
    [pluginState.loadDataFile / saveDataFile] (core/state) is a synchronous
    get/set on a JSON file; the file [banned-words.json] either does not
    exist or holds a rule list. *)
Definition Disk : Type := option (list BannedWord).

Definition loadDataFile (d : Disk) (default : list BannedWord) : list BannedWord :=
  match d with Some ws => ws | None => default end.

Definition saveDataFile (ws : list BannedWord) : Disk := Some ws.

Definition initial : Service := mkService [] false.

Definition ensureLoaded (s : Service) (d : Disk) : Service :=
  if loaded s then s else mkService (loadDataFile d []) true.

Definition getAll (s : Service) (d : Disk) : list BannedWord * Service :=
  let s := ensureLoaded s d in (words s, s).

Definition syntaxError (p : string) : string := "正则表达式语法错误: " ++ p.

Section WithEngine.
Context {E : Engine}.

(** [add(pattern, matchType)]; [uuid] is what randomUUID() returns and
    [now] what Date.now() returns. *)
Definition add (p : string) (mt : BannedWordMatchType) (uuid : string) (now : Z)
    (s : Service) (d : Disk) : Result BannedWord * Service * Disk :=
  let s := ensureLoaded s d in
  let invalid :=
    match mt with
    | regex => match new_RegExp p "" with None => true | Some _ => false end
    | _ => false
    end in
  if invalid then (Throw (syntaxError p), s, d)
  else
    let word := mkBannedWord uuid p mt true now in
    let s := mkService (words s ++ [word]) (loaded s) in
    (Ok word, s, saveDataFile (words s)).

(** [this.words.find(w => w.id === id)] *)
Definition find_word (i : string) (ws : list BannedWord) : option BannedWord :=
  find (fun w => String.eqb (id w) i) ws.

Definition apply_updates (u : Updates) (w : BannedWord) : BannedWord :=
  let w := match u_pattern u with
           | Some p => mkBannedWord (id w) p (matchType w) (enabled w) (createdAt w)
           | None => w end in
  let w := match u_matchType u with
           | Some m => mkBannedWord (id w) (pattern w) m (enabled w) (createdAt w)
           | None => w end in
  match u_enabled u with
  | Some e => mkBannedWord (id w) (pattern w) (matchType w) e (createdAt w)
  | None => w
  end.

(** The object found by [find] is mutated in place: the first rule with
    that id is replaced in the list. *)
Fixpoint replace_first (i : string) (w' : BannedWord) (ws : list BannedWord)
    : list BannedWord :=
  match ws with
  | [] => []
  | w :: rest =>
      if String.eqb (id w) i then w' :: rest
      else w :: replace_first i w' rest
  end.

(** [update(id, updates)]; [Ok None] is the [null] return. *)
Definition update (i : string) (u : Updates) (s : Service) (d : Disk)
    : Result (option BannedWord) * Service * Disk :=
  let s := ensureLoaded s d in
  match find_word i (words s) with
  | None => (Ok None, s, d)
  | Some word =>
      let newMatchType := nullish (u_matchType u) (matchType word) in
      let newPattern := nullish (u_pattern u) (pattern word) in
      let invalid :=
        match newMatchType with
        | regex => match new_RegExp newPattern "" with
                   | None => true | Some _ => false end
        | _ => false
        end in
      if invalid then (Throw (syntaxError newPattern), s, d)
      else
        let word' := apply_updates u word in
        let s := mkService (replace_first i word' (words s)) (loaded s) in
        (Ok (Some word'), s, saveDataFile (words s))
  end.

Definition getEnabled (s : Service) (d : Disk) : list BannedWord * Service :=
  let s := ensureLoaded s d in
  (filter enabled (words s), s).

(** The body of the [for ... of] loop of [matchText], with its
    [switch] and its [try/catch]: a pattern that does not compile is
    logged and the loop goes on. *)
Fixpoint matchText_loop (lowerText text : string) (ws : list BannedWord)
    : option BannedWord :=
  match ws with
  | [] => None
  | word :: rest =>
      match matchType word with
      | exact =>
          if String.eqb lowerText (toLowerCase (pattern word)) then Some word
          else matchText_loop lowerText text rest
      | fuzzy =>
          if includes lowerText (toLowerCase (pattern word)) then Some word
          else matchText_loop lowerText text rest
      | regex =>
          match new_RegExp (pattern word) "i" with
          | Some re =>
              if RegExp_test re text then Some word
              else matchText_loop lowerText text rest
          | None => matchText_loop lowerText text rest
          end
      end
  end.

Definition matchText (text : string) (s : Service) (d : Disk)
    : option BannedWord * Service :=
  let lowerText := toLowerCase text in
  let '(ws, s) := getEnabled s d in
  (matchText_loop lowerText text ws, s).

Definition checkKeyword (keyword : string) (s : Service) (d : Disk)
    : option BannedWord * Service :=
  matchText keyword s d.

(** A tag of an illustration, as far as [checkIllust] reads it. *)
Record Tag : Type := mkTag { name : option string }.

Fixpoint checkTags (tags : list Tag) (s : Service) (d : Disk)
    : option BannedWord * Service :=
  match tags with
  | [] => (None, s)
  | tag :: rest =>
      if truthy (name tag) then
        let '(hit, s) := matchText (nullish (name tag) "") s d in
        match hit with
        | Some w => (Some w, s)
        | None => checkTags rest s d
        end
      else checkTags rest s d
  end.

(** [checkIllust({title, tags})] *)
Definition checkIllust (title : option string) (tags : option (list Tag))
    (s : Service) (d : Disk) : option BannedWord * Service :=
  let '(hit, s) :=
    if truthy title then matchText (nullish title "") s d else (None, s) in
  match hit with
  | Some w => (Some w, s)
  | None =>
      match tags with
      | Some tags => checkTags tags s d
      | None => (None, s)
      end
  end.

(** The specification's reading of "the pattern of a rule matches a
    text": lowercased equality for exact, lowercased containment for
    fuzzy, the pattern compiled with the flag i and tested on the text as
    typed for regex. *)
Definition rule_matches (text : string) (w : BannedWord) : bool :=
  match matchType w with
  | exact => String.eqb (toLowerCase text) (toLowerCase (pattern w))
  | fuzzy => includes (toLowerCase text) (toLowerCase (pattern w))
  | regex =>
      match new_RegExp (pattern w) "i" with
      | Some re => RegExp_test re text
      | None => false
      end
  end.

(** "The first enabled rule, in stored order, whose pattern matches". *)
Definition first_enabled_match (text : string) (ws : list BannedWord)
    : option BannedWord :=
  find (fun w => enabled w && rule_matches text w) ws.

End WithEngine.

(** [reload()]: forget the list and load it again. *)
Definition reload (s : Service) (d : Disk) : Service :=
  ensureLoaded (mkService (words s) false) d.

(** [this.words.findIndex(w => w.id === id)]; [None] is the index -1. *)
Fixpoint findIndex (i : string) (ws : list BannedWord) : option nat :=
  match ws with
  | [] => None
  | w :: rest =>
      if String.eqb (id w) i then Some O
      else match findIndex i rest with
           | Some idx => Some (S idx)
           | None => None
           end
  end.

(** [arr.splice(idx, 1)]: the array that is left. *)
Definition splice1 (idx : nat) (ws : list BannedWord) : list BannedWord :=
  firstn idx ws ++ skipn (S idx) ws.

(** [remove(id)] *)
Definition remove (i : string) (s : Service) (d : Disk)
    : bool * Service * Disk :=
  let s := ensureLoaded s d in
  match findIndex i (words s) with
  | None => (false, s, d)
  | Some idx =>
      let s := mkService (splice1 idx (words s)) (loaded s) in
      (true, s, saveDataFile (words s))
  end.

(** The texts of an illustration that [checkIllust] submits to the
    matcher, in the order it submits them: the title if it is not empty,
    then every tag name that is not empty. *)
Definition checked_texts (title : option string) (tags : option (list Tag))
    : list string :=
  (if Js.truthy title then [Js.nullish title ""] else [])
  ++ flat_map (fun tag => if Js.truthy (name tag) then [Js.nullish (name tag) ""]
                          else [])
       (Js.nullish tags []).

(** The first answer of a list of answers that is a hit. *)
Fixpoint first_hit (answers : list (option BannedWord)) : option BannedWord :=
  match answers with
  | [] => None
  | Some w :: _ => Some w
  | None :: rest => first_hit rest
  end.

(** Memory and disk agree: a loaded service holds what the file holds. *)
Definition in_sync (s : Service) (d : Disk) : Prop :=
  loaded s = true -> words s = loadDataFile d [].

(** Every regex rule of a list compiles. *)
Definition all_regex_valid {E : Js.Engine} (ws : list BannedWord) : Prop :=
  forall w, In w ws -> matchType w = regex ->
            Js.new_RegExp (pattern w) "" <> None.

(** The argument of [update] that only disables a rule. *)
Definition disable : Updates := mkUpdates None None (Some false).

End BannedWords.

(** ** services/pixiv.service.ts *)
Module Pixiv.
Import Js.

(** The options of [pluginState.config] that the services read. *)
Record PluginConfig : Type := mkConfig {
  pixivRefreshToken : option string;
  r18Enabled : option bool;
  sensitiveEnabled : option bool;
  resultCount : option Z;
  rateLimitPerMinute : option Z
}.

(** A possibly undefined boolean option used as a condition. *)
Definition flag (o : option bool) : bool :=
  match o with Some b => b | None => false end.

(** An element of [result.illusts] (typed [any] in the source), with the
    fields the service reads.  [metaSinglePage_originalImageUrl] stands for
    [illust.metaSinglePage?.originalImageUrl], [imageUrls_large] for
    [illust.imageUrls?.large], [user_name] for [illust.user?.name]. *)
Record RawIllust : Type := mkRaw {
  raw_id : Z;
  raw_title : option string;
  xRestrict : option Z;
  sanityLevel : option Z;
  sanity_level : option Z;
  tags : option (list BannedWords.Tag);
  metaSinglePage_originalImageUrl : option string;
  imageUrls_large : option string;
  imageUrls_medium : option string;
  user_name : option string
}.

Record SafeIllust : Type := mkSafe {
  id : Z;
  title : option string;
  userName : string;
  imageUrl : string
}.

Record ExtractResult : Type := mkResult {
  illusts : list SafeIllust;
  totalScanned : nat;
  r18Filtered : nat;
  sensitiveFiltered : nat;
  bannedFiltered : nat
}.

(** What a call of the upstream client settles to. *)
Inductive Response : Type :=
| Rejects (message : string)
| Resolves (body_illusts : option (list RawIllust)).

(** lib/pixiv-client.ts seen from the service: an opaque collaborator with
    a state of its own.  [login] answers [false] when it throws. *)
Class FeedClient : Type := {
  Feed : Type;
  login : string -> Feed -> bool * Feed;
  searchIllust : string -> Z -> Feed -> Response * Feed;
  illustRecommended : Feed -> Response * Feed
}.

(** Ghost record of the upstream calls issued. *)
Inductive Call : Type :=
| CallLogin (token : string)
| CallSearch (keyword : string) (offset : Z)
| CallRecommended.

Definition is_search (c : Call) : bool :=
  match c with CallSearch _ _ => true | _ => false end.

Definition is_recommended (c : Call) : bool :=
  match c with CallRecommended => true | _ => false end.

(** Ghost record of one completed attempt of an acquisition session: the
    offset ceiling and the offset used (0 for recommendations), the size
    of the raw batch, what the extraction accepted, and the size of the
    pool after the merge. *)
Record Attempt : Type := mkAttempt {
  at_ceiling : Z;
  at_offset : Z;
  at_raw : nat;
  at_accepted : list SafeIllust;
  at_pool : nat
}.

(** [Map<number, SafeIllust>]: entries in insertion order. *)
Definition JsMap : Type := list (Z * SafeIllust).

Definition Map_has (k : Z) (m : JsMap) : bool :=
  existsb (fun e => fst e =? k) m.

Fixpoint Map_set (k : Z) (v : SafeIllust) (m : JsMap) : JsMap :=
  match m with
  | [] => [(k, v)]
  | e :: rest => if fst e =? k then (k, v) :: rest else e :: Map_set k v rest
  end.

Definition Map_size (m : JsMap) : nat := length m.

Definition Map_values (m : JsMap) : list SafeIllust := map snd m.

(** [for (const illust of currentResult.illusts)
       if (!collectedMap.has(illust.id)) collectedMap.set(illust.id, illust)] *)
Fixpoint merge (items : list SafeIllust) (m : JsMap) : JsMap :=
  match items with
  | [] => m
  | illust :: rest =>
      merge rest (if Map_has (id illust) m then m else Map_set (id illust) illust m)
  end.

(** The locals of [extractTopSafe]'s loop, and two ghost counters: the
    items that passed the three filters but had no image URL, and the
    items left in the batch when the loop stopped at [break]. *)
Record Scan : Type := mkScan {
  sc_result : list SafeIllust;
  sc_r18Filtered : nat;
  sc_sensitiveFiltered : nat;
  sc_bannedFiltered : nat;
  ghost_noUrl : nat;
  ghost_notExamined : nat
}.

Definition scan0 : Scan := mkScan [] 0 0 0 0 0.

(** The accumulators of [searchTop3] and [getRandomTop3]. *)
Record Session : Type := mkSession {
  collectedMap : JsMap;
  ss_totalScanned : nat;
  totalR18Filtered : nat;
  totalSensitiveFiltered : nat;
  totalBannedFiltered : nat;
  offsetLevel : nat
}.

Definition session0 : Session := mkSession [] 0 0 0 0 0.

(** How one turn of the retry loop ends. *)
Inductive Step : Type :=
| Continue (st : Session)
| Break (st : Session)
| Return (r : ExtractResult).

Definition offsetLimits : list Z := [300; 200; 100; 50; 0].

Definition unknownUser : string := "未知".

Definition loginFailed : string := "Pixiv 登录失败，请检查凭据配置。".

Section WithEnvironment.
Context {E : Engine} {F : FeedClient}.

(** Everything a call of the service can read or change. *)
Record World : Type := mkWorld {
  random : Random;
  feed : Feed;
  isLoggedIn : bool;
  banned : BannedWords.Service;
  disk : BannedWords.Disk;
  calls : list Call;
  attempts : list Attempt
}.

(** State and exception monad over [World]; the world reached when an
    exception is thrown is kept. *)
Definition M (A : Type) : Type := World -> Result A * World.

Definition ret {A : Type} (a : A) : M A := fun w => (Ok a, w).

Definition throw {A : Type} (e : string) : M A := fun w => (Throw e, w).

Definition bind {A B : Type} (c : M A) (k : A -> M B) : M B :=
  fun w =>
    match c w with
    | (Ok a, w') => k a w'
    | (Throw e, w') => (Throw e, w')
    | (OutOfFuel, w') => (OutOfFuel, w')
    end.

Local Notation "x <- c ;; k" := (bind c (fun x => k))
  (at level 61, c at next level, right associativity).
Local Notation "c ;;; k" := (bind c (fun _ => k))
  (at level 61, right associativity).

(** [Math.floor(Math.random() * n)] *)
Definition floor_random_times (n : Z) : M Z :=
  fun w =>
    let '(j, rng) := random_floor n (random w) in
    (Ok j, mkWorld rng (feed w) (isLoggedIn w) (banned w) (disk w)
                   (calls w) (attempts w)).

Definition record_call (c : Call) : M unit :=
  fun w => (Ok tt, mkWorld (random w) (feed w) (isLoggedIn w) (banned w)
                           (disk w) (calls w ++ [c]) (attempts w)).

Definition record_attempt (a : Attempt) : M unit :=
  fun w => (Ok tt, mkWorld (random w) (feed w) (isLoggedIn w) (banned w)
                           (disk w) (calls w) (attempts w ++ [a])).

Definition set_isLoggedIn (b : bool) : M unit :=
  fun w => (Ok tt, mkWorld (random w) (feed w) b (banned w) (disk w)
                           (calls w) (attempts w)).

Definition get_isLoggedIn : M bool := fun w => (Ok (isLoggedIn w), w).

(** [await this.client.login(token)], [true] when it resolves. *)
Definition client_login (token : string) : M bool :=
  record_call (CallLogin token) ;;;
  fun w =>
    let '(ok, f) := login token (feed w) in
    (Ok ok, mkWorld (random w) f (isLoggedIn w) (banned w) (disk w)
                    (calls w) (attempts w)).

Definition settle (r : Response) : M (option (list RawIllust)) :=
  match r with
  | Rejects e => throw e
  | Resolves b => ret b
  end.

(** [await this.client.searchIllust(keyword, {offset})] *)
Definition client_searchIllust (keyword : string) (offset : Z)
    : M (option (list RawIllust)) :=
  record_call (CallSearch keyword offset) ;;;
  r <- (fun w =>
          let '(r, f) := searchIllust keyword offset (feed w) in
          (Ok r, mkWorld (random w) f (isLoggedIn w) (banned w) (disk w)
                         (calls w) (attempts w))) ;;
  settle r.

(** [await this.client.illustRecommended()] *)
Definition client_illustRecommended : M (option (list RawIllust)) :=
  record_call CallRecommended ;;;
  r <- (fun w =>
          let '(r, f) := illustRecommended (feed w) in
          (Ok r, mkWorld (random w) f (isLoggedIn w) (banned w) (disk w)
                         (calls w) (attempts w))) ;;
  settle r.

(** [bannedWordsService.checkIllust(illust)] *)
Definition bannedWords_checkIllust (illust : RawIllust)
    : M (option BannedWords.BannedWord) :=
  fun w =>
    let '(hit, s) :=
      BannedWords.checkIllust (raw_title illust) (tags illust) (banned w) (disk w) in
    (Ok hit, mkWorld (random w) (feed w) (isLoggedIn w) s (disk w)
                     (calls w) (attempts w)).

Section WithConfig.
Variable config : PluginConfig.

Definition init : M unit :=
  if negb (truthy (pixivRefreshToken config)) then ret tt
  else
    ok <- client_login (nullish (pixivRefreshToken config) "") ;;
    set_isLoggedIn ok.

Definition ensureLoggedIn : M unit :=
  logged <- get_isLoggedIn ;;
  if negb logged then
    init ;;;
    logged <- get_isLoggedIn ;;
    if negb logged then throw loginFailed else ret tt
  else ret tt.

(** The Fisher-Yates loop [for (let i = len - 1; i > 0; i--)]. *)
Fixpoint fisher_yates (i : nat) (shuffled : list RawIllust)
    : M (list RawIllust) :=
  match i with
  | O => ret shuffled
  | S i' =>
      j <- floor_random_times (Z.of_nat i + 1) ;;
      fisher_yates i' (swap i (Z.to_nat j) shuffled)
  end.

Definition requiredCount : Z := nullish (resultCount config) 3.

(** The [for (const illust of illusts)] loop of [extractTopSafe]. *)
Fixpoint extract_loop (count : Z) (batch : list RawIllust) (acc : Scan)
    : M Scan :=
  match batch with
  | [] => ret acc
  | illust :: rest =>
      if Z.of_nat (length (sc_result acc)) >=? count then
        ret (mkScan (sc_result acc) (sc_r18Filtered acc)
                    (sc_sensitiveFiltered acc) (sc_bannedFiltered acc)
                    (ghost_noUrl acc) (length batch))
      else if negb (flag (r18Enabled config))
              && match xRestrict illust with
                 | Some x => negb (x =? 0)
                 | None => false
                 end then
        extract_loop count rest
          (mkScan (sc_result acc) (S (sc_r18Filtered acc))
                  (sc_sensitiveFiltered acc) (sc_bannedFiltered acc)
                  (ghost_noUrl acc) (ghost_notExamined acc))
      else
        let sanity :=
          nullish (sanityLevel illust) (nullish (sanity_level illust) 0) in
        if negb (flag (sensitiveEnabled config)) && (sanity >=? 4) then
          extract_loop count rest
            (mkScan (sc_result acc) (sc_r18Filtered acc)
                    (S (sc_sensitiveFiltered acc)) (sc_bannedFiltered acc)
                    (ghost_noUrl acc) (ghost_notExamined acc))
        else
          bannedHit <- bannedWords_checkIllust illust ;;
          match bannedHit with
          | Some _ =>
              extract_loop count rest
                (mkScan (sc_result acc) (sc_r18Filtered acc)
                        (sc_sensitiveFiltered acc) (S (sc_bannedFiltered acc))
                        (ghost_noUrl acc) (ghost_notExamined acc))
          | None =>
              let url :=
                if truthy (metaSinglePage_originalImageUrl illust)
                then metaSinglePage_originalImageUrl illust
                else or_else (imageUrls_large illust) (imageUrls_medium illust) in
              if negb (truthy url) then
                extract_loop count rest
                  (mkScan (sc_result acc) (sc_r18Filtered acc)
                          (sc_sensitiveFiltered acc) (sc_bannedFiltered acc)
                          (S (ghost_noUrl acc)) (ghost_notExamined acc))
              else
                extract_loop count rest
                  (mkScan (sc_result acc
                            ++ [mkSafe (raw_id illust) (raw_title illust)
                                  (if truthy (user_name illust)
                                   then nullish (user_name illust) unknownUser
                                   else unknownUser)
                                  (nullish url "")])
                          (sc_r18Filtered acc) (sc_sensitiveFiltered acc)
                          (sc_bannedFiltered acc)
                          (ghost_noUrl acc) (ghost_notExamined acc))
          end
  end.

(** [extractTopSafe(illusts, shuffle)] with the loop's ghost counters:
    the pair of the batch iterated over and the final locals. *)
Definition extractTopSafe_scan (batch : list RawIllust) (shuffle : bool)
    : M (list RawIllust * Scan) :=
  let count := requiredCount in
  batch <- (if shuffle && (0 <? Z.of_nat (length batch))
            then fisher_yates (length batch - 1) batch
            else ret batch) ;;
  sc <- extract_loop count batch scan0 ;;
  ret (batch, sc).

Definition extractTopSafe (batch : list RawIllust) (shuffle : bool)
    : M ExtractResult :=
  bs <- extractTopSafe_scan batch shuffle ;;
  ret (mkResult (sc_result (snd bs)) (length (fst bs))
                (sc_r18Filtered (snd bs)) (sc_sensitiveFiltered (snd bs))
                (sc_bannedFiltered (snd bs))).

(** The statements shared by both retry loops, from the merge to the
    accumulation of the tallies. *)
Definition accumulate (currentResult : ExtractResult) (st : Session) : Session :=
  mkSession (merge (illusts currentResult) (collectedMap st))
            (ss_totalScanned st + totalScanned currentResult)
            (totalR18Filtered st + r18Filtered currentResult)
            (totalSensitiveFiltered st + sensitiveFiltered currentResult)
            (totalBannedFiltered st + bannedFiltered currentResult)
            (offsetLevel st).

(** [{ illusts: Array.from(collectedMap.values()).slice(0, requiredCount),
       totalScanned, ... }] *)
Definition collected (st : Session) : ExtractResult :=
  mkResult (slice0 requiredCount (Map_values (collectedMap st)))
           (ss_totalScanned st) (totalR18Filtered st)
           (totalSensitiveFiltered st) (totalBannedFiltered st).

(** The [for (let attempt = 0; attempt < maxRetries; attempt++)] loop
    around a body; [inl] when the loop is left at its end or by
    [break], [inr] when the body returns. *)
Fixpoint retry_loop (fuel : nat) (maxRetries : Z)
    (body : Z -> Session -> M Step) (attempt : Z) (st : Session)
    : M (Session + ExtractResult) :=
  match fuel with
  | O => fun w => (OutOfFuel, w)
  | S fuel' =>
      if attempt <? maxRetries then
        c <- body attempt st ;;
        match c with
        | Continue st' => retry_loop fuel' maxRetries body (attempt + 1) st'
        | Break st' => ret (inl st')
        | Return r => ret (inr r)
        end
      else ret (inl st)
  end.

(** The body of the loop of [searchTop3]. *)
Definition search_attempt (keyword : string) (attempt : Z) (st : Session)
    : M Step :=
  let maxOffset :=
    nth (Nat.min (offsetLevel st) (length offsetLimits - 1)) offsetLimits 0 in
  randomOffset <- (if maxOffset >? 0 then floor_random_times (maxOffset + 1)
                   else ret 0) ;;
  result <- client_searchIllust keyword randomOffset ;;
  let batch := nullish result [] in
  currentResult <- extractTopSafe batch true ;;
  let st := accumulate currentResult st in
  record_attempt (mkAttempt maxOffset randomOffset (length batch)
                    (illusts currentResult) (Map_size (collectedMap st))) ;;;
  if Z.of_nat (Map_size (collectedMap st)) >=? requiredCount then
    ret (Return (collected st))
  else if (length batch =? 0)%nat then
    let st := mkSession (collectedMap st) (ss_totalScanned st)
                (totalR18Filtered st) (totalSensitiveFiltered st)
                (totalBannedFiltered st) (S (offsetLevel st)) in
    if maxOffset =? 0 then ret (Break st) else ret (Continue st)
  else ret (Continue st).

Definition searchTop3 (fuel : nat) (keyword : string) : M ExtractResult :=
  ensureLoggedIn ;;;
  let maxRetries := 5 in
  r <- retry_loop fuel maxRetries (search_attempt keyword) 0 session0 ;;
  match r with
  | inr r => ret r
  | inl st => ret (collected st)
  end.

(** The body of the loop of [getRandomTop3]. *)
Definition recommend_attempt (attempt : Z) (st : Session) : M Step :=
  result <- client_illustRecommended ;;
  let batch := nullish result [] in
  currentResult <- extractTopSafe batch true ;;
  let st := accumulate currentResult st in
  record_attempt (mkAttempt 0 0 (length batch)
                    (illusts currentResult) (Map_size (collectedMap st))) ;;;
  if Z.of_nat (Map_size (collectedMap st)) >=? requiredCount then
    ret (Return (collected st))
  else
    let totalFiltered :=
      (r18Filtered currentResult + sensitiveFiltered currentResult
       + bannedFiltered currentResult)%nat in
    if (length (illusts currentResult) =? 0)%nat && (totalFiltered =? 0)%nat
    then ret (Break st)
    else ret (Continue st).

Definition getRandomTop3 (fuel : nat) : M ExtractResult :=
  ensureLoggedIn ;;;
  let maxRetries := 3 in
  r <- retry_loop fuel maxRetries recommend_attempt 0 session0 ;;
  match r with
  | inr r => ret r
  | inl st => ret (collected st)
  end.

End WithConfig.
End WithEnvironment.

Arguments World {F}.
Arguments M {F} A.
End Pixiv.

(** ** PixivService.downloadImage *)
Module Materializer.
Import Js.

(** Node's [os.tmpdir], [path.join] and [path.basename], taken as given. *)
Class Node : Type := {
  os_tmpdir : string;
  path_join : string -> string -> string;
  path_basename : string -> string
}.

(** How one call of the [pixiv-img] downloader settles: the file is
    written and the promise resolves, or the promise rejects, possibly
    after a part of the file was written. *)
Inductive Download : Type :=
| Saved
| Failed (message : string) (partial : bool).

(** The file system (the paths that exist), the outcomes of the downloads
    still to come, and the ghost record of the downloads issued, each
    with its URL and its target path. *)
Record Cache : Type := mkCache {
  files : list string;
  network : list Download;
  downloads : list (string * string)
}.

Definition existsSync (p : string) (c : Cache) : bool :=
  existsb (String.eqb p) (files c).

Definition mkdirSync (p : string) (c : Cache) : Cache :=
  mkCache (p :: files c) (network c) (downloads c).

(** [await pixivImg(imageUrl, filePath)] *)
Definition pixivImg (imageUrl filePath : string) (c : Cache)
    : Result unit * Cache :=
  let log := (downloads c ++ [(imageUrl, filePath)])%list in
  match network c with
  | [] => (Throw "network unreachable", mkCache (files c) [] log)
  | Saved :: rest => (Ok tt, mkCache (filePath :: files c) rest log)
  | Failed e partial :: rest =>
      (Throw e,
       mkCache (if partial then filePath :: files c else files c) rest log)
  end.

Section WithNode.
Context {N : Node}.

Definition tempDir : string := path_join os_tmpdir "napcat-pixiv-plugin".

Definition filePath (imageUrl : string) : string :=
  path_join tempDir (path_basename imageUrl).

(** The cache as [downloadImage] sees it once the directory exists. *)
Definition ensure_tempDir (c : Cache) : Cache :=
  if negb (existsSync tempDir c) then mkdirSync tempDir c else c.

Definition downloadImage (imageUrl : string) (c : Cache)
    : Result string * Cache :=
  let c := ensure_tempDir c in
  let fileName := path_basename imageUrl in
  let filePath := path_join tempDir fileName in
  if existsSync filePath c then (Ok filePath, c)
  else
    match pixivImg imageUrl filePath c with
    | (Ok _, c) => (Ok filePath, c)
    | (Throw e, c) => (Throw e, c)
    | (OutOfFuel, c) => (OutOfFuel, c)
    end.

End WithNode.
End Materializer.

(** ** handlers/message-handler.ts: the global rate limiter *)
Module Handler.
Import Js.
Local Open Scope list_scope.

Definition windowMs : Z := 60000.

(** [while (requestTimestamps.length > 0 && requestTimestamps[0] <= now - windowMs)
       requestTimestamps.shift()] *)
Fixpoint shift_old (now : Z) (requestTimestamps : list Z) : list Z :=
  match requestTimestamps with
  | [] => []
  | t :: rest =>
      if t <=? now - windowMs then shift_old now rest else requestTimestamps
  end.

(** [isRateLimited()]: [now] is what Date.now() returns; the result is the
    returned boolean and the array [requestTimestamps] after the call. *)
Definition isRateLimited (rateLimitPerMinute : option Z) (now : Z)
    (requestTimestamps : list Z) : bool * list Z :=
  let limit := nullish rateLimitPerMinute 60 in
  if limit <=? 0 then (false, requestTimestamps)
  else
    let requestTimestamps := shift_old now requestTimestamps in
    if Z.of_nat (length requestTimestamps) >=? limit then (true, requestTimestamps)
    else (false, requestTimestamps ++ [now]).

(** The specification's reading of one check: drop the stamps the window
    no longer covers (those that are 60 seconds old or older), then admit
    and record if fewer than [limit] stamps remain, and reject without
    recording otherwise. *)
Definition check_spec (limit now : Z) (stamps : list Z) : bool * list Z :=
  let remaining := filter (fun t => now - windowMs <? t) stamps in
  if Z.of_nat (length remaining) <? limit then (false, remaining ++ [now])
  else (true, remaining).

(** A sequence of checks, at the times [nows], from a given array. *)
Fixpoint run (check : Z -> list Z -> bool * list Z) (nows : list Z)
    (stamps : list Z) : list bool * list Z :=
  match nows with
  | [] => ([], stamps)
  | now :: later =>
      let '(limited, stamps) := check now stamps in
      let '(answers, stamps) := run check later stamps in
      (limited :: answers, stamps)
  end.

(** The times of the checks that were admitted, given the answers. *)
Definition admitted (nows : list Z) (answers : list bool) : list Z :=
  map fst (filter (fun p => negb (snd p)) (combine nows answers)).

(** [cooldownMap]: a [Map<string, number>] from the group key to the time
    at which its cooldown expires. *)
Definition CooldownMap : Type := string -> option Z.

Definition Map_empty : CooldownMap := fun _ => None.

Definition Map_set (key : string) (value : Z) (m : CooldownMap) : CooldownMap :=
  fun k => if String.eqb k key then Some value else m k.

Definition Map_delete (key : string) (m : CooldownMap) : CooldownMap :=
  fun k => if String.eqb k key then None else m k.

(** [Math.ceil(x / y)] on integers, for a positive [y]. *)
Definition ceil_div (x y : Z) : Z := - ((- x) / y).

(** [Number(pluginState.config.cooldownSeconds) || 0] *)
Definition cdSeconds (cooldownSeconds : option Z) : Z := nullish cooldownSeconds 0.

(** [getCooldownRemaining(groupId)]: [key] is [String(groupId)], [now] is
    what Date.now() returns; the result is the returned number of seconds
    and the map after the call. *)
Definition getCooldownRemaining (cooldownSeconds : option Z) (key : string)
    (now : Z) (cooldownMap : CooldownMap) : Z * CooldownMap :=
  if cdSeconds cooldownSeconds <=? 0 then (0, cooldownMap)
  else
    match cooldownMap key with
    | None => (0, cooldownMap)
    | Some expireTime =>
        if expireTime =? 0 then (0, cooldownMap)
        else
          let remaining := ceil_div (expireTime - now) 1000 in
          if remaining <=? 0 then (0, Map_delete key cooldownMap)
          else (remaining, cooldownMap)
    end.

(** [setCooldown(groupId)] *)
Definition setCooldown (cooldownSeconds : option Z) (key : string) (now : Z)
    (cooldownMap : CooldownMap) : CooldownMap :=
  if cdSeconds cooldownSeconds <=? 0 then cooldownMap
  else Map_set key (now + cdSeconds cooldownSeconds * 1000) cooldownMap.

(** [clearCooldownMap()] *)
Definition clearCooldownMap (cooldownMap : CooldownMap) : CooldownMap :=
  Map_empty.

End Handler.

(** ** Concrete environments on which the model is run *)
Module Examples.
Import Js.

Definition lower_ascii (c : ascii) : ascii :=
  let n := nat_of_ascii c in
  if ((65 <=? n) && (n <=? 90))%nat then ascii_of_nat (n + 32) else c.

Fixpoint lower (s : string) : string :=
  match s with
  | EmptyString => EmptyString
  | String c rest => String (lower_ascii c) (lower rest)
  end.

(** Depth of parentheses left open by a pattern, [None] when one closes
    too early. *)
Fixpoint parens (depth : nat) (s : string) : option nat :=
  match s with
  | EmptyString => Some depth
  | String c rest =>
      if Ascii.eqb c "("%char then parens (S depth) rest
      else if Ascii.eqb c ")"%char then
        match depth with O => None | S d => parens d rest end
      else parens depth rest
  end.

(** A small engine: ASCII case mapping; a pattern compiles when its
    parentheses are balanced and then matches as a literal, ignoring
    case. *)
Definition engine : Engine := {|
  RegExp := string;
  toLowerCase := lower;
  new_RegExp := fun p _ =>
    match parens 0 p with Some O => Some p | _ => None end;
  RegExp_test := fun re text => includes (lower text) (lower re)
|}.

(** An upstream client that replays a list of responses, whatever is
    asked, answers an empty batch afterwards, and accepts every token. *)
Definition replay (f : list Pixiv.Response) : Pixiv.Response * list Pixiv.Response :=
  match f with
  | [] => (Pixiv.Resolves (Some []), [])
  | r :: rest => (r, rest)
  end.

Definition scripted : Pixiv.FeedClient := {|
  Pixiv.Feed := list Pixiv.Response;
  Pixiv.login := fun _ f => (true, f);
  Pixiv.searchIllust := fun _ _ f => replay f;
  Pixiv.illustRecommended := fun f => replay f
|}.

(** A plain illustration: unrestricted, sanity level 2, one large URL. *)
Definition plain (i : Z) : Pixiv.RawIllust :=
  Pixiv.mkRaw i (Some "title") (Some 0) (Some 2) None (Some [])
    None (Some "https://i.pximg.net/img/a_p0.jpg") None (Some "artist").

(** An illustration that passes the three filters and has no image URL. *)
Definition urlless (i : Z) : Pixiv.RawIllust :=
  Pixiv.mkRaw i (Some "title") (Some 0) (Some 2) None (Some [])
    None None None (Some "artist").

(** An age-restricted illustration. *)
Definition restricted (i : Z) : Pixiv.RawIllust :=
  Pixiv.mkRaw i (Some "title") (Some 1) (Some 6) None (Some [])
    None (Some "https://i.pximg.net/img/b_p0.jpg") None (Some "artist").

Definition config (count : Z) : Pixiv.PluginConfig :=
  Pixiv.mkConfig (Some "refresh-token") (Some false) (Some false)
    (Some count) (Some 60).

(** A logged-out service in front of a scripted feed, with no banned
    words on disk and an exhausted random oracle. *)
Definition world (script : list Pixiv.Response) : @Pixiv.World scripted :=
  @Pixiv.mkWorld scripted [] script false BannedWords.initial None [] [].

(** The same with draws of Math.random still to come. *)
Definition world_with (draws : Js.Random) (script : list Pixiv.Response)
    : @Pixiv.World scripted :=
  @Pixiv.mkWorld scripted draws script false BannedWords.initial None [] [].

(** [path.basename]: what follows the last slash. *)
Fixpoint basename_from (acc s : string) : string :=
  match s with
  | EmptyString => acc
  | String c rest =>
      if Ascii.eqb c "/"%char then basename_from EmptyString rest
      else basename_from (acc ++ String c EmptyString) rest
  end.

Definition posix : Materializer.Node := {|
  Materializer.os_tmpdir := "/tmp";
  Materializer.path_join := fun a b => a ++ "/" ++ b;
  Materializer.path_basename := basename_from EmptyString
|}.

(** A plain illustration with a title of its own. *)
Definition titled (i : Z) (t : string) : Pixiv.RawIllust :=
  Pixiv.mkRaw i (Some t) (Some 0) (Some 2) None (Some [])
    None (Some "https://i.pximg.net/img/a_p0.jpg") None (Some "artist").

(** Two batches that both carry the id 1. *)
Definition overlapping : list Pixiv.Response :=
  [Pixiv.Resolves (Some [titled 1 "first"]);
   Pixiv.Resolves (Some [titled 1 "again"; plain 2; plain 3])].

(** A batch of one item, then a batch of two new ones. *)
Definition growing : list Pixiv.Response :=
  [Pixiv.Resolves (Some [plain 1]);
   Pixiv.Resolves (Some [plain 2; plain 3])].

(** A batch whose only item has no image URL, then a batch of three
    plain illustrations. *)
Definition urlless_then_plain : list Pixiv.Response :=
  [Pixiv.Resolves (Some [urlless 1]);
   Pixiv.Resolves (Some [plain 2; plain 3; plain 4])].

(** A batch emptied by the maturity filter, an empty batch, and again. *)
Definition filtered_and_empty : list Pixiv.Response :=
  [Pixiv.Resolves (Some [restricted 1]);
   Pixiv.Resolves (Some []);
   Pixiv.Resolves (Some [restricted 2]);
   Pixiv.Resolves (Some [])].

(** A rule list: one fuzzy rule, one disabled fuzzy rule, one regex. *)
Definition rules : list BannedWords.BannedWord :=
  [BannedWords.mkBannedWord "r1" "血腥" BannedWords.fuzzy true 1;
   BannedWords.mkBannedWord "r2" "gore" BannedWords.fuzzy false 2;
   BannedWords.mkBannedWord "r3" "(nsfw)" BannedWords.regex true 3].

Definition service : BannedWords.Service := BannedWords.mkService rules true.

(** The safe item extracted from [titled i t]. *)
Definition safe (i : Z) (t : string) : Pixiv.SafeIllust :=
  Pixiv.mkSafe i (Some t) "artist" "https://i.pximg.net/img/a_p0.jpg".

End Examples.

(** ** Vocabulary of the statements about the service *)
Module PixivSpec.
Import Js Pixiv.
Local Open Scope list_scope.

(** The tallies of one extraction as the statement about them reads:
    the three rejection counts, the accepted items and the items dropped
    for lack of an image URL add up to [totalScanned], and [totalScanned]
    is the length of the batch passed in. *)
Definition tallies_cover_batch {E : Engine} {F : FeedClient}
    (config : PluginConfig) (batch : list RawIllust) (shuffle : bool)
    (w : World) : Prop :=
  exists iterated sc r,
    fst (extractTopSafe_scan config batch shuffle w) = Ok (iterated, sc)
    /\ fst (extractTopSafe config batch shuffle w) = Ok r
    /\ (r18Filtered r + sensitiveFiltered r + bannedFiltered r
        + length (illusts r) + ghost_noUrl sc = totalScanned r)%nat
    /\ totalScanned r = length batch.

(** The same with the items the loop never reached counted in. *)
Definition tallies_cover_batch_with_unexamined {E : Engine} {F : FeedClient}
    (config : PluginConfig) (batch : list RawIllust) (shuffle : bool)
    (w : World) : Prop :=
  exists iterated sc r,
    fst (extractTopSafe_scan config batch shuffle w) = Ok (iterated, sc)
    /\ fst (extractTopSafe config batch shuffle w) = Ok r
    /\ (r18Filtered r + sensitiveFiltered r + bannedFiltered r
        + length (illusts r) + ghost_noUrl sc + ghost_notExamined sc
        = totalScanned r)%nat
    /\ totalScanned r = length batch
    /\ (Z.of_nat (length (illusts r)) < requiredCount config ->
        ghost_notExamined sc = 0%nat).

(** Number of upstream search calls in a call record. *)
Definition searches (cs : list Call) : nat := length (filter is_search cs).

Definition recommendations (cs : list Call) : nat :=
  length (filter is_recommended cs).

(** Number of attempts of a log whose raw batch was empty. *)
Definition empties (log : list Attempt) : nat :=
  length (filter (fun a => (at_raw a =? 0)%nat) log).

(** A log of attempts that walks down [offsetLimits] from a level: each
    attempt uses the ceiling of the current level and an offset within
    it; an empty raw batch moves the next attempt one level down, and no
    attempt follows an empty raw batch at the ceiling 0. *)
Fixpoint ladder (level : nat) (log : list Attempt) : Prop :=
  match log with
  | [] => True
  | a :: rest =>
      at_ceiling a = nth level offsetLimits 0
      /\ 0 <= at_offset a <= at_ceiling a
      /\ (at_raw a = 0%nat -> at_ceiling a = 0 -> rest = [])
      /\ ladder (if (at_raw a =? 0)%nat then S level else level) rest
  end.

(** The items accepted over the attempts of a log, in the order seen. *)
Definition seen (log : list Attempt) : list SafeIllust :=
  concat (map at_accepted log).

(** The first item of a stream that carries a given id. *)
Definition first_with_id (i : Z) (stream : list SafeIllust) : option SafeIllust :=
  find (fun y => id y =? i) stream.

(** [wp c w Q]: the completion and the final world of the command [c]
    run in [w] satisfy [Q]. *)
Definition wp {F : FeedClient} {A : Type} (c : M A) (w : World)
    (Q : Result A -> World -> Prop) : Prop :=
  Q (fst (c w)) (snd (c w)).

(** [returns c w Q]: [c] run in [w] returns a value, and [Q] holds. *)
Definition returns {F : FeedClient} {A : Type} (c : M A) (w : World)
    (Q : A -> World -> Prop) : Prop :=
  wp c w (fun r w' => match r with Ok a => Q a w' | _ => False end).

(** [quiet w w']: no upstream call and no attempt was recorded, and the
    login state is the same. *)
Definition quiet {F : FeedClient} (w w' : World) : Prop :=
  calls w' = calls w /\ attempts w' = attempts w
  /\ isLoggedIn w' = isLoggedIn w.

(** Everything the loop of [extractTopSafe] has counted, ghosts
    included. *)
Definition scan_total (sc : Scan) : nat :=
  (sc_r18Filtered sc + sc_sensitiveFiltered sc + sc_bannedFiltered sc
   + length (sc_result sc) + ghost_noUrl sc + ghost_notExamined sc)%nat.

(** What the body of a retry loop owes to the loop: it issues at most
    one counted upstream call; it never diverges; when it throws it has
    recorded no attempt; otherwise it has recorded one attempt [a], merged
    what that attempt accepted into the pool, and returns the collected
    result of that pool or hands the pool on. *)
Definition attempt_contract {F : FeedClient} (config : PluginConfig)
    (counted : Call -> bool) (body : Z -> Session -> M Step) : Prop :=
  forall (attempt : Z) (st : Session) (w : World),
    wp (body attempt st) w
      (fun r w' =>
         (length (filter counted (calls w'))
          <= S (length (filter counted (calls w))))%nat
         /\ match r with
            | OutOfFuel => False
            | Throw _ => attempts w' = attempts w
            | Ok step =>
                exists a st1,
                  attempts w' = attempts w ++ [a]
                  /\ collectedMap st1 = merge (at_accepted a) (collectedMap st)
                  /\ at_pool a = Map_size (collectedMap st1)
                  /\ match step with
                     | Return r => r = collected config st1
                     | Break st' | Continue st' =>
                         collectedMap st' = collectedMap st1
                     end
            end).

(** What a retry loop achieves: the attempts it appended to the log, a
    bound on the counted calls, and the pool behind its result. *)
Definition session_outcome {F : FeedClient} (config : PluginConfig)
    (counted : Call -> bool) (budget : nat) (pool : JsMap) (w : World)
    (r : Result (Session + ExtractResult)) (w' : World) : Prop :=
  exists log,
    attempts w' = attempts w ++ log
    /\ (length (filter counted (calls w'))
        <= length (filter counted (calls w)) + budget)%nat
    /\ (length log <= budget)%nat
    /\ forall res, r = Ok res ->
         exists st',
           collectedMap st' = merge (seen log) pool
           /\ (res = inl st' \/ res = inr (collected config st'))
           /\ (forall a, In a log ->
                (at_pool a <= length (merge (seen log) pool))%nat).

(** What a whole session achieves, for a budget of attempts and a kind
    of upstream call: the attempts appended to the log, the bound on the
    calls, that fuel beyond the budget is enough, and the result as the
    collected pool of everything the attempts accepted, merged in order
    into an empty map. *)
Definition acquisition {F : FeedClient} (config : PluginConfig)
    (counted : Call -> bool) (budget fuel : nat) (w : World)
    (r : Result ExtractResult) (w' : World) (log : list Attempt) : Prop :=
  attempts w' = attempts w ++ log
  /\ (length log <= budget)%nat
  /\ (length (filter counted (calls w'))
      <= length (filter counted (calls w)) + budget)%nat
  /\ ((budget < fuel)%nat -> r <> OutOfFuel)
  /\ forall res, r = Ok res ->
       exists st',
         collectedMap st' = merge (seen log) []
         /\ res = collected config st'
         /\ forall a, In a log ->
              (at_pool a <= length (merge (seen log) []))%nat.

(** The image URL that [extractTopSafe] resolves for an illustration: the
    original if it is not empty, else the large one if it is not empty,
    else the medium one. *)
Definition resolved_url (illust : RawIllust) : option string :=
  if truthy (metaSinglePage_originalImageUrl illust)
  then metaSinglePage_originalImageUrl illust
  else or_else (imageUrls_large illust) (imageUrls_medium illust).

(** The safe item that [extractTopSafe] makes of an illustration. *)
Definition projection (illust : RawIllust) : SafeIllust :=
  mkSafe (raw_id illust) (raw_title illust)
    (if truthy (user_name illust) then nullish (user_name illust) unknownUser
     else unknownUser)
    (nullish (resolved_url illust) "").

(** An illustration that none of the three filters rejects, for a rule
    list held by a service and its file, and that has an image URL. *)
Definition passes_filters {E : Engine} (config : PluginConfig)
    (s : BannedWords.Service) (d : BannedWords.Disk) (illust : RawIllust)
    : Prop :=
  (flag (r18Enabled config) = false ->
   xRestrict illust = None \/ xRestrict illust = Some 0)
  /\ (flag (sensitiveEnabled config) = false ->
      nullish (sanityLevel illust) (nullish (sanity_level illust) 0) < 4)
  /\ fst (BannedWords.checkIllust (raw_title illust) (tags illust) s d) = None
  /\ truthy (resolved_url illust) = true.

(** The rule list of a world is the one of [s] and [d], loaded or not. *)
Definition same_rules {F : FeedClient} (s : BannedWords.Service)
    (d : BannedWords.Disk) (w : World) : Prop :=
  disk w = d
  /\ (banned w = s \/ banned w = BannedWords.ensureLoaded s d).

(** Number of raw items over the attempts of a log. *)
Definition raw_total (log : list Attempt) : nat := list_sum (map at_raw log).

(** A call that [searchTop3] may issue for a keyword and a token: a login
    with the token, or a search for the keyword at an offset between 0 and
    300. *)
Definition search_session_call (token keyword : string) (c : Call) : Prop :=
  c = CallLogin token
  \/ exists offset, c = CallSearch keyword offset /\ 0 <= offset <= 300.

(** The draws of Math.random that an attempt of [searchTop3] consumes:
    one for its offset, unless its ceiling is 0, and one for each step of
    the shuffle of its raw batch. *)
Definition draws_of (a : Attempt) : nat :=
  ((if at_ceiling a >? 0 then 1 else 0) + (at_raw a - 1))%nat.

Definition draws (log : list Attempt) : nat := list_sum (map draws_of log).

(** [maxOffset > 0 ? Math.floor(Math.random() * (maxOffset + 1)) : 0] as
    a function of the oracle. *)
Definition offset_from (maxOffset : Z) (rng : Random) : Z :=
  if maxOffset >? 0 then fst (random_floor (maxOffset + 1) rng) else 0.

(** A log whose offsets are computed from the oracle, each attempt from
    what the attempts before it have left of it. *)
Fixpoint drawn (rng : Random) (log : list Attempt) : Prop :=
  match log with
  | [] => True
  | a :: rest =>
      at_offset a = offset_from (at_ceiling a) rng
      /\ drawn (skipn (draws_of a) rng) rest
  end.

(** The search request of an attempt. *)
Definition request (keyword : string) (a : Attempt) : Call :=
  CallSearch keyword (at_offset a).

End PixivSpec.

(** ** handlers/message-handler.ts: the dispatcher *)
Module MessageHandler.
Import Js Handler.
Local Open Scope list_scope.

(** [String(n)] for an integer [n]. *)
Definition String_of (n : Z) : string :=
  DecimalString.NilZero.string_of_int (Z.to_int n).

(** The line feed of ["\n"]. *)
Definition nl : string := String (ascii_of_nat 10) EmptyString.

(** [lines.join(sep)] *)
Fixpoint join (sep : string) (parts : list string) : string :=
  match parts with
  | [] => ""
  | [p] => p
  | p :: rest => (p ++ sep ++ join sep rest)%string
  end.

(** [s.slice(n)] where [n] is the length of a prefix of [s]: what
    follows the prefix. *)
Fixpoint slice (n : nat) (s : string) : string :=
  match n, s with
  | O, _ => s
  | S n', String _ rest => slice n' rest
  | S _, EmptyString => EmptyString
  end.

(** [String.prototype.trim] and [split(/\s+/)], taken as given. *)
Class StringOps : Type := {
  trim : string -> string;
  split_whitespace : string -> list string
}.

Inductive MessageType : Type := group | private.

(** The fields of an [OB11Message] that the dispatcher reads. *)
Record OB11Message : Type := mkMessage {
  raw_message : option string;
  message_type : MessageType;
  group_id : option Z;
  user_id : Z
}.

(** The options of [pluginState.config] that the dispatcher reads. *)
Record Settings : Type := mkSettings {
  commandPrefix : option string;
  cooldownSeconds : option Z;
  rateLimitPerMinute : option Z
}.

(** core/state is not among the sources: what the dispatcher reads from
    [pluginState] is an input. *)
Record PluginState : Type := mkPluginState {
  isGroupEnabled : string -> bool;
  uptimeFormatted : string;
  todayProcessed : Z;
  processed : Z
}.

(** The three reads of Date.now() that handling one message can make. *)
Record Clock : Type := mkClock {
  at_rate_check : Z;
  at_cooldown_check : Z;
  at_cooldown_set : Z
}.

(** The module-level state of the handler. *)
Record Limits : Type := mkLimits {
  requestTimestamps : list Z;
  cooldownMap : CooldownMap
}.

(** What handling a message does to the outside, in order. *)
Inductive Effect : Type :=
| SendReply (message : string)
| HandlePixivCommand (args : list string)
| IncrementProcessed.

Definition tooFrequent : string := "⚠️ 请求过于频繁，请稍后再试。".

Definition pleaseWait (remaining : Z) : string :=
  ("请等待 " ++ String_of remaining ++ " 秒后再试")%string.

Definition helpText (prefix : string) : string :=
  join nl [ "[= 插件帮助 =]";
            (prefix ++ " help - 显示帮助信息")%string;
            (prefix ++ " ping - 测试连通性")%string;
            (prefix ++ " status - 查看运行状态")%string ].

Definition statusText (state : PluginState) : string :=
  join nl [ "[= 插件状态 =]";
            ("运行时长: " ++ uptimeFormatted state)%string;
            ("今日处理: " ++ String_of (todayProcessed state))%string;
            ("总计处理: " ++ String_of (processed state))%string ].

(** [String(groupId)] when [messageType === 'group' && groupId] holds. *)
Definition groupKey (event : OB11Message) : option string :=
  match message_type event, group_id event with
  | group, Some g => if g =? 0 then None else Some (String_of g)
  | _, _ => None
  end.

(** The block that the cases ping and p站 share: for a group message, look
    the cooldown up and either answer how long to wait or set it. *)
Definition cooldown_block (settings : Settings) (clock : Clock)
    (event : OB11Message) (m : CooldownMap) : option string * CooldownMap :=
  match groupKey event with
  | Some key =>
      let '(remaining, m) :=
        getCooldownRemaining (cooldownSeconds settings) key
          (at_cooldown_check clock) m in
      if remaining >? 0 then (Some (pleaseWait remaining), m)
      else (None, setCooldown (cooldownSeconds settings) key
                    (at_cooldown_set clock) m)
  | None => (None, m)
  end.

(** [event.raw_message || ''] *)
Definition rawMessageOf (event : OB11Message) : string :=
  if truthy (raw_message event) then nullish (raw_message event) "" else "".

(** [pluginState.config.commandPrefix || '#cmd'] *)
Definition prefixOf (settings : Settings) : string :=
  if truthy (commandPrefix settings) then nullish (commandPrefix settings) ""
  else "#cmd".

Section WithStrings.
Context {E : Engine} {S : StringOps}.

(** [handleMessage(ctx, event)] *)
Definition handleMessage (settings : Settings) (state : PluginState)
    (clock : Clock) (event : OB11Message) (limits : Limits)
    : list Effect * Limits :=
  let rawMessage := rawMessageOf event in
  if match groupKey event with
     | Some key => negb (isGroupEnabled state key)
     | None => false
     end
  then ([], limits)
  else
    let prefix := prefixOf settings in
    if negb (String.prefix prefix rawMessage) then ([], limits)
    else
      let args :=
        split_whitespace (trim (slice (String.length prefix) rawMessage)) in
      let subCommand :=
        match args with a :: _ => toLowerCase a | [] => "" end in
      let '(limited, stamps) :=
        isRateLimited (rateLimitPerMinute settings) (at_rate_check clock)
          (requestTimestamps limits) in
      if limited then ([SendReply tooFrequent], mkLimits stamps (cooldownMap limits))
      else if String.eqb subCommand "help" then
        ([SendReply (helpText prefix)], mkLimits stamps (cooldownMap limits))
      else if String.eqb subCommand "ping" then
        match cooldown_block settings clock event (cooldownMap limits) with
        | (Some wait, m) => ([SendReply wait], mkLimits stamps m)
        | (None, m) => ([SendReply "pong!"; IncrementProcessed], mkLimits stamps m)
        end
      else if String.eqb subCommand "p站" then
        match cooldown_block settings clock event (cooldownMap limits) with
        | (Some wait, m) => ([SendReply wait], mkLimits stamps m)
        | (None, m) =>
            ([HandlePixivCommand (tl args); IncrementProcessed], mkLimits stamps m)
        end
      else if String.eqb subCommand "status" then
        ([SendReply (statusText state)], mkLimits stamps (cooldownMap limits))
      else ([], mkLimits stamps (cooldownMap limits)).

End WithStrings.
End MessageHandler.

(** ** handlers/pixiv-handler.ts *)
Module PixivHandler.
Import Js Pixiv.
Local Open Scope list_scope.

(** A segment of the content of a forward node. *)
Inductive Segment : Type :=
| Text (text : string)
| Image (file : string).

Record ForwardNode : Type := mkNode {
  nickname : string;
  node_user_id : string;
  content : list Segment
}.

(** How a download of [Promise.allSettled] settled. *)
Inductive Settled : Type :=
| Fulfilled (value : string)
| Rejected.


(** What a handler does to the outside, in order; [SendForwardMsg] is the
    call of [sendForwardMsg] with its nodes. *)
Inductive Effect : Type :=
| SendReply (message : string)
| SendForwardMsg (nodes : list ForwardNode).

(** The nickname and the card of [event.sender]. *)
Record Sender : Type := mkSender {
  sender_nickname : option string;
  sender_card : option string
}.

(** A possibly undefined string inside a template literal. *)
Definition shown (o : option string) : string :=
  match o with Some s => s | None => "undefined" end.

Definition caption (illust : SafeIllust) : string :=
  (MessageHandler.nl ++ "📌 " ++ shown (title illust)
   ++ MessageHandler.nl ++ "🎨 " ++ userName illust
   ++ MessageHandler.nl ++ "🔗 ID: " ++ MessageHandler.String_of (id illust)
   ++ MessageHandler.nl)%string.

(** The [for] loop of [buildForwardNodes] from the index [i] on;
    [downloadResults i] is how the download of the i-th image settled. *)
Fixpoint contents (downloadResults : nat -> Settled) (i : nat)
    (illusts : list SafeIllust) : list Segment :=
  match illusts with
  | [] => []
  | illust :: rest =>
      match downloadResults i with
      | Fulfilled localPath =>
          Image ("file://" ++ localPath)%string
          :: Text (caption illust)
          :: contents downloadResults (S i) rest
      | Rejected => contents downloadResults (S i) rest
      end
  end.


(** [buildForwardNodes(illusts, title)], given how the downloads it starts
    settle and [pluginState.selfId]. *)
Definition buildForwardNodes (downloadResults : nat -> Settled)
    (selfId : option string) (illusts : list SafeIllust) (title : string)
    : list ForwardNode :=
  let content := Text title :: contents downloadResults 0 illusts in
  if (length content =? 0)%nat then []
  else [mkNode "Pixiv Bot"
          (if truthy selfId then nullish selfId "" else "10000") content].

(** The parts of the message about an empty result. *)
Definition filterParts (result : ExtractResult) : list string :=
  (if (0 <? r18Filtered result)%nat
   then [("R-18: " ++ MessageHandler.String_of (Z.of_nat (r18Filtered result)))%string]
   else [])
  ++ (if (0 <? sensitiveFiltered result)%nat
      then [("敏感: " ++ MessageHandler.String_of
                           (Z.of_nat (sensitiveFiltered result)))%string]
      else [])
  ++ (if (0 <? bannedFiltered result)%nat
      then [("违禁词: " ++ MessageHandler.String_of
                             (Z.of_nat (bannedFiltered result)))%string]
      else []).

Definition totalFiltered (result : ExtractResult) : nat :=
  (r18Filtered result + sensitiveFiltered result + bannedFiltered result)%nat.

(** [event.sender?.nickname || event.sender?.card || '未知用户'] *)
Definition senderName (sender : Sender) : string :=
  if truthy (sender_nickname sender) then nullish (sender_nickname sender) ""
  else if truthy (sender_card sender) then nullish (sender_card sender) ""
  else "未知用户".

Definition refused : string := "🚫 搜索关键词包含违禁内容，已拒绝搜索。".
Definition downloadsFailed : string := "图片下载失败，请稍后重试。".
Definition forwardFailed : string := "⚠️ 合并转发消息发送失败，请稍后重试。".

(** What both handlers do with a result that holds items: build the
    node, send it, and report a failed send. *)
Definition deliver (downloadResults : nat -> Settled) (selfId : option string)
    (forwarded : bool) (illusts : list SafeIllust) (title : string)
    : list Effect :=
  let nodes := buildForwardNodes downloadResults selfId illusts title in
  if (length nodes =? 0)%nat then [SendReply downloadsFailed]
  else SendForwardMsg nodes
       :: (if forwarded then [] else [SendReply forwardFailed]).

Section WithEnvironment.
Context {E : Engine} {F : FeedClient}.

(** [handleSearch(ctx, event, keyword)]; [forwarded] is what
    [sendForwardMsg] answers.  What the session throws is an [Error], of
    which the [catch] reports the message. *)
Definition handleSearch (config : PluginConfig) (fuel : nat)
    (downloadResults : nat -> Settled) (selfId : option string)
    (forwarded : bool) (sender : Sender) (keyword : string)
    : M (list Effect) :=
  fun w =>
    let '(bannedHit, s) :=
      BannedWords.checkKeyword keyword (banned w) (disk w) in
    let w := mkWorld (random w) (feed w) (isLoggedIn w) s (disk w)
               (calls w) (attempts w) in
    match bannedHit with
    | Some _ => (Ok [SendReply refused], w)
    | None =>
        let searching := SendReply ("🔍 正在搜索: " ++ keyword ++ "...")%string in
        match searchTop3 config fuel keyword w with
        | (OutOfFuel, w') => (OutOfFuel, w')
        | (Throw message, w') =>
            (Ok [searching; SendReply ("搜索失败: " ++ message)%string], w')
        | (Ok result, w') =>
            if (length (illusts result) =? 0)%nat then
              if (0 <? totalFiltered result)%nat then
                (Ok [searching;
                     SendReply ("🔞 「" ++ keyword
                                ++ "」的搜索结果均为限制级内容（已过滤 "
                                ++ MessageHandler.join "、" (filterParts result)
                                ++ "），请尝试其他关键词~")%string], w')
              else (Ok [searching; SendReply "未找到相关内容。"], w')
            else
              (Ok (searching
                   :: deliver downloadResults selfId forwarded (illusts result)
                        ("🔍 搜索: " ++ keyword ++ " | 来自 "
                         ++ senderName sender)%string), w')
        end
    end.



End WithEnvironment.
End PixivHandler.

(** ** Further environments on which the model is run *)
Module Scenarios.
Import Js.

(** ASCII blanks. *)
Definition is_blank (c : ascii) : bool :=
  let n := nat_of_ascii c in
  ((n =? 32) || ((9 <=? n) && (n <=? 13)))%nat.

Fixpoint trim_left (s : string) : string :=
  match s with
  | String c rest => if is_blank c then trim_left rest else s
  | EmptyString => EmptyString
  end.

(** The words of a string between runs of blanks; [word] is the word
    being read. *)
Fixpoint words_from (word : string) (s : string) : list string :=
  match s with
  | EmptyString => [word]
  | String c rest =>
      if is_blank c then
        match rest with
        | String c' _ => if is_blank c' then words_from word rest
                         else word :: words_from EmptyString rest
        | EmptyString => [word; EmptyString]
        end
      else words_from (word ++ String c EmptyString) rest
  end.

(** String operations for messages without trailing blanks. *)
Definition strings : MessageHandler.StringOps := {|
  MessageHandler.trim := trim_left;
  MessageHandler.split_whitespace := words_from EmptyString
|}.

Definition settings : MessageHandler.Settings :=
  MessageHandler.mkSettings (Some "#") (Some 60) (Some 2).

Definition state : MessageHandler.PluginState :=
  MessageHandler.mkPluginState (fun _ => true) "1小时" 3 10.

Definition group_message (text : string) : MessageHandler.OB11Message :=
  MessageHandler.mkMessage (Some text) MessageHandler.group (Some 123456) 42.

Definition private_message (text : string) : MessageHandler.OB11Message :=
  MessageHandler.mkMessage (Some text) MessageHandler.private None 42.

Definition limits0 : MessageHandler.Limits :=
  MessageHandler.mkLimits [] Handler.Map_empty.

(** A logged-in service in front of a scripted feed, with a rule list in
    memory. *)
Definition world_with_rules (script : list Pixiv.Response)
    : @Pixiv.World Examples.scripted :=
  @Pixiv.mkWorld Examples.scripted [] script true Examples.service
    (Some Examples.rules) [] [].

(** An upstream client that accepts every token and rejects every
    request for a feed. *)
Definition rejecting : Pixiv.FeedClient := {|
  Pixiv.Feed := unit;
  Pixiv.login := fun _ f => (true, f);
  Pixiv.searchIllust := fun _ _ f => (Pixiv.Rejects "Rate Limit", f);
  Pixiv.illustRecommended := fun f => (Pixiv.Rejects "Rate Limit", f)
|}.

(** The rule that [add] builds for the fuzzy pattern cat. *)
Definition cat_rule : BannedWords.BannedWord :=
  BannedWords.mkBannedWord "u9" "cat" BannedWords.fuzzy true 9.

Definition r1 : BannedWords.BannedWord :=
  BannedWords.mkBannedWord "r1" "血腥" BannedWords.fuzzy true 1.

Definition r2 : BannedWords.BannedWord :=
  BannedWords.mkBannedWord "r2" "gore" BannedWords.fuzzy false 2.

Definition r3 : BannedWords.BannedWord :=
  BannedWords.mkBannedWord "r3" "(nsfw)" BannedWords.regex true 3.

(** A batch of three restricted items, an empty batch, and a batch of
    one restricted item. *)
Definition restricted_batches : list Pixiv.Response :=
  [Pixiv.Resolves (Some [Examples.restricted 1; Examples.restricted 2;
                         Examples.restricted 3]);
   Pixiv.Resolves (Some []);
   Pixiv.Resolves (Some [Examples.restricted 4])].

End Scenarios.

(* ================================================================== *)
(** * Part II.  Properties                                              *)
(* ================================================================== *)

Local Open Scope list_scope.

(** ** The banned-word matcher *)
Section BannedWordsProperties.
Import BannedWords.
Context {E : Js.Engine}.

Lemma loaded_ensureLoaded (s : Service) (d : Disk) :
  loaded (ensureLoaded s d) = true.
Proof. unfold ensureLoaded. destruct (loaded s) eqn:L; simpl; auto. Qed.

Lemma ensureLoaded_idem (s : Service) (d d' : Disk) :
  ensureLoaded (ensureLoaded s d) d' = ensureLoaded s d.
Proof.
  unfold ensureLoaded at 1. now rewrite loaded_ensureLoaded.
Qed.

Lemma ensureLoaded_loaded (s : Service) (d : Disk) :
  loaded s = true -> ensureLoaded s d = s.
Proof. unfold ensureLoaded. now intros ->. Qed.

(** One turn of the loop of [matchText] tests [rule_matches]. *)
Lemma matchText_loop_cons (text : string) (w : BannedWord) (ws : list BannedWord) :
  matchText_loop (Js.toLowerCase text) text (w :: ws)
  = if rule_matches text w then Some w
    else matchText_loop (Js.toLowerCase text) text ws.
Proof.
  unfold rule_matches. simpl.
  destruct (matchType w); try reflexivity.
  destruct (Js.new_RegExp (pattern w) "i"); reflexivity.
Qed.

(** Filtering the enabled rules first and then searching is searching
    with the conjunction. *)
Lemma matchText_loop_filter (text : string) (ws : list BannedWord) :
  matchText_loop (Js.toLowerCase text) text (filter enabled ws)
  = first_enabled_match text ws.
Proof.
  unfold first_enabled_match.
  induction ws as [|w ws IH]; [reflexivity|].
  cbn [filter find]. destruct (enabled w); cbn [andb].
  - rewrite matchText_loop_cons, IH. reflexivity.
  - exact IH.
Qed.

Lemma find_first_split {A : Type} (p : A -> bool) (l : list A) (x : A) :
  find p l = Some x ->
  p x = true /\
  exists before after,
    l = before ++ x :: after /\ forall y, In y before -> p y = false.
Proof.
  induction l as [|a l IH]; simpl; [discriminate|].
  destruct (p a) eqn:Pa.
  - intros [= ->]. split; [assumption|].
    exists [], l. split; [reflexivity|]. intros y [].
  - intros H. destruct (IH H) as (Px & before & after & -> & Hb).
    split; [assumption|].
    exists (a :: before), after. split; [reflexivity|].
    intros y [<-|Hy]; auto.
Qed.

(** C6.  [checkKeyword] answers the first rule of the stored list that is
    enabled and whose pattern matches the text: every rule stored before
    the answer is disabled or does not match; the answer is [None] exactly
    when no enabled rule matches; a disabled rule is never the answer.
    Matching is [rule_matches]: lowercased equality for exact, lowercased
    containment for fuzzy, and for regex the pattern compiled with the
    flag i and tested on the text as typed (a pattern that does not
    compile matches nothing). *)
Theorem checkKeyword_first_enabled_match :
  forall (s : Service) (d : Disk) (keyword : string),
    let stored := words (ensureLoaded s d) in
    let hit := fst (checkKeyword keyword s d) in
    hit = first_enabled_match keyword stored
    /\ (forall w, hit = Some w ->
          enabled w = true /\ rule_matches keyword w = true
          /\ exists before after,
               stored = before ++ w :: after
               /\ forall x, In x before ->
                    enabled x = false \/ rule_matches keyword x = false)
    /\ (hit = None <->
        forall x, In x stored -> enabled x = true -> rule_matches keyword x = false)
    /\ (forall w, enabled w = false -> hit <> Some w).
Proof.
  intros s d keyword stored hit.
  assert (Hhit : hit = first_enabled_match keyword stored).
  { subst hit stored. unfold checkKeyword, matchText, getEnabled. simpl.
    apply matchText_loop_filter. }
  split; [exact Hhit|]. rewrite Hhit. unfold first_enabled_match.
  split; [|split].
  - intros w Hw. apply find_first_split in Hw.
    destruct Hw as (Hp & before & after & Hs & Hb).
    apply andb_true_iff in Hp. destruct Hp as [He Hm].
    repeat split; try assumption.
    exists before, after. split; [assumption|].
    intros x Hx. apply Hb in Hx. apply andb_false_iff in Hx. exact Hx.
  - split.
    + intros Hn x Hx He.
      pose proof (find_none _ _ Hn x Hx) as Hf. cbv beta in Hf.
      rewrite He in Hf. exact Hf.
    + intros Hall.
      destruct (find _ stored) as [w|] eqn:Hf; [|reflexivity].
      pose proof (find_some _ _ Hf) as [Hin Hp].
      apply andb_true_iff in Hp. destruct Hp as [He Hm].
      rewrite (Hall w Hin He) in Hm. discriminate.
  - intros w He Hf. apply find_some in Hf. destruct Hf as [_ Hp].
    rewrite He in Hp. discriminate.
Qed.

(** An [update] whose id names no rule returns null before any validation
    and changes nothing. *)
Lemma update_unknown_id (i : string) (u : Updates) (s : Service) (d : Disk) :
  find_word i (words (ensureLoaded s d)) = None ->
  update i u s d = (Ok None, ensureLoaded s d, d).
Proof. intros Hf. unfold update. rewrite Hf. reflexivity. Qed.

(** C7.  A regex pattern that does not compile makes [add] throw the
    syntax-error message that names the pattern, and makes [update] of a
    rule of the list throw it as well, for the match type and the pattern
    the rule would have after the update.  In both cases the file on disk
    is left as it was and the rule list of the service is the list it had
    (lazily loaded from that file on first access): [getAll] answers the
    same list before and after, and a service that was already loaded is
    left untouched. *)
Theorem invalid_regex_changes_nothing :
  forall (s : Service) (d : Disk),
    (forall p uuid now,
        Js.new_RegExp p "" = None ->
        let '(r, s', d') := add p regex uuid now s d in
        r = Throw (syntaxError p)
        /\ d' = d
        /\ s' = ensureLoaded s d
        /\ fst (getAll s' d') = fst (getAll s d)
        /\ (loaded s = true -> s' = s))
    /\ (forall i u word,
        find_word i (words (ensureLoaded s d)) = Some word ->
        Js.nullish (u_matchType u) (matchType word) = regex ->
        Js.new_RegExp (Js.nullish (u_pattern u) (pattern word)) "" = None ->
        let '(r, s', d') := update i u s d in
        r = Throw (syntaxError (Js.nullish (u_pattern u) (pattern word)))
        /\ d' = d
        /\ s' = ensureLoaded s d
        /\ fst (getAll s' d') = fst (getAll s d)
        /\ (loaded s = true -> s' = s)).
Proof.
  intros s d. split.
  - intros p uuid now Hbad. unfold add. rewrite Hbad.
    repeat split; auto.
    + unfold getAll. simpl. now rewrite ensureLoaded_idem.
    + intros L. now apply ensureLoaded_loaded.
  - intros i u word Hf Hmt Hbad. unfold update. rewrite Hf, Hmt, Hbad.
    repeat split; auto.
    + unfold getAll. simpl. now rewrite ensureLoaded_idem.
    + intros L. now apply ensureLoaded_loaded.
Qed.

End BannedWordsProperties.

(** ** The global rate limiter *)
Section RateLimitProperties.
Import Handler.

(** On an array in chronological order, shifting the old stamps off the
    front removes exactly the stamps the window no longer covers. *)
Lemma shift_old_filter (now : Z) (stamps : list Z) :
  StronglySorted Z.le stamps ->
  shift_old now stamps = filter (fun t => now - windowMs <? t) stamps.
Proof.
  induction 1 as [|t rest Hs IH Hall]; [reflexivity|].
  cbn [shift_old filter].
  destruct (Z.leb_spec t (now - windowMs)) as [Hold|Hnew].
  - destruct (Z.ltb_spec (now - windowMs) t); [lia|]. exact IH.
  - destruct (Z.ltb_spec (now - windowMs) t); [|lia].
    f_equal. symmetry. apply forallb_filter_id.
    apply forallb_forall. intros x Hx.
    rewrite Forall_forall in Hall. specialize (Hall x Hx).
    apply Z.ltb_lt. lia.
Qed.

Lemma isRateLimited_check_spec (L now : Z) (stamps : list Z) :
  0 < L -> StronglySorted Z.le stamps ->
  isRateLimited (Some L) now stamps = check_spec L now stamps.
Proof.
  intros HL Hs. unfold isRateLimited, check_spec. cbn [Js.nullish].
  destruct (Z.leb_spec L 0); [lia|].
  rewrite (shift_old_filter now stamps Hs).
  set (remaining := filter _ stamps).
  destruct (Z.ltb_spec (Z.of_nat (length remaining)) L);
    destruct (Z.geb_spec (Z.of_nat (length remaining)) L); try lia; reflexivity.
Qed.

Lemma StronglySorted_filter (p : Z -> bool) (l : list Z) :
  StronglySorted Z.le l -> StronglySorted Z.le (filter p l).
Proof.
  induction 1 as [|t rest Hs IH Hall]; cbn [filter]; [constructor|].
  destruct (p t); [|exact IH].
  constructor; [exact IH|].
  rewrite Forall_forall in *. intros x Hx.
  apply filter_In in Hx. apply Hall, Hx.
Qed.

Lemma StronglySorted_snoc (l : list Z) (now : Z) :
  StronglySorted Z.le l -> Forall (fun t => t <= now) l ->
  StronglySorted Z.le (l ++ [now]).
Proof.
  induction 1 as [|t rest Hs IH Hall]; intros Hle; cbn [app].
  - constructor; constructor.
  - inversion Hle as [|? ? Ht Hrest]; subst.
    constructor; [apply IH; assumption|].
    apply Forall_app. split; [assumption|]. constructor; [assumption|constructor].
Qed.

(** What one check leaves in the array is again in chronological order
    and not later than the check. *)
Lemma check_spec_order (L now : Z) (stamps : list Z) :
  StronglySorted Z.le stamps -> Forall (fun t => t <= now) stamps ->
  StronglySorted Z.le (snd (check_spec L now stamps))
  /\ Forall (fun t => t <= now) (snd (check_spec L now stamps)).
Proof.
  intros Hs Hle. unfold check_spec.
  set (remaining := filter _ stamps).
  assert (Hr : StronglySorted Z.le remaining) by now apply StronglySorted_filter.
  assert (Hb : Forall (fun t => t <= now) remaining).
  { rewrite Forall_forall in *. intros x Hx. apply filter_In in Hx. apply Hle, Hx. }
  destruct (Z.of_nat (length remaining) <? L); cbn [snd].
  - split; [now apply StronglySorted_snoc|].
    apply Forall_app. split; [assumption|]. constructor; [lia|constructor].
  - split; assumption.
Qed.

Lemma run_isRateLimited_check_spec (L : Z) (nows stamps : list Z) :
  0 < L ->
  StronglySorted Z.le nows ->
  StronglySorted Z.le stamps ->
  (forall t n, In t stamps -> In n nows -> t <= n) ->
  run (isRateLimited (Some L)) nows stamps = run (check_spec L) nows stamps.
Proof.
  intros HL Hn. revert stamps.
  induction Hn as [|now later Hlater IH Hall]; intros stamps Hs Hb;
    [reflexivity|].
  cbn [run]. rewrite (isRateLimited_check_spec L now stamps HL Hs).
  assert (Hle : Forall (fun t => t <= now) stamps).
  { apply Forall_forall. intros t Ht. apply Hb; [assumption|now left]. }
  destruct (check_spec_order L now stamps Hs Hle) as [Hs' Hle'].
  destruct (check_spec L now stamps) as [limited stamps'] eqn:Hc.
  cbn [snd] in *. rewrite IH; [reflexivity|assumption|].
  intros t n Ht Hin. rewrite Forall_forall in Hle', Hall.
  specialize (Hle' t Ht). specialize (Hall n Hin). lia.
Qed.

Lemma run_disabled (nows stamps : list Z) :
  run (isRateLimited (Some 0)) nows stamps = (map (fun _ => false) nows, stamps).
Proof.
  induction nows as [|now later IH]; [reflexivity|].
  cbn [run map]. unfold isRateLimited at 1. cbn [Js.nullish Z.leb Z.compare].
  rewrite IH. reflexivity.
Qed.

(** C8.  With a limit L > 0 every check of a chronological sequence of
    checks, started from the empty array, does what [check_spec] says:
    the stamps that are 60 seconds old or older are removed first; if
    fewer than L stamps remain the call is admitted (answer [false]) and
    its time is recorded, otherwise it is rejected (answer [true]) and
    nothing is recorded.  The same holds for one check on any array in
    chronological order.  With L = 2, three checks within one second are
    answered admitted, admitted, rejected, and a check 61 seconds after
    the first is admitted.  With the limit 0 every check is admitted and
    the array is left alone. *)
Theorem rate_limit_sliding_window :
  (forall (L : Z) (nows : list Z),
      0 < L -> StronglySorted Z.le nows ->
      run (isRateLimited (Some L)) nows [] = run (check_spec L) nows [])
  /\ (forall (L now : Z) (stamps : list Z),
      0 < L -> StronglySorted Z.le stamps ->
      isRateLimited (Some L) now stamps = check_spec L now stamps)
  /\ (forall t1 t2 t3 : Z,
      t1 <= t2 <= t3 -> t3 < t1 + 1000 ->
      fst (run (isRateLimited (Some 2)) [t1; t2; t3; t1 + 61000] [])
      = [false; false; true; false])
  /\ (forall nows stamps : list Z,
      run (isRateLimited (Some 0)) nows stamps
      = (map (fun _ => false) nows, stamps)).
Proof.
  split; [|split; [|split]].
  - intros L nows HL Hn.
    apply run_isRateLimited_check_spec; try assumption; [constructor|].
    intros t n [].
  - intros L now stamps. apply isRateLimited_check_spec.
  - intros t1 t2 t3 H12 H3.
    assert (E1 : isRateLimited (Some 2) t1 [] = (false, [t1])) by reflexivity.
    assert (E2 : isRateLimited (Some 2) t2 [t1] = (false, [t1; t2])).
    { unfold isRateLimited, windowMs. cbn [Js.nullish shift_old].
      change (2 <=? 0) with false. cbv iota. unfold windowMs.
      destruct (Z.leb_spec t1 (t2 - 60000)); [lia|]. reflexivity. }
    assert (E3 : isRateLimited (Some 2) t3 [t1; t2] = (true, [t1; t2])).
    { unfold isRateLimited, windowMs. cbn [Js.nullish shift_old].
      change (2 <=? 0) with false. cbv iota. unfold windowMs.
      destruct (Z.leb_spec t1 (t3 - 60000)); [lia|]. reflexivity. }
    assert (E4 : isRateLimited (Some 2) (t1 + 61000) [t1; t2]
                 = (false, [t1 + 61000])).
    { unfold isRateLimited, windowMs. cbn [Js.nullish shift_old].
      change (2 <=? 0) with false. cbv iota. unfold windowMs.
      destruct (Z.leb_spec t1 (t1 + 61000 - 60000)); [|lia].
      destruct (Z.leb_spec t2 (t1 + 61000 - 60000)); [|lia].
      reflexivity. }
    cbn [run]. rewrite E1, E2, E3, E4. reflexivity.
  - apply run_disabled.
Qed.

Lemma rate_limit_sliding_window_witness :
  StronglySorted Z.le [0; 400; 900; 61000]
  /\ run (isRateLimited (Some 2)) [0; 400; 900; 61000] []
     = run (check_spec 2) [0; 400; 900; 61000] []
  /\ fst (run (isRateLimited (Some 2)) [0; 400; 900; 0 + 61000] [])
     = [false; false; true; false].
Proof.
  assert (Hs : StronglySorted Z.le [0; 400; 900; 61000]).
  { repeat constructor; lia. }
  split; [exact Hs|]. split.
  - apply (proj1 rate_limit_sliding_window 2 [0; 400; 900; 61000]); [lia|exact Hs].
  - apply (proj1 (proj2 (proj2 rate_limit_sliding_window)) 0 400 900); lia.
Defined.

End RateLimitProperties.

(** ** The image materializer *)
Section MaterializerProperties.
Import Materializer.
Context {N : Node}.

Lemma existsSync_cons (p q : string) (fs : list string) (net : list Download)
      (log : list (string * string)) :
  existsSync p (mkCache (q :: fs) net log)
  = String.eqb p q || existsSync p (mkCache fs net log).
Proof. reflexivity. Qed.

Lemma tempDir_ensured (c : Cache) :
  existsSync tempDir (ensure_tempDir c) = true.
Proof.
  unfold ensure_tempDir. destruct (existsSync tempDir c) eqn:Hex; cbn [negb].
  - exact Hex.
  - unfold mkdirSync. rewrite existsSync_cons, String.eqb_refl. reflexivity.
Qed.

Lemma ensure_tempDir_downloads (c : Cache) :
  downloads (ensure_tempDir c) = downloads c
  /\ network (ensure_tempDir c) = network c.
Proof.
  unfold ensure_tempDir. destruct (existsSync tempDir c); split; reflexivity.
Qed.

(** Once the directory and the file exist, a call is a cache hit that
    changes nothing. *)
Lemma downloadImage_hit (imageUrl : string) (c : Cache) :
  existsSync tempDir c = true ->
  existsSync (filePath imageUrl) c = true ->
  downloadImage imageUrl c = (Ok (filePath imageUrl), c).
Proof.
  intros Hdir Hfile. unfold downloadImage, ensure_tempDir.
  rewrite Hdir. cbn [negb]. fold (filePath imageUrl). rewrite Hfile.
  reflexivity.
Qed.

(** A call that finds the file in the cache returns its path and issues
    no download. *)
Lemma downloadImage_cached_no_download (imageUrl : string) (c : Cache) :
  existsSync (filePath imageUrl) (ensure_tempDir c) = true ->
  downloadImage imageUrl c = (Ok (filePath imageUrl), ensure_tempDir c)
  /\ downloads (ensure_tempDir c) = downloads c.
Proof.
  intros Hwarm. unfold downloadImage. fold (filePath imageUrl).
  rewrite Hwarm. split; [reflexivity|apply ensure_tempDir_downloads].
Qed.

(** C9.  When the file of a URL is not in the cache yet and the first
    call returns (its download succeeded), the second call with the same
    URL returns the same path, which is the cache path of the URL, and
    changes nothing: it is a cache hit.  The two calls together have
    issued exactly one download, for that URL to that path. *)
Theorem downloadImage_twice_one_download :
  forall (imageUrl : string) (c c1 : Cache) (p : string),
    existsSync (filePath imageUrl) (ensure_tempDir c) = false ->
    downloadImage imageUrl c = (Ok p, c1) ->
    p = filePath imageUrl
    /\ downloadImage imageUrl c1 = (Ok p, c1)
    /\ downloads c1 = downloads c ++ [(imageUrl, p)].
Proof.
  intros imageUrl c c1 p Hcold Hfirst.
  unfold downloadImage in Hfirst. fold (filePath imageUrl) in Hfirst.
  rewrite Hcold in Hfirst. unfold pixivImg in Hfirst.
  destruct (ensure_tempDir_downloads c) as [Hlog Hnet].
  pose proof (tempDir_ensured c) as Hdir.
  destruct (network (ensure_tempDir c)) as [|[|e partial] rest];
    try discriminate.
  injection Hfirst as <- <-.
  split; [reflexivity|]. split.
  - apply downloadImage_hit.
    + unfold existsSync in *. cbn [files existsb]. rewrite Hdir.
      apply orb_true_r.
    + rewrite existsSync_cons, String.eqb_refl. reflexivity.
  - cbn [downloads]. rewrite Hlog. reflexivity.
Qed.

End MaterializerProperties.

Lemma downloadImage_twice_one_download_witness :
  let url := "https://i.pximg.net/img-original/img/2024/01/01/00/00/00/1_p0.png" in
  let c := Materializer.mkCache [] [Materializer.Saved] [] in
  let c1 := snd (@Materializer.downloadImage Examples.posix url c) in
  @Materializer.downloadImage Examples.posix url c1
  = (Ok "/tmp/napcat-pixiv-plugin/1_p0.png", c1)
  /\ Materializer.downloads c1 = [(url, "/tmp/napcat-pixiv-plugin/1_p0.png")].
Proof.
  intros url c c1.
  destruct (@downloadImage_twice_one_download Examples.posix url c c1
              "/tmp/napcat-pixiv-plugin/1_p0.png")
    as (_ & Hsecond & Hlog).
  - vm_compute. reflexivity.
  - vm_compute. reflexivity.
  - split; [exact Hsecond | exact Hlog].
Defined.

(** ** The acquisition service *)
Section PixivProperties.
Import Js Pixiv PixivSpec.
Context {E : Engine} {F : FeedClient}.

Local Abbreviation World := (@World F).

(** *** Reasoning about commands of the monad *)

Lemma wp_run {A : Type} (c : M A) (w : World) (Q : Result A -> World -> Prop)
      (r : Result A) (w' : World) :
  wp c w Q -> c w = (r, w') -> Q r w'.
Proof. unfold wp. intros H Hc. rewrite Hc in H. exact H. Qed.

Lemma wp_mono {A : Type} (c : M A) (w : World)
      (Q Q' : Result A -> World -> Prop) :
  wp c w Q -> (forall r w', Q r w' -> Q' r w') -> wp c w Q'.
Proof. unfold wp. auto. Qed.

Lemma wp_conj {A : Type} (c : M A) (w : World)
      (Q1 Q2 : Result A -> World -> Prop) :
  wp c w Q1 -> wp c w Q2 -> wp c w (fun r w' => Q1 r w' /\ Q2 r w').
Proof. unfold wp. auto. Qed.

Lemma wp_ret {A : Type} (a : A) (w : World) (Q : Result A -> World -> Prop) :
  Q (Ok a) w -> wp (ret a) w Q.
Proof. exact (fun H => H). Qed.

Lemma wp_throw {A : Type} (e : string) (w : World)
      (Q : Result A -> World -> Prop) :
  Q (Throw e) w -> wp (throw e) w Q.
Proof. exact (fun H => H). Qed.

Lemma wp_bind {A B : Type} (c : M A) (k : A -> M B) (w : World)
      (Q : Result B -> World -> Prop) :
  wp c w (fun r w1 =>
            match r with
            | Ok a => wp (k a) w1 Q
            | Throw e => Q (Throw e) w1
            | OutOfFuel => Q OutOfFuel w1
            end) ->
  wp (bind c k) w Q.
Proof.
  unfold wp, bind. destruct (c w) as [[a|e|] w1]; cbn [fst snd]; auto.
Qed.

(** After a command that returns, the continuation decides. *)
Lemma wp_bind_returns {A B : Type} (c : M A) (k : A -> M B) (w : World)
      (P : A -> World -> Prop) (Q : Result B -> World -> Prop) :
  returns c w P ->
  (forall a w1, P a w1 -> wp (k a) w1 Q) ->
  wp (bind c k) w Q.
Proof.
  intros Hc Hk. apply wp_bind. unfold returns in Hc.
  eapply wp_mono; [exact Hc|].
  intros [a|e|] w1; cbn beta iota; auto; contradiction.
Qed.

Lemma returns_ret {A : Type} (a : A) (w : World) (Q : A -> World -> Prop) :
  Q a w -> returns (ret a) w Q.
Proof. exact (fun H => H). Qed.

Lemma returns_bind {A B : Type} (c : M A) (k : A -> M B) (w : World)
      (P : A -> World -> Prop) (Q : B -> World -> Prop) :
  returns c w P ->
  (forall a w1, P a w1 -> returns (k a) w1 Q) ->
  returns (bind c k) w Q.
Proof. intros Hc Hk. unfold returns. eapply wp_bind_returns; eauto. Qed.

Lemma returns_mono {A : Type} (c : M A) (w : World) (Q Q' : A -> World -> Prop) :
  returns c w Q -> (forall a w', Q a w' -> Q' a w') -> returns c w Q'.
Proof.
  intros H HQ. unfold returns in *. eapply wp_mono; [exact H|].
  intros [a|e|] w'; cbn beta iota; auto.
Qed.

Lemma quiet_refl (w : World) : quiet w w.
Proof. repeat split. Qed.

Lemma quiet_trans (w1 w2 w3 : World) : quiet w1 w2 -> quiet w2 w3 -> quiet w1 w3.
Proof.
  unfold quiet. intros (A1 & B1 & C1) (A2 & B2 & C2).
  repeat split; congruence.
Qed.

(** *** Math.random *)

Lemma two53_pos : 0 < two53.
Proof. reflexivity. Qed.

(** Rounding moves a numerator by at most half a unit in the last
    place, which is at most the [2^53]-th part of it. *)
Lemma round_double_near (x : Z) :
  0 <= x -> 0 <= round_double x /\ (round_double x - x) * two53 <= x.
Proof.
  intros Hx. unfold round_double.
  destruct (Z.leb_spec (Z.log2 x - 52) 0) as [Hs|Hs]; [lia|].
  assert (Hpos : 0 < x).
  { destruct (Z.eq_dec x 0) as [->|]; [cbn in Hs|]; lia. }
  destruct (Z.log2_spec x Hpos) as [Hlow _].
  set (s := Z.log2 x - 52) in *.
  assert (Hhalf : 2 ^ Z.log2 x = 2 ^ (s - 1) * two53).
  { unfold two53. rewrite <- Z.pow_add_r by lia. f_equal. lia. }
  assert (Hunit : 2 ^ s = 2 * 2 ^ (s - 1)).
  { rewrite <- Z.pow_succ_r by lia. f_equal. lia. }
  assert (Hh : 0 < 2 ^ (s - 1)) by (apply Z.pow_pos_nonneg; lia).
  pose proof (Z.div_mod x (2 ^ s) ltac:(lia)) as Hdm.
  pose proof (Z.mod_pos_bound x (2 ^ s) ltac:(lia)) as Hr.
  assert (Hq : 0 <= x / 2 ^ s) by (apply Z.div_pos; lia).
  pose proof two53_pos as Hp.
  set (q := x / 2 ^ s) in *. set (r := x mod 2 ^ s) in *.
  set (h := 2 ^ (s - 1)) in *.
  rewrite Hunit in *.
  destruct ((h <? r) || ((r =? h) && Z.odd q)) eqn:Hup.
  - assert (Hge : h <= r).
    { apply Bool.orb_true_iff in Hup. destruct Hup as [Hup|Hup].
      - apply Z.ltb_lt in Hup. lia.
      - apply Bool.andb_true_iff in Hup. destruct Hup as [Hup _].
        apply Z.eqb_eq in Hup. lia. }
    split; nia.
  - split; nia.
Qed.

(** Rounding does not go below a whole number that the exact product
    has reached: the whole numbers up to [2^53] are doubles. *)
Lemma round_double_whole (x m : Z) :
  0 <= m -> m * two53 <= x -> x < two53 * two53 ->
  m * two53 <= round_double x.
Proof.
  intros Hm Hx Hbig. unfold round_double.
  destruct (Z.leb_spec (Z.log2 x - 52) 0) as [Hs|Hs]; [lia|].
  pose proof two53_pos as Hp.
  assert (Hpos : 0 < x).
  { destruct (Z.eq_dec x 0) as [->|]; [cbn in Hs|]; lia. }
  assert (Hlog : Z.log2 x < 106).
  { apply Z.log2_lt_pow2; [exact Hpos|].
    change (2 ^ 106) with (two53 * two53). exact Hbig. }
  set (s := Z.log2 x - 52) in *.
  assert (Hsplit : two53 = 2 ^ (53 - s) * 2 ^ s).
  { unfold two53. rewrite <- Z.pow_add_r by lia. f_equal. lia. }
  assert (Hu : 0 < 2 ^ s) by (apply Z.pow_pos_nonneg; lia).
  assert (Hq : m * 2 ^ (53 - s) <= x / 2 ^ s).
  { apply Z.div_le_lower_bound; [exact Hu|]. rewrite Hsplit in Hx. lia. }
  set (q := x / 2 ^ s) in *.
  rewrite Hsplit at 1.
  destruct ((_ <? _) || _); nia.
Qed.

Lemma random_floor_range (n : Z) (rng : Random) :
  0 < n -> 0 <= fst (random_floor n rng) < n.
Proof.
  intros Hn. destruct rng as [|k rest]; cbn [random_floor fst]; [lia|].
  pose proof two53_pos as Hp.
  pose proof (Z.mod_pos_bound k two53 Hp) as Hk.
  destruct (round_double_near ((k mod two53) * n) ltac:(nia)) as [H0 Hnear].
  split.
  - apply Z.div_pos; assumption.
  - apply Z.div_lt_upper_bound; [assumption|]. nia.
Qed.

Lemma random_floor_rest (n : Z) (rng : Random) :
  snd (random_floor n rng) = skipn 1 rng.
Proof. destruct rng; reflexivity. Qed.

(** The floor lies between the exact floor for the draw and the exact
    floor for the next draw: the offsets are the draws scaled to the
    range, up to the rounding of one product. *)
Lemma random_floor_scaled (n d : Z) (rest : Random) :
  0 < n <= 2 ^ 52 -> 0 <= d < two53 ->
  d * n / two53 <= fst (random_floor n (d :: rest))
  <= ((d + 1) * n - 1) / two53.
Proof.
  intros Hn Hd. pose proof two53_pos as Hp.
  assert (H52 : 2 * 2 ^ 52 = two53) by reflexivity.
  cbn [random_floor fst]. rewrite (Z.mod_small d two53 Hd).
  destruct (round_double_near (d * n) ltac:(nia)) as [H0 Hnear].
  pose proof (Z.mul_div_le (d * n) two53 Hp) as Hfloor.
  pose proof (round_double_whole (d * n) (d * n / two53)
                ltac:(apply Z.div_pos; nia) ltac:(lia) ltac:(nia)) as Hge.
  split.
  - apply Z.div_le_lower_bound; [exact Hp|lia].
  - apply Z.div_le_mono; [exact Hp|]. nia.
Qed.

Lemma floor_random_times_spec (n : Z) (w : World) :
  returns (floor_random_times n) w
    (fun j w' => quiet w w' /\ (0 < n -> 0 <= j < n)).
Proof.
  unfold returns, wp, floor_random_times.
  pose proof (random_floor_range n (random w)) as Hr.
  destruct (random_floor n (random w)) as [j rng]. cbn [fst snd] in *.
  split; [repeat split|exact Hr].
Qed.

(** *** The filter and extraction stage *)

Lemma length_set_nth {A : Type} (i : nat) (x : A) (l : list A) :
  length (set_nth i x l) = length l.
Proof.
  revert i. induction l as [|h t IH]; intros [|i]; cbn [set_nth length];
    auto.
Qed.

Lemma length_swap {A : Type} (i j : nat) (l : list A) :
  length (swap i j l) = length l.
Proof.
  unfold swap. destruct (nth_error l i), (nth_error l j); auto.
  now rewrite !length_set_nth.
Qed.

Lemma fisher_yates_spec (i : nat) (l : list RawIllust) (w : World) :
  returns (fisher_yates i l) w
    (fun l' w' => quiet w w' /\ length l' = length l).
Proof.
  revert l w. induction i as [|i IH]; intros l w; cbn [fisher_yates].
  - apply returns_ret. split; [apply quiet_refl|reflexivity].
  - eapply returns_bind; [apply floor_random_times_spec|].
    intros j w1 [Hq _]. eapply returns_mono; [apply IH|].
    intros l' w' [Hq' Hlen]. split; [eapply quiet_trans; eauto|].
    now rewrite Hlen, length_swap.
Qed.

Lemma bannedWords_checkIllust_spec (illust : RawIllust) (w : World) :
  returns (bannedWords_checkIllust illust) w (fun _ w' => quiet w w').
Proof.
  unfold returns, wp, bannedWords_checkIllust.
  destruct (BannedWords.checkIllust _ _ _ _) as [hit s]. cbn [fst snd].
  repeat split.
Qed.

(** The loop returns, records nothing, and accounts for every item of
    the batch it is given: each one is counted by exactly one of the six
    counters.  Items are left unexamined only once [count] items have been
    accepted. *)
Lemma extract_loop_spec (config : PluginConfig) (count : Z)
      (batch : list RawIllust) :
  forall (acc : Scan) (w : World),
    returns (extract_loop config count batch acc) w
      (fun sc w' =>
         quiet w w'
         /\ (ghost_notExamined acc = 0 ->
             scan_total sc = scan_total acc + length batch
             /\ (ghost_notExamined sc = 0
                 \/ (count <= Z.of_nat (length (sc_result sc)))%Z)))%nat.
Proof.
  induction batch as [|illust rest IH]; intros acc w.
  - cbn [extract_loop]. apply returns_ret.
    split; [apply quiet_refl|]. intros H0. split; [cbn [length]; lia|now left].
  - cbn [extract_loop].
    destruct (Z.geb_spec (Z.of_nat (length (sc_result acc))) count) as [Hfull|Hroom].
    { apply returns_ret. split; [apply quiet_refl|]. intros H0.
      unfold scan_total in *. cbn [sc_result sc_r18Filtered sc_sensitiveFiltered
        sc_bannedFiltered ghost_noUrl ghost_notExamined length] in *.
      split; [lia|right; lia]. }
    destruct (negb (flag (r18Enabled config)) && _).
    { eapply returns_mono; [apply IH|]. intros sc w' [Hq Hsum].
      split; [exact Hq|]. intros H0. specialize (Hsum H0).
      unfold scan_total in *. cbn [sc_result sc_r18Filtered sc_sensitiveFiltered
        sc_bannedFiltered ghost_noUrl ghost_notExamined length] in *.
      split; [lia|tauto]. }
    destruct (negb (flag (sensitiveEnabled config)) && _).
    { eapply returns_mono; [apply IH|]. intros sc w' [Hq Hsum].
      split; [exact Hq|]. intros H0. specialize (Hsum H0).
      unfold scan_total in *. cbn [sc_result sc_r18Filtered sc_sensitiveFiltered
        sc_bannedFiltered ghost_noUrl ghost_notExamined length] in *.
      split; [lia|tauto]. }
    eapply returns_bind; [apply bannedWords_checkIllust_spec|].
    intros hit w1 Hq1. cbv beta.
    destruct hit as [word|].
    { eapply returns_mono; [apply IH|]. intros sc w' [Hq Hsum].
      split; [eapply quiet_trans; eauto|]. intros H0. specialize (Hsum H0).
      unfold scan_total in *. cbn [sc_result sc_r18Filtered sc_sensitiveFiltered
        sc_bannedFiltered ghost_noUrl ghost_notExamined length] in *.
      split; [lia|tauto]. }
    destruct (negb (truthy _)).
    { eapply returns_mono; [apply IH|]. intros sc w' [Hq Hsum].
      split; [eapply quiet_trans; eauto|]. intros H0. specialize (Hsum H0).
      unfold scan_total in *. cbn [sc_result sc_r18Filtered sc_sensitiveFiltered
        sc_bannedFiltered ghost_noUrl ghost_notExamined length] in *.
      split; [lia|tauto]. }
    eapply returns_mono; [apply IH|]. intros sc w' [Hq Hsum].
    split; [eapply quiet_trans; eauto|]. intros H0. specialize (Hsum H0).
    unfold scan_total in *. cbn [sc_result sc_r18Filtered sc_sensitiveFiltered
      sc_bannedFiltered ghost_noUrl ghost_notExamined length] in *.
    rewrite length_app in Hsum. cbn [length] in Hsum.
    split; [lia|tauto].
Qed.

Lemma extractTopSafe_scan_spec (config : PluginConfig)
      (batch : list RawIllust) (shuffle : bool) (w : World) :
  returns (extractTopSafe_scan config batch shuffle) w
    (fun bs w' =>
       quiet w w'
       /\ length (fst bs) = length batch
       /\ scan_total (snd bs) = length batch
       /\ (ghost_notExamined (snd bs) = 0%nat
           \/ requiredCount config <= Z.of_nat (length (sc_result (snd bs))))).
Proof.
  unfold extractTopSafe_scan.
  eapply returns_bind with
    (P := fun l' w' => quiet w w' /\ length l' = length batch).
  - destruct (shuffle && _).
    + apply fisher_yates_spec.
    + apply returns_ret. split; [apply quiet_refl|reflexivity].
  - intros l' w1 [Hq1 Hlen].
    eapply returns_bind; [apply extract_loop_spec|].
    intros sc w2 [Hq2 Hsum]. apply returns_ret. cbn [fst snd].
    specialize (Hsum eq_refl). destruct Hsum as [Hsum Hstop].
    split; [eapply quiet_trans; eauto|].
    split; [exact Hlen|]. split; [|exact Hstop].
    rewrite Hsum, Hlen. reflexivity.
Qed.

Lemma extractTopSafe_spec (config : PluginConfig)
      (batch : list RawIllust) (shuffle : bool) (w : World) :
  returns (extractTopSafe config batch shuffle) w
    (fun r w' => quiet w w' /\ totalScanned r = length batch).
Proof.
  unfold extractTopSafe.
  eapply returns_bind; [apply extractTopSafe_scan_spec|].
  intros bs w1 (Hq & Hlen & _). apply returns_ret.
  split; [exact Hq|exact Hlen].
Qed.

(** C1 (as amended).  For every batch, shuffled or not, the three
    rejection tallies, the accepted items, the items dropped for lack of an
    image URL and the items never examined because the target count had
    been reached add up to [totalScanned], which is the length of the
    batch; when fewer than the target count were accepted, no item is
    left unexamined and the first five terms alone add up to it. *)
Theorem extractTopSafe_tallies :
  forall (config : PluginConfig) (batch : list RawIllust) (shuffle : bool)
         (w : World),
    tallies_cover_batch_with_unexamined config batch shuffle w.
Proof.
  intros config batch shuffle w.
  pose proof (extractTopSafe_scan_spec config batch shuffle w) as Hscan.
  unfold returns, wp in Hscan. unfold tallies_cover_batch_with_unexamined.
  unfold extractTopSafe, bind.
  destruct (extractTopSafe_scan config batch shuffle w) as [[[iterated sc]|e|] w1];
    cbn [fst snd] in *; try contradiction.
  destruct Hscan as (_ & Hlen & Hsum & Hstop).
  exists iterated, sc. eexists. split; [reflexivity|].
  split; [reflexivity|].
  cbn [fst snd illusts totalScanned r18Filtered sensitiveFiltered bannedFiltered].
  unfold scan_total in Hsum.
  split; [lia|]. split; [exact Hlen|].
  intros Hshort. destruct Hstop as [H0|Hfull]; [exact H0|lia].
Qed.

(** *** The retry loop *)

Lemma merge_app (xs ys : list SafeIllust) (m : JsMap) :
  merge (xs ++ ys) m = merge ys (merge xs m).
Proof.
  revert m. induction xs as [|x xs IH]; intros m; cbn [merge app]; auto.
Qed.

Lemma Map_set_absent (k : Z) (v : SafeIllust) (m : JsMap) :
  Map_has k m = false -> Map_set k v m = m ++ [(k, v)].
Proof.
  unfold Map_has. induction m as [|e m IH]; cbn [existsb Map_set app]; auto.
  intros H. apply orb_false_iff in H. destruct H as [He Hm].
  rewrite He. f_equal. auto.
Qed.

(** The pool only grows under a merge. *)
Lemma merge_grows (xs : list SafeIllust) (m : JsMap) :
  (length m <= length (merge xs m))%nat.
Proof.
  revert m. induction xs as [|x xs IH]; intros m; cbn [merge]; [lia|].
  destruct (Map_has (id x) m) eqn:Hhas; [apply IH|].
  rewrite (Map_set_absent _ _ _ Hhas).
  etransitivity; [|apply IH]. rewrite length_app. cbn [length]. lia.
Qed.

(** A loop around a body that keeps the contract runs the body at most
    [maxRetries - attempt] times, needs no more fuel than that plus one,
    and ends with the pool that merges, in order, what its attempts
    accepted. *)
Lemma retry_loop_spec (config : PluginConfig) (counted : Call -> bool)
      (body : Z -> Session -> M Step) (maxRetries : Z) :
  attempt_contract config counted body ->
  forall (fuel : nat) (attempt : Z) (st : Session) (w : World),
    wp (retry_loop fuel maxRetries body attempt st) w
      (fun r w' =>
         session_outcome config counted (Z.to_nat (maxRetries - attempt))
           (collectedMap st) w r w'
         /\ ((Z.to_nat (maxRetries - attempt) < fuel)%nat -> r <> OutOfFuel)).
Proof.
  intros Hbody. induction fuel as [|fuel IH]; intros attempt st w.
  - unfold wp. cbn [retry_loop fst snd]. split.
    + exists []. rewrite app_nil_r. split; [reflexivity|].
      split; [lia|]. split; [cbn [length]; lia|]. intros res [=].
    + lia.
  - cbn [retry_loop]. destruct (Z.ltb_spec attempt maxRetries) as [Hlt|Hge].
    + apply wp_bind. eapply wp_mono; [apply Hbody|].
      intros r w1 [Hcalls Hr].
      destruct r as [step|e|]; [|
        split; [exists []; rewrite app_nil_r; repeat split;
                [congruence | lia | cbn [length]; lia | intros res [=]]
               | discriminate] | contradiction].
      destruct Hr as (a & st1 & Hlog & Hpool & Hsize & Hstep).
      destruct step as [st'|st'|res].
      * (* Continue *)
        eapply wp_mono; [apply IH|]. intros r w' [Hout Hfuel].
        destruct Hout as (log & Hlog' & Hcalls' & Hlen & Hres).
        split.
        -- exists (a :: log). split.
           { rewrite Hlog', Hlog, <- app_assoc. reflexivity. }
           split; [lia|]. split; [cbn [length]; lia|].
           intros res Hok. destruct (Hres res Hok) as (st2 & Hst2 & Hcase & Hmax).
           assert (Hm : merge (seen (a :: log)) (collectedMap st)
                        = merge (seen log) (collectedMap st')).
           { unfold seen. cbn [map concat]. rewrite merge_app.
             rewrite Hstep, Hpool. reflexivity. }
           exists st2. rewrite Hm. split; [exact Hst2|].
           split; [exact Hcase|].
           intros a' [<-|Hin]; [|auto].
           rewrite Hsize, <- Hstep. unfold Map_size. apply merge_grows.
        -- intros Hf. apply Hfuel. lia.
      * (* Break *)
        unfold wp. cbn [ret fst snd]. split; [|discriminate].
        exists [a]. split; [exact Hlog|]. split; [lia|].
        split; [cbn [length]; lia|].
        intros res [= <-]. exists st'.
        unfold seen. cbn [map concat]. rewrite app_nil_r.
        split; [congruence|]. split; [now left|].
        intros a' [<-|[]]. rewrite Hsize, <- Hpool. unfold Map_size. lia.
      * (* Return *)
        unfold wp. cbn [ret fst snd]. split; [|discriminate].
        exists [a]. split; [exact Hlog|]. split; [lia|].
        split; [cbn [length]; lia|].
        intros res' [= <-]. exists st1.
        unfold seen. cbn [map concat]. rewrite app_nil_r.
        split; [exact Hpool|]. split; [right; now rewrite Hstep|].
        intros a' [<-|[]]. rewrite Hsize, <- Hpool. unfold Map_size. lia.
    + unfold wp. cbn [ret fst snd]. split; [|discriminate].
      exists []. rewrite app_nil_r. split; [reflexivity|]. split; [lia|].
      split; [cbn [length]; lia|].
      intros res [= <-]. exists st. split; [reflexivity|].
      split; [now left|]. intros a' [].
Qed.

(** *** One attempt *)

Lemma client_searchIllust_spec (keyword : string) (offset : Z) (w : World) :
  wp (client_searchIllust keyword offset) w
    (fun r w' =>
       calls w' = calls w ++ [CallSearch keyword offset]
       /\ attempts w' = attempts w
       /\ r <> OutOfFuel).
Proof.
  unfold wp, client_searchIllust, bind, record_call, settle. cbn [fst snd].
  cbn [feed random isLoggedIn banned disk calls attempts].
  destruct (searchIllust keyword offset (feed w)) as [[e|b] f];
    cbn [fst snd calls attempts throw ret]; repeat split; discriminate.
Qed.

Lemma client_illustRecommended_spec (w : World) :
  wp client_illustRecommended w
    (fun r w' =>
       calls w' = calls w ++ [CallRecommended]
       /\ attempts w' = attempts w
       /\ r <> OutOfFuel).
Proof.
  unfold wp, client_illustRecommended, bind, record_call, settle. cbn [fst snd].
  cbn [feed random isLoggedIn banned disk calls attempts].
  destruct (illustRecommended (feed w)) as [[e|b] f];
    cbn [fst snd calls attempts throw ret]; repeat split; discriminate.
Qed.

Lemma ceiling_clamp (level : nat) :
  nth (Nat.min level (length offsetLimits - 1)) offsetLimits 0
  = nth level offsetLimits 0.
Proof.
  do 5 (destruct level as [|level]; [reflexivity|]).
  destruct level; reflexivity.
Qed.

Lemma ceiling_nonneg (level : nat) : 0 <= nth level offsetLimits 0.
Proof.
  do 5 (destruct level as [|level]; [cbn; lia|]).
  destruct level; cbn; lia.
Qed.

Lemma ceiling_at_most_300 (level : nat) : nth level offsetLimits 0 <= 300.
Proof.
  do 5 (destruct level as [|level]; [cbn; lia|]).
  destruct level; cbn; lia.
Qed.

(** Below a positive ceiling lies a smaller one. *)
Lemma ceiling_steps_down (level : nat) :
  0 < nth level offsetLimits 0 ->
  nth (S level) offsetLimits 0 < nth level offsetLimits 0.
Proof.
  do 5 (destruct level as [|level]; [cbn; lia|]).
  destruct level; cbn; lia.
Qed.

Lemma search_attempt_spec (config : PluginConfig) (keyword : string)
      (attempt : Z) (st : Session) (w : World) :
  let ceiling := nth (offsetLevel st) offsetLimits 0 in
  wp (search_attempt config keyword attempt st) w
    (fun r w' =>
       exists off,
         0 <= off <= ceiling
         /\ calls w' = calls w ++ [CallSearch keyword off]
         /\ match r with
            | OutOfFuel => False
            | Throw _ => attempts w' = attempts w
            | Ok step =>
                exists a st1,
                  attempts w' = attempts w ++ [a]
                  /\ at_ceiling a = ceiling /\ at_offset a = off
                  /\ collectedMap st1 = merge (at_accepted a) (collectedMap st)
                  /\ at_pool a = Map_size (collectedMap st1)
                  /\ match step with
                     | Return r => r = collected config st1
                     | Break st' =>
                         collectedMap st' = collectedMap st1
                         /\ at_raw a = 0%nat /\ ceiling = 0
                     | Continue st' =>
                         collectedMap st' = collectedMap st1
                         /\ offsetLevel st'
                            = (if (at_raw a =? 0)%nat then S (offsetLevel st)
                               else offsetLevel st)
                         /\ (at_raw a = 0%nat -> ceiling <> 0)
                     end
            end).
Proof.
  intros ceiling. unfold search_attempt. rewrite ceiling_clamp.
  fold ceiling.
  assert (Hc0 : 0 <= ceiling) by apply ceiling_nonneg.
  apply wp_bind_returns with
    (P := fun off w1 => quiet w w1 /\ 0 <= off <= ceiling).
  { destruct (Z.gtb_spec ceiling 0).
    - eapply returns_mono; [apply floor_random_times_spec|].
      intros j w1 [Hq Hj]. split; [exact Hq|lia].
    - apply returns_ret. split; [apply quiet_refl|lia]. }
  intros off w1 [(Hc1 & Ha1 & _) Hoff].
  apply wp_bind. eapply wp_mono; [apply client_searchIllust_spec|].
  intros r w2 (Hc2 & Ha2 & Hnf).
  destruct r as [result|e|]; [| |congruence].
  2:{ exists off. split; [exact Hoff|]. split; congruence. }
  apply wp_bind_returns with
    (P := fun cur w3 => quiet w2 w3); [
    eapply returns_mono; [apply extractTopSafe_spec|]; intros ? ? [Hq _]; exact Hq |].
  intros cur w3 (Hc3 & Ha3 & _).
  apply wp_bind. unfold wp at 1, record_attempt. cbn [fst snd].
  set (st1 := accumulate cur st).
  set (a := mkAttempt ceiling off (length (nullish result []))
              (illusts cur) (Map_size (collectedMap st1))).
  set (w4 := mkWorld _ _ _ _ _ _ _).
  assert (Hc4 : calls w4 = calls w ++ [CallSearch keyword off]).
  { subst w4. cbn [calls]. congruence. }
  assert (Ha4 : attempts w4 = attempts w ++ [a]).
  { subst w4. cbn [attempts]. congruence. }
  destruct (Z.of_nat (Map_size (collectedMap st1)) >=? requiredCount config).
  { apply wp_ret. exists off. split; [exact Hoff|]. split; [exact Hc4|].
    exists a, st1. repeat split; assumption. }
  destruct (Nat.eqb_spec (length (nullish result [])) 0) as [Hraw|Hraw].
  - destruct (Z.eqb_spec ceiling 0) as [Hz|Hz]; apply wp_ret;
      exists off; (split; [exact Hoff|]); (split; [exact Hc4|]);
      exists a, st1; repeat split; try assumption.
    + subst a. cbn [offsetLevel at_raw]. rewrite Hraw. reflexivity.
    + intros _. exact Hz.
  - apply wp_ret. exists off. split; [exact Hoff|]. split; [exact Hc4|].
    exists a, st1. repeat split; try assumption.
    + subst a. cbn [at_raw].
      destruct (Nat.eqb_spec (length (nullish result [])) 0); [contradiction|].
      reflexivity.
    + subst a. cbn [at_raw]. intros; contradiction.
Qed.

Lemma search_attempt_contract (config : PluginConfig) (keyword : string) :
  attempt_contract config is_search (search_attempt config keyword).
Proof.
  intros attempt st w. eapply wp_mono; [apply search_attempt_spec|].
  intros r w' (off & _ & Hcalls & Hr). split.
  - rewrite Hcalls, filter_app, length_app. cbn [filter is_search length]. lia.
  - destruct r as [step|e|]; [|exact Hr|exact Hr].
    destruct Hr as (a & st1 & Hlog & _ & _ & Hpool & Hsize & Hstep).
    exists a, st1. repeat split; try assumption.
    destruct step as [st'|st'|res]; [apply Hstep|apply Hstep|exact Hstep].
Qed.

Lemma recommend_attempt_contract (config : PluginConfig) :
  attempt_contract config is_recommended (recommend_attempt config).
Proof.
  intros attempt st w. unfold recommend_attempt.
  apply wp_bind. eapply wp_mono; [apply client_illustRecommended_spec|].
  intros r w2 (Hc2 & Ha2 & Hnf).
  assert (Hcount : forall w3 : World, calls w3 = calls w2 ->
            (length (filter is_recommended (calls w3))
             <= S (length (filter is_recommended (calls w))))%nat).
  { intros w3 ->. rewrite Hc2, filter_app, length_app.
    cbn [filter is_recommended length]. lia. }
  destruct r as [result|e|]; [| |congruence].
  2:{ split; [now apply Hcount|congruence]. }
  apply wp_bind_returns with
    (P := fun cur w3 => quiet w2 w3); [
    eapply returns_mono; [apply extractTopSafe_spec|]; intros ? ? [Hq _]; exact Hq |].
  intros cur w3 (Hc3 & Ha3 & _).
  apply wp_bind. unfold wp at 1, record_attempt. cbn [fst snd].
  set (st1 := accumulate cur st).
  set (a := mkAttempt 0 0 (length (nullish result []))
              (illusts cur) (Map_size (collectedMap st1))).
  set (w4 := mkWorld _ _ _ _ _ _ _).
  assert (Hc4 : calls w4 = calls w2) by (subst w4; cbn [calls]; congruence).
  assert (Ha4 : attempts w4 = attempts w ++ [a]).
  { subst w4. cbn [attempts]. congruence. }
  destruct (Z.of_nat (Map_size (collectedMap st1)) >=? requiredCount config);
    [|destruct ((length (illusts cur) =? 0)%nat && _)];
    apply wp_ret; (split; [now apply Hcount|]);
    exists a, st1; repeat split; assumption.
Qed.

(** Logging in issues no search and no recommendation call, records no
    attempt, and does not diverge. *)
Lemma ensureLoggedIn_spec (config : PluginConfig) (w : World) :
  wp (ensureLoggedIn config) w
    (fun r w' =>
       attempts w' = attempts w
       /\ filter is_search (calls w') = filter is_search (calls w)
       /\ filter is_recommended (calls w') = filter is_recommended (calls w)
       /\ r <> OutOfFuel).
Proof.
  unfold wp, ensureLoggedIn, init, client_login, bind, get_isLoggedIn,
    set_isLoggedIn, record_call, ret, throw.
  cbn [fst snd]. destruct (isLoggedIn w) eqn:Hlogged; cbn [negb fst snd].
  - repeat split; discriminate.
  - destruct (truthy (pixivRefreshToken config)); cbn [negb fst snd].
    + cbn [feed]. destruct (login _ (feed w)) as [ok f]. cbn [fst snd isLoggedIn].
      destruct ok; cbn [negb fst snd attempts calls];
        rewrite ?filter_app; cbn [filter is_search is_recommended];
        rewrite ?app_nil_r; repeat split; discriminate.
    + rewrite Hlogged. cbn [negb fst snd]. repeat split; discriminate.
Qed.

(** The log written by the loop of [searchTop3] walks down the ladder of
    offset ceilings from the level it starts at. *)
Lemma search_loop_ladder (config : PluginConfig) (keyword : string)
      (maxRetries : Z) :
  forall (fuel : nat) (attempt : Z) (st : Session) (w : World),
    wp (retry_loop fuel maxRetries (search_attempt config keyword) attempt st) w
      (fun _ w' =>
         exists log, attempts w' = attempts w ++ log
                     /\ ladder (offsetLevel st) log).
Proof.
  induction fuel as [|fuel IH]; intros attempt st w.
  - unfold wp. cbn [retry_loop fst snd]. exists []. now rewrite app_nil_r.
  - cbn [retry_loop]. destruct (attempt <? maxRetries).
    2:{ apply wp_ret. exists []. now rewrite app_nil_r. }
    apply wp_bind. eapply wp_mono; [apply search_attempt_spec|].
    intros r w1 (off & Hoff & _ & Hr).
    destruct r as [step|e|]; [| |contradiction].
    2:{ exists []. rewrite app_nil_r. split; [exact Hr|exact I]. }
    destruct Hr as (a & st1 & Hlog & Hceil & Hoffa & _ & _ & Hstep).
    assert (Hhead : at_ceiling a = nth (offsetLevel st) offsetLimits 0
                    /\ 0 <= at_offset a <= at_ceiling a).
    { rewrite Hceil, Hoffa. split; [reflexivity|exact Hoff]. }
    destruct step as [st'|st'|res].
    + destruct Hstep as (_ & Hlevel & Hgo).
      eapply wp_mono; [apply IH|]. intros r w' (log & Hlog' & Hlad).
      exists (a :: log). split.
      * rewrite Hlog', Hlog, <- app_assoc. reflexivity.
      * cbn [ladder]. destruct Hhead as [H1 H2].
        split; [exact H1|]. split; [exact H2|]. split.
        -- intros Hraw Hzero. exfalso. apply (Hgo Hraw). congruence.
        -- rewrite <- Hlevel. exact Hlad.
    + apply wp_ret. exists [a]. split; [exact Hlog|].
      cbn [ladder]. destruct Hhead as [H1 H2]. repeat split; auto; lia.
    + apply wp_ret. exists [a]. split; [exact Hlog|].
      cbn [ladder]. destruct Hhead as [H1 H2]. repeat split; auto; lia.
Qed.

(** *** The draws of Math.random behind the offsets *)

Lemma returns_conj {A : Type} (c : M A) (w : World)
      (Q1 Q2 : A -> World -> Prop) :
  returns c w Q1 -> returns c w Q2 ->
  returns c w (fun a w' => Q1 a w' /\ Q2 a w').
Proof. unfold returns, wp. destruct (fst (c w)); tauto. Qed.

Lemma floor_random_times_draw (n : Z) (w : World) :
  returns (floor_random_times n) w
    (fun j w' => j = fst (random_floor n (random w))
                 /\ random w' = skipn 1 (random w)).
Proof.
  unfold returns, wp, floor_random_times.
  pose proof (random_floor_rest n (random w)) as Hr.
  destruct (random_floor n (random w)) as [j rng]. cbn [fst snd random] in *.
  split; [reflexivity|exact Hr].
Qed.

(** The shuffle draws once for each of its steps. *)
Lemma fisher_yates_draws (i : nat) (l : list RawIllust) (w : World) :
  returns (fisher_yates i l) w
    (fun _ w' => random w' = skipn i (random w)).
Proof.
  revert l w. induction i as [|i IH]; intros l w; cbn [fisher_yates].
  - apply returns_ret. reflexivity.
  - eapply returns_bind; [apply floor_random_times_draw|].
    intros j w1 [_ Hr1]. eapply returns_mono; [apply IH|].
    intros l' w' Hr. cbv beta. rewrite Hr, Hr1, skipn_skipn.
    f_equal. lia.
Qed.

Lemma bannedWords_checkIllust_random (illust : RawIllust) (w : World) :
  returns (bannedWords_checkIllust illust) w
    (fun _ w' => random w' = random w).
Proof.
  unfold returns, wp, bannedWords_checkIllust.
  destruct (BannedWords.checkIllust _ _ _ _) as [hit s]. reflexivity.
Qed.

(** The filters draw nothing. *)
Lemma extract_loop_random (config : PluginConfig) (count : Z)
      (batch : list RawIllust) :
  forall (acc : Scan) (w : World),
    returns (extract_loop config count batch acc) w
      (fun _ w' => random w' = random w).
Proof.
  induction batch as [|illust rest IH]; intros acc w; cbn [extract_loop].
  - apply returns_ret. reflexivity.
  - destruct (Z.of_nat (length (sc_result acc)) >=? count);
      [apply returns_ret; reflexivity|].
    destruct (negb (flag (r18Enabled config)) && _); [apply IH|].
    destruct (negb (flag (sensitiveEnabled config)) && _); [apply IH|].
    eapply returns_bind; [apply bannedWords_checkIllust_random|].
    intros hit w1 Hr1. cbv beta.
    destruct hit as [word|]; [|destruct (negb (truthy _))];
      (eapply returns_mono; [apply IH|];
       intros sc w' Hr; cbv beta; congruence).
Qed.

(** A shuffled extraction of a batch draws once less than the batch has
    items, and nothing for an empty batch. *)
Lemma extractTopSafe_draws (config : PluginConfig) (batch : list RawIllust)
      (w : World) :
  returns (extractTopSafe config batch true) w
    (fun _ w' => random w' = skipn (length batch - 1) (random w)).
Proof.
  unfold extractTopSafe.
  eapply returns_bind with
    (P := fun _ w1 => random w1 = skipn (length batch - 1) (random w));
    [|intros bs w1 H; apply returns_ret; exact H].
  unfold extractTopSafe_scan.
  eapply returns_bind with
    (P := fun _ w1 => random w1 = skipn (length batch - 1) (random w)).
  - cbn [andb]. destruct (0 <? Z.of_nat (length batch)) eqn:Hlen.
    + apply fisher_yates_draws.
    + apply returns_ret. destruct batch; [reflexivity|].
      cbn [length] in Hlen. apply Z.ltb_ge in Hlen. lia.
  - intros l' w1 Hr1. eapply returns_bind; [apply extract_loop_random|].
    intros sc w2 Hr2. apply returns_ret. congruence.
Qed.

Lemma client_searchIllust_random (keyword : string) (offset : Z) (w : World) :
  wp (client_searchIllust keyword offset) w
    (fun _ w' => random w' = random w).
Proof.
  unfold wp, client_searchIllust, bind, record_call, settle. cbn [fst snd].
  cbn [feed random isLoggedIn banned disk calls attempts].
  destruct (searchIllust keyword offset (feed w)) as [[e|b] f];
    cbn [fst snd random throw ret]; reflexivity.
Qed.

Lemma ensureLoggedIn_random (config : PluginConfig) (w : World) :
  wp (ensureLoggedIn config) w (fun _ w' => random w' = random w).
Proof.
  unfold wp, ensureLoggedIn, init, client_login, bind, get_isLoggedIn,
    set_isLoggedIn, record_call, ret, throw.
  cbn [fst snd]. destruct (isLoggedIn w) eqn:Hlogged; cbn [negb fst snd].
  - reflexivity.
  - destruct (truthy (pixivRefreshToken config)); cbn [negb fst snd].
    + cbn [feed]. destruct (login _ (feed w)) as [ok f].
      cbn [fst snd isLoggedIn].
      destruct ok; cbn [negb fst snd random]; reflexivity.
    + rewrite Hlogged. cbn [negb fst snd]. reflexivity.
Qed.

(** One attempt of [searchTop3] and the oracle: the offset of its request
    is computed from the next draw, under the ceiling of the current
    level, and the attempt uses up the draws of its offset and of its
    shuffle. *)
Lemma search_attempt_draws (config : PluginConfig) (keyword : string)
      (attempt : Z) (st : Session) (w : World) :
  let ceiling := nth (offsetLevel st) offsetLimits 0 in
  let off := offset_from ceiling (random w) in
  wp (search_attempt config keyword attempt st) w
    (fun r w' =>
       calls w' = calls w ++ [CallSearch keyword off]
       /\ match r with
          | OutOfFuel => False
          | Throw _ => attempts w' = attempts w
          | Ok step =>
              exists a,
                attempts w' = attempts w ++ [a]
                /\ at_ceiling a = ceiling /\ at_offset a = off
                /\ random w' = skipn (draws_of a) (random w)
                /\ match step with
                   | Continue st' =>
                       offsetLevel st'
                       = (if (at_raw a =? 0)%nat then S (offsetLevel st)
                          else offsetLevel st)
                   | _ => True
                   end
          end).
Proof.
  intros ceiling off. unfold search_attempt. rewrite ceiling_clamp.
  fold ceiling.
  apply wp_bind_returns with
    (P := fun j w1 =>
            j = off /\ quiet w w1
            /\ random w1
               = skipn (if ceiling >? 0 then 1 else 0)%nat (random w)).
  { unfold off, offset_from. destruct (ceiling >? 0).
    - eapply returns_mono;
        [apply returns_conj;
         [apply floor_random_times_spec|apply floor_random_times_draw]|].
      intros j w1 [[Hq _] [Hj Hr]]. repeat split; try assumption; apply Hq.
    - apply returns_ret. repeat split. }
  intros j w1 (-> & (Hc1 & Ha1 & _) & Hr1).
  apply wp_bind. eapply wp_mono;
    [apply wp_conj; [apply client_searchIllust_spec
                    |apply client_searchIllust_random]|].
  intros r w2 [(Hc2 & Ha2 & Hnf) Hr2].
  destruct r as [result|e|]; [| |congruence].
  2:{ split; congruence. }
  apply wp_bind_returns with
    (P := fun cur w3 =>
            quiet w2 w3
            /\ random w3
               = skipn (length (nullish result []) - 1) (random w2)).
  { eapply returns_mono;
      [apply returns_conj;
       [apply extractTopSafe_spec|apply extractTopSafe_draws]|].
    intros cur w3 [[Hq _] Hr]. split; assumption. }
  intros cur w3 [(Hc3 & Ha3 & _) Hr3].
  apply wp_bind. unfold wp at 1, record_attempt. cbn [fst snd].
  set (st1 := accumulate cur st).
  set (a := mkAttempt ceiling off (length (nullish result []))
              (illusts cur) (Map_size (collectedMap st1))).
  set (w4 := mkWorld _ _ _ _ _ _ _).
  assert (Hc4 : calls w4 = calls w ++ [CallSearch keyword off]).
  { subst w4. cbn [calls]. congruence. }
  assert (Ha4 : attempts w4 = attempts w ++ [a]).
  { subst w4. cbn [attempts]. congruence. }
  assert (Hr4 : random w4 = skipn (draws_of a) (random w)).
  { subst w4 a. cbn [random]. unfold draws_of. cbn [at_ceiling at_raw].
    rewrite Hr3, Hr2, Hr1, skipn_skipn. f_equal. lia. }
  destruct (Z.of_nat (Map_size (collectedMap st1)) >=? requiredCount config).
  { apply wp_ret. split; [exact Hc4|]. exists a. repeat split; assumption. }
  destruct (length (nullish result []) =? 0)%nat eqn:Hraw.
  - destruct (ceiling =? 0); apply wp_ret; (split; [exact Hc4|]);
      exists a; repeat split; try assumption.
    subst a. cbn [offsetLevel at_raw]. rewrite Hraw. reflexivity.
  - apply wp_ret. split; [exact Hc4|]. exists a.
    repeat split; try assumption.
    subst a. cbn [at_raw]. rewrite Hraw. reflexivity.
Qed.

Lemma draws_cons (a : Attempt) (log : list Attempt) :
  draws (a :: log) = (draws_of a + draws log)%nat.
Proof. reflexivity. Qed.

Lemma empties_cons (a : Attempt) (log : list Attempt) :
  empties (a :: log)
  = ((if (at_raw a =? 0)%nat then 1 else 0) + empties log)%nat.
Proof.
  unfold empties. cbn [filter]. destruct (at_raw a =? 0)%nat; reflexivity.
Qed.

(** The loop of [searchTop3] and the oracle: the offsets of the log are
    computed from the draws in order; the search requests issued are
    those of the log, followed, when a request was rejected, by the
    rejected request, whose offset is computed the same way. *)
Lemma search_loop_draws (config : PluginConfig) (keyword : string)
      (maxRetries : Z) :
  forall (fuel : nat) (attempt : Z) (st : Session) (w : World),
    wp (retry_loop fuel maxRetries (search_attempt config keyword) attempt st) w
      (fun r w' =>
         exists log tail,
           attempts w' = attempts w ++ log
           /\ drawn (random w) log
           /\ calls w' = calls w ++ map (request keyword) log ++ tail
           /\ (tail = []
               \/ exists e,
                    r = Throw e
                    /\ tail
                       = [CallSearch keyword
                            (offset_from
                               (nth (offsetLevel st + empties log) offsetLimits 0)
                               (skipn (draws log) (random w)))])).
Proof.
  induction fuel as [|fuel IH]; intros attempt st w.
  - unfold wp. cbn [retry_loop fst snd]. exists [], [].
    cbn [map app]. rewrite !app_nil_r. repeat split. now left.
  - cbn [retry_loop]. destruct (attempt <? maxRetries).
    2:{ apply wp_ret. exists [], []. cbn [map app]. rewrite !app_nil_r.
        repeat split. now left. }
    apply wp_bind. eapply wp_mono; [apply search_attempt_draws|].
    intros r w1 (Hc1 & Hr).
    destruct r as [step|e|]; [| |contradiction].
    2:{ exists [], [CallSearch keyword
                     (offset_from (nth (offsetLevel st) offsetLimits 0)
                        (random w))].
        cbn [map app]. rewrite app_nil_r.
        split; [exact Hr|]. split; [exact I|]. split; [exact Hc1|].
        right. exists e. split; [reflexivity|].
        unfold empties, draws. cbn [filter length map list_sum fold_right skipn].
        rewrite Nat.add_0_r. reflexivity. }
    destruct Hr as (a & Ha1 & Hceil & Hoff & Hr1 & Hstep).
    assert (Hreq : CallSearch keyword
                     (offset_from (nth (offsetLevel st) offsetLimits 0)
                        (random w)) = request keyword a).
    { unfold request. rewrite Hoff. reflexivity. }
    assert (Hhead : at_offset a = offset_from (at_ceiling a) (random w)).
    { rewrite Hoff, Hceil. reflexivity. }
    rewrite Hreq in Hc1.
    destruct step as [st'|st'|res].
    + eapply wp_mono; [apply IH|].
      intros r w' (log & tail & Ha' & Hd' & Hc' & Htail).
      exists (a :: log), tail.
      split; [rewrite Ha', Ha1, <- app_assoc; reflexivity|].
      split; [cbn [drawn]; split; [exact Hhead|]; rewrite <- Hr1; exact Hd'|].
      split; [rewrite Hc', Hc1, <- app_assoc; reflexivity|].
      destruct Htail as [->|(e & -> & ->)]; [now left|right].
      exists e. split; [reflexivity|].
      rewrite Hr1, skipn_skipn, draws_cons, empties_cons, Hstep.
      do 3 f_equal.
      * f_equal. destruct (at_raw a =? 0)%nat; lia.
      * f_equal. lia.
    + apply wp_ret. exists [a], []. cbn [map app].
      split; [exact Ha1|]. split; [cbn [drawn]; auto|].
      split; [exact Hc1|now left].
    + apply wp_ret. exists [a], []. cbn [map app].
      split; [exact Ha1|]. split; [cbn [drawn]; auto|].
      split; [exact Hc1|now left].
Qed.

(** *** A whole session *)

(** The statements after the loop, given what the loop achieved. *)
Lemma after_loop (config : PluginConfig) (counted : Call -> bool)
      (budget fuel : nat) (w w1 w2 : World)
      (r : Result (Session + ExtractResult)) :
  attempts w1 = attempts w ->
  filter counted (calls w1) = filter counted (calls w) ->
  session_outcome config counted budget [] w1 r w2 ->
  ((budget < fuel)%nat -> r <> OutOfFuel) ->
  match r with
  | Ok res =>
      wp (match res with
          | inr r => ret r
          | inl st => ret (collected config st)
          end) w2
        (fun r' w' =>
           exists log, acquisition config counted budget fuel w r' w' log
                       /\ attempts w' = attempts w1 ++ log)
  | Throw e =>
      exists log, acquisition config counted budget fuel w (Throw e) w2 log
                  /\ attempts w2 = attempts w1 ++ log
  | OutOfFuel =>
      exists log, acquisition config counted budget fuel w OutOfFuel w2 log
                  /\ attempts w2 = attempts w1 ++ log
  end.
Proof.
  intros Ha Hc (log & Hlog & Hcalls & Hlen & Hres) Hfuel.
  assert (Hbase : forall r' : Result ExtractResult,
             (r' = OutOfFuel -> r = OutOfFuel) ->
             (forall res, r' = Ok res ->
                exists st', collectedMap st' = merge (seen log) []
                  /\ res = collected config st'
                  /\ forall a, In a log ->
                       (at_pool a <= length (merge (seen log) []))%nat) ->
             exists log0,
               acquisition config counted budget fuel w r' w2 log0
               /\ attempts w2 = attempts w1 ++ log0).
  { intros r' Hoof Hok. exists log. split; [|exact Hlog].
    unfold acquisition. rewrite Hlog, Ha, <- Hc.
    repeat split; try assumption.
    intros Hf Hr'. apply (Hfuel Hf). auto. }
  destruct r as [[st'|res]|e|].
  - apply wp_ret. apply Hbase; [discriminate|].
    intros res [= <-]. destruct (Hres (inl st') eq_refl) as (st2 & Hp & Hcase & Hmax).
    destruct Hcase as [[= <-]|[=]]. exists st'. auto.
  - apply wp_ret. apply Hbase; [discriminate|].
    intros res' [= <-]. destruct (Hres (inr res) eq_refl) as (st2 & Hp & Hcase & Hmax).
    destruct Hcase as [[=]|[= ->]]. exists st2. auto.
  - apply Hbase; [discriminate|]. intros res [=].
  - apply Hbase; [auto|]. intros res [=].
Qed.

Lemma searchTop3_spec (config : PluginConfig) (fuel : nat) (keyword : string)
      (w : World) :
  wp (searchTop3 config fuel keyword) w
    (fun r w' =>
       exists log,
         acquisition config is_search 5 fuel w r w' log /\ ladder 0 log).
Proof.
  unfold searchTop3.
  apply wp_bind. eapply wp_mono; [apply ensureLoggedIn_spec|].
  intros r0 w1 (Ha1 & Hs1 & _ & Hnf).
  destruct r0 as [[]|e|]; [| |congruence].
  2:{ exists []. split; [|exact I]. unfold acquisition.
      rewrite app_nil_r, Hs1. repeat split; try assumption;
        try (cbn [length]; lia); try discriminate. }
  apply wp_bind.
  eapply wp_mono;
    [apply wp_conj;
     [apply (retry_loop_spec config is_search _ 5
               (search_attempt_contract config keyword) fuel 0 session0 w1)
     |apply (search_loop_ladder config keyword 5 fuel 0 session0 w1)]|].
  intros r w2 [[Hout Hfuel] (log2 & Hlog2 & Hlad)].
  change (Z.to_nat (5 - 0)) with 5%nat in *.
  cbn [collectedMap session0] in Hout.
  pose proof (after_loop config is_search 5 fuel w w1 w2 r Ha1 Hs1 Hout Hfuel)
    as Hafter.
  assert (Hsame : forall (r' : Result ExtractResult) (w' : World),
             (exists log, acquisition config is_search 5 fuel w r' w' log
                          /\ attempts w' = attempts w1 ++ log) ->
             attempts w' = attempts w2 ->
             exists log, acquisition config is_search 5 fuel w r' w' log
                         /\ ladder 0 log).
  { intros r' w' (log & Hacq & Hl) Heq. exists log. split; [exact Hacq|].
    rewrite Heq, Hlog2 in Hl. apply app_inv_head in Hl. subst log2.
    exact Hlad. }
  destruct r as [res|e|].
  - destruct res as [st'|res]; apply Hsame; try reflexivity; exact Hafter.
  - apply Hsame; [exact Hafter|reflexivity].
  - apply Hsame; [exact Hafter|reflexivity].
Qed.

Lemma filter_requests (keyword : string) (log : list Attempt) :
  filter is_search (map (request keyword) log) = map (request keyword) log.
Proof.
  induction log as [|a log IH]; [reflexivity|].
  cbn [map filter request is_search]. f_equal. exact IH.
Qed.

(** A whole call of [searchTop3] and the oracle. *)
Lemma searchTop3_draws (config : PluginConfig) (fuel : nat) (keyword : string)
      (w : World) :
  wp (searchTop3 config fuel keyword) w
    (fun r w' =>
       exists log tail,
         attempts w' = attempts w ++ log
         /\ drawn (random w) log
         /\ filter is_search (calls w')
            = filter is_search (calls w) ++ map (request keyword) log ++ tail
         /\ (tail = []
             \/ exists e,
                  r = Throw e
                  /\ tail
                     = [CallSearch keyword
                          (offset_from (nth (empties log) offsetLimits 0)
                             (skipn (draws log) (random w)))])).
Proof.
  unfold searchTop3.
  apply wp_bind. eapply wp_mono;
    [apply wp_conj; [apply ensureLoggedIn_spec|apply ensureLoggedIn_random]|].
  intros r0 w1 [(Ha1 & Hs1 & _ & Hnf) Hr1].
  destruct r0 as [[]|e|]; [| |congruence].
  2:{ exists [], []. cbn [map app]. rewrite !app_nil_r.
      repeat split; try assumption. now left. }
  apply wp_bind. eapply wp_mono;
    [apply (search_loop_draws config keyword 5 fuel 0 session0 w1)|].
  intros r w2 (log & tail & Ha2 & Hd & Hc2 & Htail).
  cbn [offsetLevel session0 Nat.add] in Htail.
  assert (Hsearch : filter is_search (calls w2)
                    = filter is_search (calls w)
                      ++ map (request keyword) log ++ tail).
  { rewrite Hc2, !filter_app, Hs1, filter_requests. do 2 f_equal.
    destruct Htail as [->|(e & _ & ->)]; reflexivity. }
  assert (Hshape : forall r' : Result ExtractResult,
             (forall e, r = Throw e -> r' = Throw e) ->
             exists log0 tail0,
               attempts w2 = attempts w ++ log0
               /\ drawn (random w) log0
               /\ filter is_search (calls w2)
                  = filter is_search (calls w)
                    ++ map (request keyword) log0 ++ tail0
               /\ (tail0 = []
                   \/ exists e,
                        r' = Throw e
                        /\ tail0
                           = [CallSearch keyword
                                (offset_from (nth (empties log0) offsetLimits 0)
                                   (skipn (draws log0) (random w)))])).
  { intros r' Hthrow. exists log, tail.
    split; [congruence|]. split; [rewrite <- Hr1; exact Hd|].
    split; [exact Hsearch|].
    destruct Htail as [->|(e & He & ->)]; [now left|right].
    exists e. split; [now apply Hthrow|]. rewrite Hr1. reflexivity. }
  destruct r as [res|e|].
  - destruct res as [st'|res]; apply wp_ret; apply Hshape; discriminate.
  - apply Hshape. intros e' [= ->]. reflexivity.
  - apply Hshape. discriminate.
Qed.

Lemma getRandomTop3_spec (config : PluginConfig) (fuel : nat) (w : World) :
  wp (getRandomTop3 config fuel) w
    (fun r w' =>
       exists log, acquisition config is_recommended 3 fuel w r w' log).
Proof.
  unfold getRandomTop3.
  apply wp_bind. eapply wp_mono; [apply ensureLoggedIn_spec|].
  intros r0 w1 (Ha1 & _ & Hs1 & Hnf).
  destruct r0 as [[]|e|]; [| |congruence].
  2:{ exists []. unfold acquisition.
      rewrite app_nil_r, Hs1. repeat split; try assumption;
        try (cbn [length]; lia); try discriminate. }
  apply wp_bind.
  eapply wp_mono;
    [apply (retry_loop_spec config is_recommended _ 3
              (recommend_attempt_contract config) fuel 0 session0 w1)|].
  intros r w2 [Hout Hfuel].
  change (Z.to_nat (3 - 0)) with 3%nat in *.
  cbn [collectedMap session0] in Hout.
  pose proof (after_loop config is_recommended 3 fuel w w1 w2 r Ha1 Hs1 Hout Hfuel)
    as Hafter.
  destruct r as [res|e|].
  - destruct res as [st'|res];
      (eapply wp_mono; [exact Hafter|]);
      intros r' w' (log & Hacq & _); exists log; exact Hacq.
  - destruct Hafter as (log & Hacq & _). exists log. exact Hacq.
  - destruct Hafter as (log & Hacq & _). exists log. exact Hacq.
Qed.

(** *** The pool keeps the first item seen for each id *)

Lemma find_app {A : Type} (p : A -> bool) (l1 l2 : list A) :
  find p (l1 ++ l2)
  = match find p l1 with Some x => Some x | None => find p l2 end.
Proof.
  induction l1 as [|a l1 IH]; cbn [app find]; [reflexivity|].
  destruct (p a); [reflexivity|exact IH].
Qed.

Lemma Map_has_In (k : Z) (m : JsMap) :
  Map_has k m = true <-> In k (map fst m).
Proof.
  unfold Map_has. rewrite existsb_exists, in_map_iff. split.
  - intros (e & He & Hk). exists e. split; [lia|exact He].
  - intros (e & Hk & He). exists e. split; [exact He|lia].
Qed.

Lemma merge_keeps_first_seen (xs : list SafeIllust) :
  forall (pool : JsMap) (done : list SafeIllust),
    NoDup (map fst pool) ->
    (forall k v, In (k, v) pool -> first_with_id k done = Some v) ->
    (forall y, In y done -> Map_has (id y) pool = true) ->
    NoDup (map fst (merge xs pool))
    /\ (forall k v, In (k, v) (merge xs pool) ->
          first_with_id k (done ++ xs) = Some v)
    /\ (forall y, In y (done ++ xs) -> Map_has (id y) (merge xs pool) = true).
Proof.
  induction xs as [|x xs IH]; intros pool done Hnd Hfirst Hall.
  - cbn [merge]. rewrite app_nil_r. auto.
  - cbn [merge].
    replace (done ++ x :: xs) with ((done ++ [x]) ++ xs)
      by (rewrite <- app_assoc; reflexivity).
    destruct (Map_has (id x) pool) eqn:Hhas.
    + apply IH; [exact Hnd| |].
      * intros k v Hin. unfold first_with_id. rewrite find_app.
        fold (first_with_id k done). now rewrite (Hfirst k v Hin).
      * intros y Hy. apply in_app_or in Hy.
        destruct Hy as [Hy|[<-|[]]]; auto.
    + rewrite (Map_set_absent _ _ _ Hhas).
      assert (Hnew : first_with_id (id x) done = None).
      { unfold first_with_id. destruct (find _ done) as [y|] eqn:Hf; [|reflexivity].
        apply find_some in Hf. destruct Hf as [Hy Hid].
        apply Z.eqb_eq in Hid. rewrite <- Hid, (Hall y Hy) in Hhas.
        discriminate. }
      apply IH.
      * rewrite map_app. cbn [map fst].
        apply NoDup_app; [exact Hnd|repeat constructor; intros []|].
        intros k Hk [<-|[]]. apply Map_has_In in Hk. congruence.
      * intros k v Hin. apply in_app_or in Hin. unfold first_with_id.
        rewrite find_app. fold (first_with_id k done).
        destruct Hin as [Hin|[[= <- <-]|[]]].
        -- now rewrite (Hfirst k v Hin).
        -- rewrite Hnew. cbn [find]. now rewrite Z.eqb_refl.
      * intros y Hy. unfold Map_has. rewrite existsb_app.
        apply in_app_or in Hy. destruct Hy as [Hy|[<-|[]]].
        -- fold (Map_has (id y) pool). now rewrite (Hall y Hy).
        -- cbn [existsb fst]. rewrite Z.eqb_refl. apply orb_true_r.
Qed.

Lemma In_firstn {A : Type} (k : nat) (l : list A) (x : A) :
  In x (firstn k l) -> In x l.
Proof.
  intros H. rewrite <- (firstn_skipn k l). apply in_or_app. left. exact H.
Qed.

Lemma In_slice0 {A : Type} (n : Z) (l : list A) (x : A) :
  In x (slice0 n l) -> In x l.
Proof. unfold slice0. destruct (n <? 0); apply In_firstn. Qed.

Lemma NoDup_firstn {A : Type} (n : nat) (l : list A) :
  NoDup l -> NoDup (firstn n l).
Proof.
  intros H. rewrite <- (firstn_skipn n l) in H.
  exact (NoDup_app_remove_r _ _ H).
Qed.

Lemma map_slice0 {A B : Type} (f : A -> B) (n : Z) (l : list A) :
  map f (slice0 n l) = slice0 n (map f l).
Proof.
  unfold slice0. rewrite length_map.
  destruct (n <? 0); symmetry; apply firstn_map.
Qed.

Lemma length_slice0 {A : Type} (n : Z) (l : list A) :
  0 <= n -> Z.of_nat (length (slice0 n l)) <= n.
Proof.
  intros Hn. unfold slice0. destruct (Z.ltb_spec n 0); [lia|].
  pose proof (firstn_le_length (Z.to_nat n) l). lia.
Qed.

(** The collected result of a pool that merges a stream into the empty
    map: no id twice, and for each id the first item of the stream. *)
Lemma collected_first_seen (config : PluginConfig) (st : Session)
      (stream : list SafeIllust) :
  collectedMap st = merge stream [] ->
  NoDup (map id (illusts (collected config st)))
  /\ forall x, In x (illusts (collected config st)) ->
       first_with_id (id x) stream = Some x.
Proof.
  intros Hpool.
  destruct (merge_keeps_first_seen stream [] [])
    as (Hnd & Hfirst & _); [constructor|intros k v []|intros y []|].
  cbn [app] in Hfirst. rewrite <- Hpool in *.
  assert (Hkey : forall e, In e (collectedMap st) -> id (snd e) = fst e).
  { intros [k v] Hin. specialize (Hfirst k v Hin). apply find_some in Hfirst.
    cbn [fst snd]. lia. }
  assert (Hids : map id (Map_values (collectedMap st)) = map fst (collectedMap st)).
  { unfold Map_values. rewrite map_map. apply map_ext_in. exact Hkey. }
  cbn [collected illusts]. split.
  - rewrite map_slice0, Hids. unfold slice0.
    destruct (_ <? 0); apply NoDup_firstn; exact Hnd.
  - intros x Hx. apply In_slice0 in Hx. unfold Map_values in Hx.
    apply in_map_iff in Hx. destruct Hx as ([k v] & <- & Hin).
    pose proof (Hkey _ Hin) as Hk. cbn [fst snd] in *. rewrite Hk. auto.
Qed.

(** *** The ladder of offset ceilings, read attempt by attempt *)

Lemma ladder_nth (log : list Attempt) :
  forall (level k : nat) (a : Attempt),
    ladder level log ->
    nth_error log k = Some a ->
    at_ceiling a = nth (level + empties (firstn k log)) offsetLimits 0
    /\ 0 <= at_offset a <= at_ceiling a.
Proof.
  induction log as [|a0 log IH]; intros level k a Hlad Hk.
  - destruct k; discriminate.
  - cbn [ladder] in Hlad. destruct Hlad as (Hc & Ho & _ & Hrest).
    destruct k as [|k].
    + injection Hk as <-. cbn [firstn empties filter length].
      rewrite Nat.add_0_r. auto.
    + cbn [nth_error] in Hk. destruct (IH _ k a Hrest Hk) as [Hc' Ho'].
      split; [|exact Ho']. rewrite Hc'. f_equal.
      unfold empties. cbn [firstn filter].
      destruct (at_raw a0 =? 0)%nat; cbn [length]; lia.
Qed.

Lemma ladder_adjacent (log : list Attempt) :
  forall (level k : nat) (a b : Attempt),
    ladder level log ->
    nth_error log k = Some a ->
    nth_error log (S k) = Some b ->
    (at_raw a = 0%nat -> at_ceiling b < at_ceiling a)
    /\ (at_raw a <> 0%nat -> at_ceiling b = at_ceiling a).
Proof.
  induction log as [|a0 log IH]; intros level k a b Hlad Ha Hb.
  - destruct k; discriminate.
  - cbn [ladder] in Hlad. destruct Hlad as (Hc & Ho & Hend & Hrest).
    destruct k as [|k].
    + injection Ha as <-. cbn [nth_error] in Hb.
      destruct log as [|b0 log]; [discriminate|]. injection Hb as <-.
      cbn [ladder] in Hrest. destruct Hrest as (Hcb & _).
      destruct (Nat.eqb_spec (at_raw a0) 0) as [Hraw|Hraw].
      * split; [|contradiction]. intros _. rewrite Hcb, Hc.
        apply ceiling_steps_down.
        destruct (Z.eq_dec (at_ceiling a0) 0) as [Hz|Hz].
        -- discriminate (Hend Hraw Hz).
        -- rewrite <- Hc. lia.
      * split; [contradiction|]. intros _. congruence.
    + cbn [nth_error] in Ha, Hb. exact (IH _ k a b Hrest Ha Hb).
Qed.

Lemma drawn_nth (log : list Attempt) :
  forall (rng : Random) (k : nat) (a : Attempt),
    drawn rng log ->
    nth_error log k = Some a ->
    at_offset a
    = offset_from (at_ceiling a) (skipn (draws (firstn k log)) rng).
Proof.
  induction log as [|a0 log IH]; intros rng k a Hd Hk.
  - destruct k; discriminate.
  - cbn [drawn] in Hd. destruct Hd as [Ho Hrest]. destruct k as [|k].
    + injection Hk as <-. exact Ho.
    + cbn [nth_error] in Hk. rewrite (IH _ k a Hrest Hk).
      cbn [firstn]. rewrite draws_cons, skipn_skipn.
      do 2 f_equal. lia.
Qed.

(** Every whole number below [n] is the floor of some draw times [n]. *)
Lemma random_floor_onto (n v : Z) (rest : Random) :
  0 < n <= 2 ^ 52 -> 0 <= v < n ->
  exists k, 0 <= k < two53 /\ random_floor n (k :: rest) = (v, rest).
Proof.
  intros Hn Hv. pose proof two53_pos as Hp.
  assert (H52 : 2 * 2 ^ 52 = two53) by reflexivity.
  set (k := (v * two53 + n - 1) / n).
  pose proof (Z.div_mod (v * two53 + n - 1) n ltac:(lia)) as Hdm.
  pose proof (Z.mod_pos_bound (v * two53 + n - 1) n ltac:(lia)) as Hr.
  fold k in Hdm.
  assert (Hlow : v * two53 <= k * n) by lia.
  assert (Hhigh : k * n < v * two53 + n) by lia.
  assert (Hk : 0 <= k < two53).
  { split; [apply Z.div_pos; nia|].
    apply Z.div_lt_upper_bound; [lia|]. nia. }
  exists k. split; [exact Hk|]. cbn [random_floor].
  rewrite (Z.mod_small k two53 Hk).
  destruct (round_double_near (k * n) ltac:(nia)) as [H0 Hnear].
  pose proof (round_double_whole (k * n) v ltac:(lia) Hlow ltac:(nia)) as Hge.
  assert (Hq : round_double (k * n) / two53 = v).
  { symmetry. apply Z.div_unique with (r := round_double (k * n) - v * two53).
    - left. split; [lia|]. nia.
    - lia. }
  rewrite Hq. reflexivity.
Qed.

(** *** The acquisition orchestrator: the statements *)

(** With fuel above its budget of attempts a session completes: it
    returns or it throws. *)
Lemma sessions_complete (config : PluginConfig) (fuel : nat)
      (keyword : string) (w : World) :
  ((5 < fuel)%nat -> fst (searchTop3 config fuel keyword w) <> OutOfFuel)
  /\ ((3 < fuel)%nat -> fst (getRandomTop3 config fuel w) <> OutOfFuel).
Proof.
  split.
  - destruct (searchTop3_spec config fuel keyword w)
      as (log & (_ & _ & _ & Hfuel & _) & _). exact Hfuel.
  - destruct (getRandomTop3_spec config fuel w)
      as (log & (_ & _ & _ & Hfuel & _)). exact Hfuel.
Qed.

(** What a session of either kind has collected when it returns. *)
Lemma sessions_return_collected (config : PluginConfig) (fuel : nat)
      (keyword : string) (w w' : World) (r : ExtractResult) :
  searchTop3 config fuel keyword w = (Ok r, w')
  \/ getRandomTop3 config fuel w = (Ok r, w') ->
  exists log st',
    attempts w' = attempts w ++ log
    /\ collectedMap st' = merge (seen log) []
    /\ r = collected config st'.
Proof.
  intros Hrun.
  assert (Hacq : exists counted budget log,
             acquisition config counted budget fuel w (Ok r) w' log).
  { destruct Hrun as [Hrun|Hrun].
    - destruct (wp_run _ _ _ _ _ (searchTop3_spec config fuel keyword w) Hrun)
        as (log & Hacq & _). eauto.
    - destruct (wp_run _ _ _ _ _ (getRandomTop3_spec config fuel w) Hrun)
        as (log & Hacq). eauto. }
  destruct Hacq as (counted & budget & log & Hlog & _ & _ & _ & Hres).
  destruct (Hres r eq_refl) as (st' & Hpool & Hr & _).
  exists log, st'. auto.
Qed.

(** C2.  Whatever the attempts of a session of [searchTop3] or
    [getRandomTop3] returned, the items of the result carry pairwise
    different ids, and each of them is the first item with its id in the
    stream of everything the attempts accepted, taken attempt by attempt
    in order: the item of the attempt that saw the id first, never a later
    duplicate.  With fuel above the budget of attempts the session does
    complete. *)
Theorem sessions_keep_first_seen_item :
  forall (config : PluginConfig) (fuel : nat) (keyword : string) (w : World),
    (forall (r : ExtractResult) (w' : World),
        searchTop3 config fuel keyword w = (Ok r, w')
        \/ getRandomTop3 config fuel w = (Ok r, w') ->
        exists log,
          attempts w' = attempts w ++ log
          /\ NoDup (map id (illusts r))
          /\ forall x, In x (illusts r) ->
               first_with_id (id x) (seen log) = Some x)
    /\ ((5 < fuel)%nat ->
        fst (searchTop3 config fuel keyword w) <> OutOfFuel
        /\ fst (getRandomTop3 config fuel w) <> OutOfFuel).
Proof.
  intros config fuel keyword w. split.
  - intros r w' Hrun.
    destruct (sessions_return_collected config fuel keyword w w' r Hrun)
      as (log & st' & Hlog & Hpool & ->).
    exists log. split; [exact Hlog|].
    apply collected_first_seen. exact Hpool.
  - intros Hfuel.
    destruct (sessions_complete config fuel keyword w) as [Hs Hr].
    split; [apply Hs; exact Hfuel|apply Hr; lia].
Qed.

(** C3.  For every keyword, configuration and upstream client, a call of
    [searchTop3] adds at most 5 search calls to the record, and with any
    fuel above 5 it completes, by returning or by throwing: the loop
    itself needs no more turns than its budget.  That covers the upstream
    that answers an empty batch to every attempt. *)
Theorem searchTop3_terminates_within_budget :
  forall (config : PluginConfig) (fuel : nat) (keyword : string) (w : World),
    (searches (calls (snd (searchTop3 config fuel keyword w)))
     <= searches (calls w) + 5)%nat
    /\ ((5 < fuel)%nat -> fst (searchTop3 config fuel keyword w) <> OutOfFuel).
Proof.
  intros config fuel keyword w.
  destruct (searchTop3_spec config fuel keyword w)
    as (log & (_ & _ & Hcalls & Hfuel & _) & _).
  split; [exact Hcalls|exact Hfuel].
Qed.

(** C4.  In a call of [searchTop3] the offset of every request is
    [Math.floor(Math.random() * (ceiling + 1))], computed from the draw
    of Math.random that is next when the attempt begins (no draw, and the
    offset 0, under the ceiling 0): the search requests issued are, in
    order, those of the logged attempts, followed by the rejected request
    when the session was ended by a rejection, and each attempt uses up
    one draw for its offset and one for each step of the shuffle of its
    batch.  The ceiling of an attempt is the entry of
    [300; 200; 100; 50; 0] indexed by the number of earlier attempts whose
    raw batch was empty (300 for the first attempt), and the offset lies
    between 0 and that ceiling; from one attempt to the next the ceiling
    is strictly smaller when the earlier raw batch was empty and the
    same otherwise, whatever the filters did to the batch.  Every offset
    from 0 to the ceiling, the ceiling included, is the floor for some
    draw, and the floor for a draw [d / 2^53] lies between the exact
    floors of the products for [d] and for [d + 1]: the offsets are the
    draws scaled to the range, so they are spread over it as evenly as
    the draws of Math.random are spread over [0, 1). *)
Theorem searchTop3_offset_ceiling :
  forall (config : PluginConfig) (fuel : nat) (keyword : string) (w : World),
    let run := searchTop3 config fuel keyword w in
    exists log tail,
      attempts (snd run) = attempts w ++ log
      /\ (forall k a,
            nth_error log k = Some a ->
            at_ceiling a = nth (empties (firstn k log)) offsetLimits 0
            /\ at_offset a
               = offset_from (at_ceiling a)
                   (skipn (draws (firstn k log)) (random w))
            /\ 0 <= at_offset a <= at_ceiling a)
      /\ (forall k a b,
            nth_error log k = Some a -> nth_error log (S k) = Some b ->
            (at_raw a = 0%nat -> at_ceiling b < at_ceiling a)
            /\ (at_raw a <> 0%nat -> at_ceiling b = at_ceiling a))
      /\ filter is_search (calls (snd run))
         = filter is_search (calls w) ++ map (request keyword) log ++ tail
      /\ (tail = []
          \/ exists e,
               fst run = Throw e
               /\ tail
                  = [CallSearch keyword
                       (offset_from (nth (empties log) offsetLimits 0)
                          (skipn (draws log) (random w)))])
      /\ (forall a v rest,
            In a log -> 0 <= v <= at_ceiling a ->
            exists d,
              0 <= d < two53
              /\ random_floor (at_ceiling a + 1) (d :: rest) = (v, rest))
      /\ (forall a d rest,
            In a log -> 0 <= d < two53 ->
            d * (at_ceiling a + 1) / two53
            <= fst (random_floor (at_ceiling a + 1) (d :: rest))
            <= ((d + 1) * (at_ceiling a + 1) - 1) / two53).
Proof.
  intros config fuel keyword w run.
  destruct (searchTop3_spec config fuel keyword w)
    as (log & (Hlog & _) & Hlad).
  destruct (searchTop3_draws config fuel keyword w)
    as (log' & tail & Hlog' & Hdrawn & Hcalls & Htail).
  fold run in Hlog, Hlog', Hcalls, Htail.
  assert (Hsame : log' = log).
  { rewrite Hlog in Hlog'. now apply app_inv_head in Hlog'. }
  subst log'.
  assert (Hsmall : forall a, In a log -> 0 < at_ceiling a + 1 <= 2 ^ 52).
  { intros a Hin. apply In_nth_error in Hin. destruct Hin as [k Hk].
    destruct (ladder_nth log 0 k a Hlad Hk) as [Hc _]. rewrite Hc.
    pose proof (ceiling_nonneg (0 + empties (firstn k log))) as H0.
    pose proof (ceiling_at_most_300 (0 + empties (firstn k log))) as H300.
    assert (H52 : 2 ^ 52 = 4503599627370496) by reflexivity. lia. }
  exists log, tail. split; [exact Hlog|]. split; [|split; [|split; [|split]]].
  - intros k a Hk. destruct (ladder_nth log 0 k a Hlad Hk) as [Hc Ho].
    split; [exact Hc|]. split; [|exact Ho].
    exact (drawn_nth log (random w) k a Hdrawn Hk).
  - intros k a b Ha Hb. exact (ladder_adjacent log 0 k a b Hlad Ha Hb).
  - exact Hcalls.
  - exact Htail.
  - split.
    + intros a v rest Hin Hv.
      exact (random_floor_onto (at_ceiling a + 1) v rest (Hsmall a Hin)
               ltac:(lia)).
    + intros a d rest Hin Hd.
      exact (random_floor_scaled (at_ceiling a + 1) d rest (Hsmall a Hin) Hd).
Qed.

(** C10.  With a target count that is not negative, every result that
    [searchTop3] or [getRandomTop3] returns, on reaching the target as on
    leaving the loop, holds at most that many items: both return paths cut
    the pool to its first [resultCount] values.  With fuel above the budget
    of attempts the session does complete. *)
Theorem results_hold_at_most_resultCount :
  forall (config : PluginConfig) (fuel : nat) (keyword : string) (w : World),
    0 <= requiredCount config ->
    (forall (r : ExtractResult) (w' : World),
        searchTop3 config fuel keyword w = (Ok r, w')
        \/ getRandomTop3 config fuel w = (Ok r, w') ->
        Z.of_nat (length (illusts r)) <= requiredCount config)
    /\ ((5 < fuel)%nat ->
        fst (searchTop3 config fuel keyword w) <> OutOfFuel
        /\ fst (getRandomTop3 config fuel w) <> OutOfFuel).
Proof.
  intros config fuel keyword w Hcount. split.
  - intros r w' Hrun.
    destruct (sessions_return_collected config fuel keyword w w' r Hrun)
      as (log & st' & _ & _ & ->).
    cbn [collected illusts]. apply length_slice0. exact Hcount.
  - intros Hfuel.
    destruct (sessions_complete config fuel keyword w) as [Hs Hr].
    split; [apply Hs; exact Hfuel|apply Hr; lia].
Qed.

(** *** The early stop of [getRandomTop3] *)

Lemma extractTopSafe_nil (config : PluginConfig) (shuffle : bool) (w : World) :
  extractTopSafe config [] shuffle w = (Ok (mkResult [] 0 0 0 0), w).
Proof.
  unfold extractTopSafe, extractTopSafe_scan, bind.
  cbn [length Z.of_nat Z.ltb Z.compare]. rewrite andb_false_r.
  reflexivity.
Qed.

(** The part of C5 that holds on the code: an attempt of [getRandomTop3]
    whose upstream batch is empty or absent, the pool being short of the
    target, leaves the loop by [break] with the pool as it was. *)
Lemma recommend_attempt_breaks_on_empty_batch (config : PluginConfig)
      (attempt : Z) (st : Session) (w : World)
      (b : option (list RawIllust)) (f : Feed) :
  illustRecommended (feed w) = (Resolves b, f) ->
  nullish b [] = [] ->
  Z.of_nat (Map_size (collectedMap st)) < requiredCount config ->
  exists st' w',
    recommend_attempt config attempt st w = (Ok (Break st'), w')
    /\ collectedMap st' = collectedMap st.
Proof.
  intros Hfeed Hb Hshort.
  unfold recommend_attempt, client_illustRecommended.
  unfold bind at 1. unfold bind at 1. unfold record_call at 1.
  unfold bind at 1. cbn [feed]. rewrite Hfeed. cbn [settle ret].
  rewrite Hb. unfold bind at 1. rewrite extractTopSafe_nil.
  unfold bind, record_attempt.
  cbn [accumulate illusts collectedMap merge totalScanned r18Filtered
       sensitiveFiltered bannedFiltered length Nat.add Nat.eqb andb].
  destruct (Z.geb_spec (Z.of_nat (Map_size (collectedMap st)))
              (requiredCount config)); [lia|].
  eexists. eexists. split; [reflexivity|reflexivity].
Qed.

End PixivProperties.

(** C1 (as stated) fails.  Five plain illustrations, each with an image
    URL, and a target count of 3: the loop stops after the third accepted
    item, so the rejection tallies are 0, three items are accepted, none is
    dropped for lack of a URL, and [totalScanned] is 5. *)
Lemma tallies_ignore_unexamined_items :
  ~ @PixivSpec.tallies_cover_batch Examples.engine Examples.scripted
      (Examples.config 3)
      [Examples.plain 1; Examples.plain 2; Examples.plain 3;
       Examples.plain 4; Examples.plain 5]
      true (Examples.world []).
Proof.
  intros (iterated & sc & r & Hscan & Hrun & Hsum & _).
  vm_compute in Hscan. vm_compute in Hrun.
  injection Hscan as <- <-. injection Hrun as <-.
  vm_compute in Hsum. discriminate.
Qed.

(** ** The statements on concrete runs *)

(** The scenario of the matcher: a fuzzy rule in force matches a keyword
    that contains its pattern, and the same rule disabled matches nothing. *)
Example checkKeyword_fuzzy_scenario :
  fst (@BannedWords.checkKeyword Examples.engine "血腥场面"
         (BannedWords.mkService
            [BannedWords.mkBannedWord "r1" "血腥" BannedWords.fuzzy true 1] true)
         None)
  = Some (BannedWords.mkBannedWord "r1" "血腥" BannedWords.fuzzy true 1)
  /\ fst (@BannedWords.checkKeyword Examples.engine "血腥场面"
            (BannedWords.mkService
               [BannedWords.mkBannedWord "r1" "血腥" BannedWords.fuzzy false 1] true)
            None)
     = None.
Proof. split; vm_compute; reflexivity. Qed.

Lemma invalid_regex_changes_nothing_witness :
  let d := Some Examples.rules in
  (let '(r, s', d') :=
     @BannedWords.add Examples.engine "(" BannedWords.regex "uuid" 9
       Examples.service d in
   r = Throw (BannedWords.syntaxError "(") /\ d' = d /\ s' = Examples.service)
  /\ (let '(r, s', d') :=
        @BannedWords.update Examples.engine "r1"
          (BannedWords.mkUpdates (Some "(") (Some BannedWords.regex) None)
          Examples.service d in
      r = Throw (BannedWords.syntaxError "(") /\ d' = d /\ s' = Examples.service).
Proof.
  intros d.
  destruct (@invalid_regex_changes_nothing Examples.engine Examples.service d)
    as [Hadd Hupdate].
  split.
  - specialize (Hadd "(" "uuid" 9 eq_refl).
    destruct (@BannedWords.add Examples.engine "(" BannedWords.regex "uuid" 9
                Examples.service d) as [[r s'] d'].
    destruct Hadd as (Hr & Hd & _ & _ & Hs). auto.
  - specialize (Hupdate "r1"
      (BannedWords.mkUpdates (Some "(") (Some BannedWords.regex) None)
      (BannedWords.mkBannedWord "r1" "血腥" BannedWords.fuzzy true 1)
      eq_refl eq_refl eq_refl).
    destruct (@BannedWords.update Examples.engine "r1" _ Examples.service d)
      as [[r s'] d'].
    destruct Hupdate as (Hr & Hd & _ & _ & Hs). auto.
Defined.

Lemma sessions_keep_first_seen_item_witness :
  let w := Examples.world Examples.overlapping in
  let run := @Pixiv.getRandomTop3 Examples.engine Examples.scripted
               (Examples.config 3) 6 w in
  let r := Pixiv.mkResult
             [Examples.safe 1 "first"; Examples.safe 2 "title";
              Examples.safe 3 "title"] 4 0 0 0 in
  run = (Ok r, snd run)
  /\ exists log,
       Pixiv.attempts (snd run) = Pixiv.attempts w ++ log
       /\ NoDup (map Pixiv.id (Pixiv.illusts r))
       /\ forall x, In x (Pixiv.illusts r) ->
            PixivSpec.first_with_id (Pixiv.id x) (PixivSpec.seen log) = Some x.
Proof.
  intros w run r.
  assert (Hrun : run = (Ok r, snd run)) by (vm_compute; reflexivity).
  split; [exact Hrun|].
  apply (proj1 (@sessions_keep_first_seen_item Examples.engine Examples.scripted
                  (Examples.config 3) 6 "" w) r (snd run)).
  right. exact Hrun.
Defined.

Lemma searchTop3_terminates_within_budget_witness :
  (5 < 6)%nat
  /\ fst (@Pixiv.searchTop3 Examples.engine Examples.scripted (Examples.config 3)
            6 "cat" (Examples.world []))
     <> OutOfFuel
  /\ PixivSpec.searches
       (Pixiv.calls
          (snd (@Pixiv.searchTop3 Examples.engine Examples.scripted
                  (Examples.config 3) 6 "cat" (Examples.world []))))
     = 5%nat.
Proof.
  split; [lia|]. split.
  - apply (@searchTop3_terminates_within_budget Examples.engine Examples.scripted
             (Examples.config 3) 6 "cat" (Examples.world [])). lia.
  - vm_compute. reflexivity.
Defined.

(** An upstream that answers an empty batch to every attempt: five search
    calls, the ceilings 300, 200, 100, 50, 0, and an empty result. *)
Example searchTop3_on_empty_feed :
  let run := @Pixiv.searchTop3 Examples.engine Examples.scripted
               (Examples.config 3) 6 "cat" (Examples.world []) in
  fst run = Ok (Pixiv.mkResult [] 0 0 0 0)
  /\ map Pixiv.at_ceiling (Pixiv.attempts (snd run)) = [300; 200; 100; 50; 0]
  /\ PixivSpec.searches (Pixiv.calls (snd run)) = 5%nat.
Proof. vm_compute. repeat split. Qed.

(** Batches emptied by the maturity filter leave the ceiling where it is;
    empty batches move it down. *)
Example searchTop3_on_filtered_and_empty_batches :
  let run := @Pixiv.searchTop3 Examples.engine Examples.scripted
               (Examples.config 3) 6 "cat"
               (Examples.world Examples.filtered_and_empty) in
  map Pixiv.at_raw (Pixiv.attempts (snd run)) = [1; 0; 1; 0; 0]%nat
  /\ map Pixiv.at_ceiling (Pixiv.attempts (snd run)) = [300; 300; 200; 200; 100]
  /\ fst run = Ok (Pixiv.mkResult [] 2 2 0 0).
Proof. vm_compute. repeat split. Qed.

Lemma results_hold_at_most_resultCount_witness :
  let w := Examples.world Examples.growing in
  let run := @Pixiv.getRandomTop3 Examples.engine Examples.scripted
               (Examples.config 2) 6 w in
  let r := Pixiv.mkResult [Examples.safe 1 "title"; Examples.safe 3 "title"]
             3 0 0 0 in
  0 <= Pixiv.requiredCount (Examples.config 2)
  /\ run = (Ok r, snd run)
  /\ Z.of_nat (length (Pixiv.illusts r)) <= Pixiv.requiredCount (Examples.config 2)
  /\ map Pixiv.at_pool (Pixiv.attempts (snd run)) = [1; 3]%nat.
Proof.
  intros w run r.
  assert (Hcount : 0 <= Pixiv.requiredCount (Examples.config 2))
    by (vm_compute; discriminate).
  assert (Hrun : run = (Ok r, snd run)) by (vm_compute; reflexivity).
  split; [exact Hcount|]. split; [exact Hrun|]. split.
  - apply (proj1 (@results_hold_at_most_resultCount Examples.engine
                    Examples.scripted (Examples.config 2) 6 "" w Hcount)
             r (snd run)).
    right. exact Hrun.
  - vm_compute. reflexivity.
Defined.

(** C5 on the code.  The upstream answers a batch of one illustration that
    passes the three filters and has no image URL, and would answer three
    plain illustrations next.  [getRandomTop3] accepts nothing, rejects
    nothing, and leaves its loop after this first of three attempts with an
    empty result, although the raw batch was not empty: the second batch is
    never asked for. *)
Theorem getRandomTop3_stops_on_urlless_batch :
  let run := @Pixiv.getRandomTop3 Examples.engine Examples.scripted
               (Examples.config 3) 4
               (Examples.world Examples.urlless_then_plain) in
  fst run = Ok (Pixiv.mkResult [] 1 0 0 0)
  /\ map Pixiv.at_raw (Pixiv.attempts (snd run)) = [1%nat]
  /\ PixivSpec.recommendations (Pixiv.calls (snd run)) = 1%nat
  /\ Pixiv.feed (snd run)
     = [Pixiv.Resolves (Some [Examples.plain 2; Examples.plain 3; Examples.plain 4])].
Proof. vm_compute. repeat split. Qed.

(** The sibling loop on the same answers: [searchTop3] goes on to the second
    attempt and returns the three plain illustrations. *)
Example searchTop3_goes_on_after_urlless_batch :
  let run := @Pixiv.searchTop3 Examples.engine Examples.scripted
               (Examples.config 3) 6 "cat"
               (Examples.world Examples.urlless_then_plain) in
  map Pixiv.at_raw (Pixiv.attempts (snd run)) = [1; 3]%nat
  /\ (exists r, fst run = Ok r /\ map Pixiv.id (Pixiv.illusts r) = [3; 4; 2]).
Proof. vm_compute. split; [reflexivity|]. eexists. split; reflexivity. Qed.

(** The offset is the floor of the draw times ceiling + 1: a first draw of
    1/2 under the ceiling 300 asks for the offset 150. *)
Example searchTop3_offset_from_draw :
  let run := @Pixiv.searchTop3 Examples.engine Examples.scripted
               (Examples.config 3) 6 "cat"
               (Examples.world_with [2 ^ 52] [Pixiv.Rejects "timeout"]) in
  Pixiv.calls (snd run)
  = [Pixiv.CallLogin "refresh-token"; Pixiv.CallSearch "cat" 150]
  /\ fst run = Throw "timeout".
Proof. vm_compute. split; reflexivity. Qed.

Lemma searchTop3_offset_ceiling_witness :
  let oracle := [2 ^ 53 - 1; 0; 0; 3052273501606582; 2 ^ 52] in
  let w := Examples.world_with oracle Scenarios.restricted_batches in
  let run := @Pixiv.searchTop3 Examples.engine Examples.scripted
               (Examples.config 3) 6 "cat" w in
  let log := Pixiv.attempts (snd run) in
  map Pixiv.at_raw log = [3; 0; 1; 0; 0]%nat
  /\ map Pixiv.at_ceiling log = [300; 300; 200; 200; 100]
  /\ map Pixiv.at_offset log = [300; 102; 100; 0; 0]
  /\ filter Pixiv.is_search (Pixiv.calls (snd run))
     = map (PixivSpec.request "cat") log
  /\ (forall a,
        nth_error log 1 = Some a ->
        Pixiv.at_offset a = PixivSpec.offset_from 300 (skipn 3 oracle))
  /\ (forall a b,
        nth_error log 0 = Some a -> nth_error log 1 = Some b ->
        Pixiv.at_ceiling b = Pixiv.at_ceiling a)
  /\ (forall a b,
        nth_error log 1 = Some a -> nth_error log 2 = Some b ->
        Pixiv.at_ceiling b < Pixiv.at_ceiling a).
Proof.
  intros oracle w run log.
  pose proof (@searchTop3_offset_ceiling Examples.engine Examples.scripted
                (Examples.config 3) 6 "cat" w) as H.
  cbv zeta in H. fold run in H.
  destruct H as (log' & tail & Hlog & Hnth & Hadj & Hcalls & Htail & _).
  assert (Hsame : log' = log) by (symmetry; exact Hlog).
  subst log'.
  assert (Hraw : map Pixiv.at_raw log = [3; 0; 1; 0; 0]%nat)
    by (vm_compute; reflexivity).
  assert (Hceil : map Pixiv.at_ceiling log = [300; 300; 200; 200; 100])
    by (vm_compute; reflexivity).
  assert (Hoff : map Pixiv.at_offset log = [300; 102; 100; 0; 0])
    by (vm_compute; reflexivity).
  assert (Hok : exists r, fst run = Ok r)
    by (eexists; vm_compute; reflexivity).
  assert (Hnil : tail = []).
  { destruct Htail as [Ht|(e & He & _)]; [exact Ht|].
    destruct Hok as [r Hr]. rewrite Hr in He. discriminate He. }
  rewrite Hnil, app_nil_r in Hcalls.
  split; [exact Hraw|]. split; [exact Hceil|]. split; [exact Hoff|].
  split; [exact Hcalls|]. split; [|split].
  - intros a Ha. destruct (Hnth 1%nat a Ha) as (_ & Ho & _).
    assert (Hc : option_map Pixiv.at_ceiling (nth_error log 1) = Some 300)
      by (vm_compute; reflexivity).
    rewrite Ha in Hc. cbn [option_map] in Hc. injection Hc as Hc.
    rewrite Hc in Ho. rewrite Ho.
    assert (Hd : PixivSpec.draws (firstn 1 log) = 3%nat)
      by (vm_compute; reflexivity).
    rewrite Hd. reflexivity.
  - intros a b Ha Hb. apply (Hadj 0%nat a b Ha Hb).
    assert (Hr : option_map Pixiv.at_raw (nth_error log 0) = Some 3%nat)
      by (vm_compute; reflexivity).
    rewrite Ha in Hr. cbn in Hr. injection Hr as ->. discriminate.
  - intros a b Ha Hb. apply (Hadj 1%nat a b Ha Hb).
    assert (Hr : option_map Pixiv.at_raw (nth_error log 1) = Some 0%nat)
      by (vm_compute; reflexivity).
    rewrite Ha in Hr. cbn in Hr. injection Hr as ->. reflexivity.
Defined.

Lemma checkKeyword_first_enabled_match_witness :
  let hit := fst (@BannedWords.checkKeyword Examples.engine "tag (NSFW) gore"
                    Examples.service None) in
  hit = Some (BannedWords.mkBannedWord "r3" "(nsfw)" BannedWords.regex true 3)
  /\ (forall w, hit = Some w -> BannedWords.enabled w = true)
  /\ hit <> Some (BannedWords.mkBannedWord "r2" "gore" BannedWords.fuzzy false 2).
Proof.
  intros hit.
  destruct (@checkKeyword_first_enabled_match Examples.engine Examples.service
              None "tag (NSFW) gore") as (Hhit & Hsome & _ & Hdisabled).
  fold hit in Hhit, Hsome, Hdisabled.
  split; [|split].
  - rewrite Hhit. vm_compute. reflexivity.
  - intros w Hw. exact (proj1 (Hsome w Hw)).
  - apply Hdisabled. reflexivity.
Defined.

(* ================================================================== *)
(** * Part III.  Further properties of the services                     *)
(* ================================================================== *)

(** ** The rule list: add, update, remove, reload *)
Section BannedWordsCrud.
Import BannedWords.
Context {E : Js.Engine}.

Lemma ensureLoaded_in_sync (s : Service) (d : Disk) :
  in_sync s d -> words (ensureLoaded s d) = loadDataFile d [].
Proof.
  unfold in_sync, ensureLoaded. destruct (loaded s); auto.
Qed.

Lemma reload_words (s : Service) (d : Disk) :
  words (reload s d) = loadDataFile d [].
Proof. reflexivity. Qed.

(** X1.  Memory and disk stay in agreement.  From a service that agrees
    with the file (a fresh service does), every [add], [update] and
    [remove], whether it succeeds, throws or finds nothing, leaves a loaded
    service whose list is the content of the file, so that a [reload] right
    after it changes nothing. *)
Theorem rule_list_stays_in_sync :
  forall (s : Service) (d : Disk),
    in_sync s d ->
    (forall p mt uuid now,
        let '(_, s', d') := add p mt uuid now s d in
        loaded s' = true /\ in_sync s' d' /\ words (reload s' d') = words s')
    /\ (forall i u,
        let '(_, s', d') := update i u s d in
        loaded s' = true /\ in_sync s' d' /\ words (reload s' d') = words s')
    /\ (forall i,
        let '(_, s', d') := remove i s d in
        loaded s' = true /\ in_sync s' d' /\ words (reload s' d') = words s').
Proof.
  intros s d Hsync.
  pose proof (ensureLoaded_in_sync s d Hsync) as Hws.
  pose proof (loaded_ensureLoaded s d) as Hl.
  assert (Hkeep : loaded (ensureLoaded s d) = true
                  /\ in_sync (ensureLoaded s d) d
                  /\ words (reload (ensureLoaded s d) d) = words (ensureLoaded s d)).
  { split; [exact Hl|]. split; [intros _; exact Hws|].
    rewrite reload_words. now rewrite Hws. }
  assert (Hsaved : forall ws,
             loaded (mkService ws (loaded (ensureLoaded s d))) = true
             /\ in_sync (mkService ws (loaded (ensureLoaded s d))) (saveDataFile ws)
             /\ words (reload (mkService ws (loaded (ensureLoaded s d)))
                         (saveDataFile ws))
                = words (mkService ws (loaded (ensureLoaded s d)))).
  { intros ws. split; [exact Hl|]. split; [intros _; reflexivity|reflexivity]. }
  split; [|split].
  - intros p mt uuid now. unfold add.
    destruct (match mt with regex => _ | _ => false end);
      [exact Hkeep|apply Hsaved].
  - intros i u. unfold update.
    destruct (find_word i (words (ensureLoaded s d))) as [word|]; [|exact Hkeep].
    destruct (match Js.nullish (u_matchType u) (matchType word) with
              | regex => _ | _ => false end); [exact Hkeep|apply Hsaved].
  - intros i. unfold remove.
    destruct (findIndex i (words (ensureLoaded s d))); [apply Hsaved|exact Hkeep].
Qed.

Lemma findIndex_absent (i : string) (ws : list BannedWord) :
  (forall w, In w ws -> id w <> i) -> findIndex i ws = None.
Proof.
  induction ws as [|w ws IH]; intros Hno; cbn [findIndex]; [reflexivity|].
  destruct (String.eqb_spec (id w) i) as [Heq|_].
  - exfalso. apply (Hno w); [now left|exact Heq].
  - rewrite IH; [reflexivity|]. intros x Hx. apply Hno. now right.
Qed.

Lemma findIndex_first (i : string) (before after : list BannedWord)
      (w : BannedWord) :
  id w = i -> (forall x, In x before -> id x <> i) ->
  findIndex i (before ++ w :: after) = Some (length before).
Proof.
  intros Hw. induction before as [|b before IH]; intros Hno; cbn [app findIndex length].
  - rewrite Hw, String.eqb_refl. reflexivity.
  - destruct (String.eqb_spec (id b) i) as [Heq|_].
    + exfalso. apply (Hno b); [now left|exact Heq].
    + rewrite IH; [reflexivity|]. intros x Hx. apply Hno. now right.
Qed.

Lemma splice1_middle (before after : list BannedWord) (w : BannedWord) :
  splice1 (length before) (before ++ w :: after) = before ++ after.
Proof.
  unfold splice1. rewrite firstn_app, firstn_all, Nat.sub_diag.
  cbn [firstn]. rewrite app_nil_r. f_equal.
  induction before as [|b before IH]; cbn [length app skipn]; auto.
Qed.

(** A list that holds a rule with a given id splits at the first one. *)
Lemma split_at_first_id (i : string) (ws : list BannedWord) :
  (exists w, In w ws /\ id w = i) ->
  exists before w after,
    ws = before ++ w :: after /\ id w = i
    /\ forall x, In x before -> id x <> i.
Proof.
  induction ws as [|a ws IH]; intros (w & Hin & Hw); [destruct Hin|].
  destruct (String.eqb_spec (id a) i) as [Ha|Ha].
  - exists [], a, ws. split; [reflexivity|]. split; [exact Ha|]. intros x [].
  - destruct Hin as [->|Hin]; [contradiction|].
    destruct (IH (ex_intro _ w (conj Hin Hw))) as (before & w' & after & -> & Hw' & Hno).
    exists (a :: before), w', after. split; [reflexivity|]. split; [exact Hw'|].
    intros x [<-|Hx]; auto.
Qed.

Lemma remove_present (i : string) (s : Service) (d : Disk)
      (before after : list BannedWord) (w : BannedWord) :
  words (ensureLoaded s d) = before ++ w :: after ->
  id w = i ->
  (forall x, In x before -> id x <> i) ->
  remove i s d
  = (true, mkService (before ++ after) true, Some (before ++ after)).
Proof.
  intros Hsplit Hw Hno. unfold remove.
  rewrite Hsplit, (findIndex_first i before after w Hw Hno), splice1_middle.
  rewrite loaded_ensureLoaded. reflexivity.
Qed.

(** X2.  [remove] of an id that no rule carries answers false and changes
    neither the list nor the file.  Otherwise it answers true and removes
    exactly the first rule with that id: the rules before it and after it
    are kept, in their order, in memory and on disk. *)
Theorem remove_first_rule_with_id :
  forall (i : string) (s : Service) (d : Disk),
    let stored := words (ensureLoaded s d) in
    ((forall w, In w stored -> id w <> i) ->
       remove i s d = (false, ensureLoaded s d, d))
    /\ (forall before w after,
          stored = before ++ w :: after -> id w = i ->
          (forall x, In x before -> id x <> i) ->
          remove i s d
          = (true, mkService (before ++ after) true, Some (before ++ after))).
Proof.
  intros i s d stored. split.
  - intros Hno. unfold remove. fold stored.
    rewrite (findIndex_absent i stored Hno). reflexivity.
  - intros before w after Hsplit Hw Hno.
    exact (remove_present i s d before after w Hsplit Hw Hno).
Qed.

(** X3.  Adding a rule under an id that no stored rule carries and removing
    that id again gives back the list as it was, in memory and on disk. *)
Theorem add_then_remove_restores :
  forall (p : string) (mt : BannedWordMatchType) (uuid : string) (now : Z)
         (s : Service) (d : Disk) (word : BannedWord) (s1 : Service) (d1 : Disk),
    (forall w, In w (words (ensureLoaded s d)) -> id w <> uuid) ->
    add p mt uuid now s d = (Ok word, s1, d1) ->
    remove uuid s1 d1
    = (true, mkService (words (ensureLoaded s d)) true,
       Some (words (ensureLoaded s d))).
Proof.
  intros p mt uuid now s d word s1 d1 Hfresh Hadd. unfold add in Hadd.
  destruct (match mt with regex => _ | _ => false end); [discriminate|].
  injection Hadd as <- <- <-.
  rewrite (remove_present uuid _ _ (words (ensureLoaded s d)) []
             (mkBannedWord uuid p mt true now)).
  - rewrite app_nil_r. reflexivity.
  - rewrite ensureLoaded_loaded by apply loaded_ensureLoaded. reflexivity.
  - reflexivity.
  - exact Hfresh.
Qed.

Lemma find_word_first (i : string) (before after : list BannedWord)
      (w : BannedWord) :
  id w = i -> (forall x, In x before -> id x <> i) ->
  find_word i (before ++ w :: after) = Some w.
Proof.
  intros Hw. unfold find_word.
  induction before as [|b before IH]; intros Hno; cbn [app find].
  - rewrite Hw, String.eqb_refl. reflexivity.
  - destruct (String.eqb_spec (id b) i) as [Heq|_].
    + exfalso. apply (Hno b); [now left|exact Heq].
    + apply IH. intros x Hx. apply Hno. now right.
Qed.

Lemma replace_first_middle (i : string) (before after : list BannedWord)
      (w w' : BannedWord) :
  id w = i -> (forall x, In x before -> id x <> i) ->
  replace_first i w' (before ++ w :: after) = before ++ w' :: after.
Proof.
  intros Hw. induction before as [|b before IH]; intros Hno;
    cbn [app replace_first].
  - rewrite Hw, String.eqb_refl. reflexivity.
  - destruct (String.eqb_spec (id b) i) as [Heq|_].
    + exfalso. apply (Hno b); [now left|exact Heq].
    + f_equal. apply IH. intros x Hx. apply Hno. now right.
Qed.

Lemma apply_updates_fields (u : Updates) (w : BannedWord) :
  apply_updates u w
  = mkBannedWord (id w) (Js.nullish (u_pattern u) (pattern w))
      (Js.nullish (u_matchType u) (matchType w))
      (Js.nullish (u_enabled u) (enabled w)) (createdAt w).
Proof.
  destruct u as [[p|] [m|] [e|]], w; reflexivity.
Qed.

Lemma update_found (i : string) (u : Updates) (s : Service) (d : Disk)
      (word : BannedWord) :
  find_word i (words (ensureLoaded s d)) = Some word ->
  (Js.nullish (u_matchType u) (matchType word) = regex ->
   Js.new_RegExp (Js.nullish (u_pattern u) (pattern word)) "" <> None) ->
  update i u s d
  = (Ok (Some (apply_updates u word)),
     mkService (replace_first i (apply_updates u word)
                  (words (ensureLoaded s d))) true,
     Some (replace_first i (apply_updates u word) (words (ensureLoaded s d)))).
Proof.
  intros Hfind Hvalid. unfold update. rewrite Hfind, loaded_ensureLoaded.
  destruct (Js.nullish (u_matchType u) (matchType word)) eqn:Hmt;
    try reflexivity.
  destruct (Js.new_RegExp (Js.nullish (u_pattern u) (pattern word)) "")
    eqn:Hre; [reflexivity|].
  exfalso. now apply Hvalid.
Qed.

(** X4.  A successful [update] changes one rule only: the first rule with
    the id gets the fields that the argument defines and keeps the others,
    its id and its creation time; the rules before and after it stay as
    they are, in their order; memory and disk hold the new list, and the
    updated rule is returned. *)
Theorem update_changes_first_rule_with_id :
  forall (i : string) (u : Updates) (s : Service) (d : Disk)
         (before after : list BannedWord) (w : BannedWord),
    words (ensureLoaded s d) = before ++ w :: after ->
    id w = i ->
    (forall x, In x before -> id x <> i) ->
    (Js.nullish (u_matchType u) (matchType w) = regex ->
     Js.new_RegExp (Js.nullish (u_pattern u) (pattern w)) "" <> None) ->
    let w' := mkBannedWord (id w) (Js.nullish (u_pattern u) (pattern w))
                (Js.nullish (u_matchType u) (matchType w))
                (Js.nullish (u_enabled u) (enabled w)) (createdAt w) in
    update i u s d
    = (Ok (Some w'), mkService (before ++ w' :: after) true,
       Some (before ++ w' :: after)).
Proof.
  intros i u s d before after w Hsplit Hw Hno Hvalid w'.
  rewrite (update_found i u s d w); [|rewrite Hsplit|exact Hvalid].
  - rewrite Hsplit, (replace_first_middle i before after w _ Hw Hno).
    rewrite apply_updates_fields. reflexivity.
  - exact (find_word_first i before after w Hw Hno).
Qed.

Lemma In_replace_first (i : string) (w' x : BannedWord) (ws : list BannedWord) :
  In x (replace_first i w' ws) -> x = w' \/ In x ws.
Proof.
  induction ws as [|a ws IH]; cbn [replace_first]; [intros []|].
  destruct (String.eqb (id a) i).
  - intros [<-|Hx]; [now left|right; now right].
  - intros [<-|Hx]; [right; now left|].
    destruct (IH Hx); [now left|right; now right].
Qed.

Lemma In_splice1 (idx : nat) (x : BannedWord) (ws : list BannedWord) :
  In x (splice1 idx ws) -> In x ws.
Proof.
  unfold splice1. intros Hx. apply in_app_or in Hx.
  rewrite <- (firstn_skipn idx ws). apply in_or_app.
  destruct Hx as [Hx|Hx]; [now left|right].
  rewrite <- (firstn_skipn 1 (skipn idx ws)). apply in_or_app. right.
  rewrite skipn_skipn. exact Hx.
Qed.

(** X5.  Write-time validation keeps the list well formed: when every
    regex rule of the stored list compiles, every regex rule of the list
    left by an [add], an [update] or a [remove] compiles, whatever the
    operation answered. *)
Theorem regex_rules_stay_valid :
  forall (s : Service) (d : Disk),
    all_regex_valid (words (ensureLoaded s d)) ->
    (forall p mt uuid now,
        all_regex_valid (words (snd (fst (add p mt uuid now s d)))))
    /\ (forall i u, all_regex_valid (words (snd (fst (update i u s d)))))
    /\ (forall i, all_regex_valid (words (snd (fst (remove i s d))))).
Proof.
  intros s d Hvalid. split; [|split].
  - intros p mt uuid now. unfold add.
    destruct mt; cbn [fst snd words]; try exact Hvalid.
    + destruct (Js.new_RegExp p "") eqn:Hre; cbn [fst snd words];
        [|exact Hvalid].
      intros w Hin Hw. apply in_app_or in Hin. destruct Hin as [Hin|[<-|[]]].
      * now apply Hvalid.
      * cbn [pattern]. congruence.
    + intros w Hin Hw. apply in_app_or in Hin. destruct Hin as [Hin|[<-|[]]];
        [now apply Hvalid|discriminate].
    + intros w Hin Hw. apply in_app_or in Hin. destruct Hin as [Hin|[<-|[]]];
        [now apply Hvalid|discriminate].
  - intros i u. unfold update.
    destruct (find_word i (words (ensureLoaded s d))) as [word|] eqn:Hf;
      cbn [fst snd]; [|exact Hvalid].
    rewrite apply_updates_fields.
    destruct (Js.nullish (u_matchType u) (matchType word)) eqn:Hmt.
    + destruct (Js.new_RegExp (Js.nullish (u_pattern u) (pattern word)) "")
        eqn:Hre; cbn [fst snd words]; [|exact Hvalid].
      intros w Hin Hw. apply In_replace_first in Hin.
      destruct Hin as [->|Hin]; [cbn [pattern]; congruence|now apply Hvalid].
    + cbn [fst snd words]. intros w Hin Hw. apply In_replace_first in Hin.
      destruct Hin as [->|Hin]; [discriminate|now apply Hvalid].
    + cbn [fst snd words]. intros w Hin Hw. apply In_replace_first in Hin.
      destruct Hin as [->|Hin]; [discriminate|now apply Hvalid].
  - intros i. unfold remove.
    destruct (findIndex i (words (ensureLoaded s d))); cbn [fst snd words];
      [|exact Hvalid].
    intros w Hin Hw. apply In_splice1 in Hin. now apply Hvalid.
Qed.

Lemma matchText_spec (text : string) (s : Service) (d : Disk) :
  matchText text s d
  = (first_enabled_match text (words (ensureLoaded s d)), ensureLoaded s d).
Proof.
  unfold matchText, getEnabled. cbn beta iota zeta.
  now rewrite matchText_loop_filter.
Qed.

Lemma first_enabled_match_sound (text : string) (ws : list BannedWord)
      (hit : BannedWord) :
  first_enabled_match text ws = Some hit ->
  In hit ws /\ enabled hit = true /\ rule_matches text hit = true.
Proof.
  unfold first_enabled_match. intros Hf. apply find_some in Hf.
  destruct Hf as [Hin Hp]. apply andb_true_iff in Hp. tauto.
Qed.

Lemma first_enabled_match_complete (text : string) (ws : list BannedWord)
      (w : BannedWord) :
  In w ws -> enabled w = true -> rule_matches text w = true ->
  exists hit, first_enabled_match text ws = Some hit.
Proof.
  unfold first_enabled_match. intros Hin He Hm.
  destruct (find _ ws) as [hit|] eqn:Hf; [eauto|].
  pose proof (find_none _ _ Hf w Hin) as Hp. cbv beta in Hp.
  rewrite He, Hm in Hp. discriminate.
Qed.

(** X6.  With pairwise different ids and compiling regex rules, disabling
    a stored rule by [update(id, {enabled: false})] succeeds, and from then
    on [checkKeyword] never answers a rule with that id, whatever the
    keyword. *)
Theorem disabled_rule_never_answers :
  forall (i : string) (s : Service) (d : Disk),
    NoDup (map id (words (ensureLoaded s d))) ->
    all_regex_valid (words (ensureLoaded s d)) ->
    (exists w, In w (words (ensureLoaded s d)) /\ id w = i) ->
    let '(r, s', d') := update i disable s d in
    (exists w', r = Ok (Some w') /\ id w' = i /\ enabled w' = false)
    /\ forall keyword hit,
         fst (checkKeyword keyword s' d') = Some hit -> id hit <> i.
Proof.
  intros i s d Hnd Hvalid Hex.
  destruct (split_at_first_id i _ Hex) as (before & w & after & Hsplit & Hw & Hno).
  rewrite (update_found i disable s d w).
  2:{ rewrite Hsplit. exact (find_word_first i before after w Hw Hno). }
  2:{ cbn [disable u_matchType u_pattern Js.nullish]. intros Hmt.
      apply Hvalid; [rewrite Hsplit; apply in_elt|exact Hmt]. }
  rewrite Hsplit, (replace_first_middle i before after w _ Hw Hno).
  rewrite apply_updates_fields.
  cbn [disable u_matchType u_pattern u_enabled Js.nullish].
  split; [eexists; split; [reflexivity|]; cbn [id enabled]; auto|].
  intros keyword hit Hhit.
  unfold checkKeyword in Hhit. rewrite matchText_spec in Hhit. cbn [fst] in Hhit.
  rewrite ensureLoaded_loaded in Hhit by reflexivity. cbn [words] in Hhit.
  apply first_enabled_match_sound in Hhit. destruct Hhit as (Hin & He & _).
  intros Hid. rewrite Hsplit, map_app in Hnd. cbn [map] in Hnd.
  apply in_app_or in Hin. destruct Hin as [Hin|[<-|Hin]].
  - exact (Hno hit Hin Hid).
  - discriminate He.
  - apply NoDup_remove_2 in Hnd. apply Hnd. apply in_or_app. right.
    rewrite Hw, <- Hid. now apply in_map.
Qed.

(** X7.  A rule takes effect as soon as it is added: after a successful
    [add], [checkKeyword] answers an enabled matching rule for every text
    that the new rule matches. *)
Theorem added_rule_takes_effect :
  forall (p : string) (mt : BannedWordMatchType) (uuid : string) (now : Z)
         (s : Service) (d : Disk) (word : BannedWord) (s1 : Service) (d1 : Disk)
         (text : string),
    add p mt uuid now s d = (Ok word, s1, d1) ->
    rule_matches text word = true ->
    word = mkBannedWord uuid p mt true now
    /\ exists hit,
         fst (checkKeyword text s1 d1) = Some hit
         /\ enabled hit = true /\ rule_matches text hit = true.
Proof.
  intros p mt uuid now s d word s1 d1 text Hadd Hm. unfold add in Hadd.
  destruct (match mt with regex => _ | _ => false end); [discriminate|].
  injection Hadd as <- <- <-. split; [reflexivity|].
  unfold checkKeyword. rewrite matchText_spec. cbn [fst].
  rewrite ensureLoaded_loaded by apply loaded_ensureLoaded. cbn [words].
  destruct (first_enabled_match_complete text
              (words (ensureLoaded s d) ++ [mkBannedWord uuid p mt true now])
              (mkBannedWord uuid p mt true now))
    as [hit Hhit]; [apply in_or_app; right; now left|reflexivity|exact Hm|].
  exists hit. split; [exact Hhit|].
  apply first_enabled_match_sound in Hhit. tauto.
Qed.

Lemma checkTags_fst (d : Disk) (tags : list Tag) :
  forall s : Service,
    fst (checkTags tags s d)
    = first_hit
        (map (fun t => first_enabled_match t (words (ensureLoaded s d)))
           (flat_map (fun tag => if Js.truthy (name tag)
                                 then [Js.nullish (name tag) ""] else [])
              tags)).
Proof.
  induction tags as [|tag tags IH]; intros s; cbn [checkTags flat_map];
    [reflexivity|].
  destruct (Js.truthy (name tag)); [|apply IH].
  rewrite matchText_spec. cbn [app map first_hit].
  destruct (first_enabled_match _ _) as [w|]; [reflexivity|].
  rewrite IH, ensureLoaded_idem. reflexivity.
Qed.

Lemma first_hit_none (answers : list (option BannedWord)) :
  first_hit answers = None <-> forall a, In a answers -> a = None.
Proof.
  induction answers as [|[w|] answers IH]; cbn [first_hit].
  - split; [intros _ a []|reflexivity].
  - split; [discriminate|]. intros H. apply (H (Some w)). now left.
  - rewrite IH. split.
    + intros H a [<-|Ha]; auto.
    + intros H a Ha. apply H. now right.
Qed.

Lemma checkIllust_fst (title : option string) (tags : option (list Tag))
      (s : Service) (d : Disk) :
  fst (checkIllust title tags s d)
  = first_hit (map (fun t => first_enabled_match t (words (ensureLoaded s d)))
                 (checked_texts title tags)).
Proof.
  unfold checkIllust, checked_texts. rewrite map_app.
  destruct (Js.truthy title).
  - rewrite matchText_spec. cbn [map app first_hit].
    destruct (first_enabled_match _ _) as [w|]; [reflexivity|].
    destruct tags as [tags|]; cbn [Js.nullish flat_map map first_hit fst];
      [|reflexivity].
    rewrite checkTags_fst, ensureLoaded_idem. reflexivity.
  - cbn [map app]. destruct tags as [tags|];
      cbn [Js.nullish flat_map map first_hit fst]; [|reflexivity].
    apply checkTags_fst.
Qed.

Lemma checkTags_snd (d : Disk) (tags : list Tag) :
  forall s : Service,
    snd (checkTags tags s d) = s \/ snd (checkTags tags s d) = ensureLoaded s d.
Proof.
  induction tags as [|tag tags IH]; intros s; cbn [checkTags]; [now left|].
  destruct (Js.truthy (name tag)); [|apply IH].
  rewrite matchText_spec.
  destruct (first_enabled_match _ _) as [w|]; [now right|].
  right. destruct (IH (ensureLoaded s d)) as [H|H]; rewrite H;
    [reflexivity|apply ensureLoaded_idem].
Qed.

(** [checkIllust] leaves the service as it was or loaded. *)
Lemma checkIllust_snd (title : option string) (tags : option (list Tag))
      (s : Service) (d : Disk) :
  snd (checkIllust title tags s d) = s
  \/ snd (checkIllust title tags s d) = ensureLoaded s d.
Proof.
  unfold checkIllust. destruct (Js.truthy title).
  - rewrite matchText_spec.
    destruct (first_enabled_match _ _) as [w|]; [now right|].
    destruct tags as [tags|]; [|now right].
    right. destruct (checkTags_snd d tags (ensureLoaded s d)) as [H|H];
      rewrite H; [reflexivity|apply ensureLoaded_idem].
  - destruct tags as [tags|]; [apply checkTags_snd|now left].
Qed.

(** X8.  [checkIllust] answers the first hit of the matcher over the title,
    if it is not empty, and then the tag names that are not empty, in
    order; it answers none exactly when no enabled rule matches any of
    these texts. *)
Theorem checkIllust_title_then_tags :
  forall (title : option string) (tags : option (list Tag))
         (s : Service) (d : Disk),
    let stored := words (ensureLoaded s d) in
    fst (checkIllust title tags s d)
    = first_hit (map (fun t => first_enabled_match t stored)
                   (checked_texts title tags))
    /\ (fst (checkIllust title tags s d) = None <->
        forall t w, In t (checked_texts title tags) -> In w stored ->
                    enabled w = true -> rule_matches t w = false).
Proof.
  intros title tags s d stored.
  assert (Hfst : fst (checkIllust title tags s d)
                 = first_hit (map (fun t => first_enabled_match t stored)
                                (checked_texts title tags)))
    by apply checkIllust_fst.
  split; [exact Hfst|]. rewrite Hfst, first_hit_none. split.
  - intros Hall t w Ht Hw He.
    specialize (Hall (first_enabled_match t stored)
                  (in_map (fun t => first_enabled_match t stored) _ t Ht)).
    pose proof (find_none _ _ Hall w Hw) as Hp. cbv beta in Hp.
    rewrite He in Hp. exact Hp.
  - intros Hall a Ha. apply in_map_iff in Ha. destruct Ha as (t & <- & Ht).
    unfold first_enabled_match.
    destruct (find _ stored) as [w|] eqn:Hf; [|reflexivity].
    apply find_some in Hf. destruct Hf as [Hw Hp].
    apply andb_true_iff in Hp. destruct Hp as [He Hm].
    rewrite (Hall t w Ht Hw He) in Hm. discriminate.
Qed.

End BannedWordsCrud.

(** ** The filter and extraction stage: what it accepts *)
Section ExtractionProperties.
Import Js Pixiv PixivSpec.
Context {E : Engine} {F : FeedClient}.

Local Abbreviation World := (@World F).

Lemma set_nth_swap_head {A : Type} (j : nat) (h x : A) (t : list A) :
  nth_error t j = Some x ->
  Permutation (h :: t) (x :: set_nth j h t).
Proof.
  revert j. induction t as [|y t IH]; intros [|j] Hj; try discriminate.
  - injection Hj as <-. cbn [set_nth]. apply perm_swap.
  - cbn [nth_error] in Hj. cbn [set_nth].
    eapply perm_trans; [apply perm_swap|].
    eapply perm_trans; [apply perm_skip, (IH j Hj)|]. apply perm_swap.
Qed.

Lemma set_nth_same {A : Type} (i : nat) (x : A) (l : list A) :
  nth_error l i = Some x -> set_nth i x l = l.
Proof.
  revert i. induction l as [|h t IH]; intros [|i] Hi; try discriminate.
  - injection Hi as <-. reflexivity.
  - cbn [set_nth]. f_equal. apply IH. exact Hi.
Qed.

Lemma swap_Permutation {A : Type} (l : list A) :
  forall i j : nat, Permutation l (swap i j l).
Proof.
  induction l as [|h t IH]; intros i j.
  - unfold swap. destruct i, j; reflexivity.
  - destruct i as [|i], j as [|j].
    + unfold swap. cbn [nth_error set_nth]. reflexivity.
    + unfold swap. cbn [nth_error].
      destruct (nth_error t j) as [x|] eqn:Hj; [|reflexivity].
      cbn [set_nth]. apply set_nth_swap_head. exact Hj.
    + unfold swap. cbn [nth_error].
      destruct (nth_error t i) as [x|] eqn:Hi; [|reflexivity].
      cbn [set_nth]. apply set_nth_swap_head. exact Hi.
    + specialize (IH i j). unfold swap in *. cbn [nth_error].
      destruct (nth_error t i), (nth_error t j); try reflexivity.
      cbn [set_nth]. apply perm_skip. exact IH.
Qed.

Lemma floor_random_times_rules (n : Z) (w : World) :
  returns (floor_random_times n) w
    (fun _ w' => banned w' = banned w /\ disk w' = disk w).
Proof.
  unfold returns, wp, floor_random_times.
  destruct (random_floor n (random w)) as [j rng]. cbn [fst snd].
  split; reflexivity.
Qed.

Lemma fisher_yates_Permutation (i : nat) (l : list RawIllust) (w : World) :
  returns (fisher_yates i l) w
    (fun l' w' => Permutation l l' /\ banned w' = banned w /\ disk w' = disk w).
Proof.
  revert l w. induction i as [|i IH]; intros l w; cbn [fisher_yates].
  - apply returns_ret. auto.
  - eapply returns_bind; [apply floor_random_times_rules|].
    intros j w1 [Hb Hd]. eapply returns_mono; [apply IH|].
    intros l' w' (Hp & Hb' & Hd'). split; [|split; congruence].
    eapply perm_trans; [apply swap_Permutation|exact Hp].
Qed.

(** X9.  The shuffle of [extractTopSafe] loses and invents nothing: the
    list the loop iterates over is a permutation of the batch (the batch
    itself without shuffle), whatever Math.random answers. *)
Theorem extractTopSafe_iterates_a_permutation :
  forall (config : PluginConfig) (batch : list RawIllust) (shuffle : bool)
         (w : World),
    exists iterated sc w',
      extractTopSafe_scan config batch shuffle w = (Ok (iterated, sc), w')
      /\ Permutation batch iterated
      /\ (shuffle = false -> iterated = batch).
Proof.
  intros config batch shuffle w. unfold extractTopSafe_scan.
  assert (Hsh : returns (if shuffle && (0 <? Z.of_nat (length batch))
                         then fisher_yates (length batch - 1) batch
                         else ret batch) w
                  (fun l' _ => Permutation batch l'
                               /\ (shuffle = false -> l' = batch))).
  { destruct shuffle; cbn [andb].
    - destruct (0 <? Z.of_nat (length batch)).
      + eapply returns_mono; [apply fisher_yates_Permutation|].
        intros l' w' (Hp & _). split; [exact Hp|discriminate].
      + apply returns_ret. split; [reflexivity|discriminate].
    - apply returns_ret. split; reflexivity. }
  unfold returns, wp in Hsh.
  set (sh := if shuffle && (0 <? Z.of_nat (length batch))
             then fisher_yates (length batch - 1) batch
             else ret batch) in *.
  unfold bind at 1.
  destruct (sh w) as [[l'|e|] w1]; cbn [fst snd] in Hsh; try contradiction.
  pose proof (extract_loop_spec config (requiredCount config) l' scan0 w1) as Hloop.
  unfold returns, wp in Hloop. unfold bind.
  destruct (extract_loop config (requiredCount config) l' scan0 w1)
    as [[sc|e|] w2]; cbn [fst snd] in Hloop; try contradiction.
  exists l', sc, w2. split; [reflexivity|exact Hsh].
Qed.

Lemma checkIllust_loaded_or_not (title : option string)
      (tags : option (list BannedWords.Tag)) (s : BannedWords.Service)
      (d : BannedWords.Disk) :
  fst (BannedWords.checkIllust title tags (BannedWords.ensureLoaded s d) d)
  = fst (BannedWords.checkIllust title tags s d).
Proof. now rewrite !checkIllust_fst, ensureLoaded_idem. Qed.

Lemma bannedWords_checkIllust_rules (s : BannedWords.Service)
      (d : BannedWords.Disk) (illust : RawIllust) (w : World) :
  same_rules s d w ->
  returns (bannedWords_checkIllust illust) w
    (fun hit w' =>
       same_rules s d w'
       /\ hit = fst (BannedWords.checkIllust (raw_title illust) (tags illust) s d)).
Proof.
  intros [Hd Hb]. unfold returns, wp, bannedWords_checkIllust.
  pose proof (checkIllust_snd (raw_title illust) (tags illust) (banned w) (disk w))
    as Hsnd.
  destruct (BannedWords.checkIllust (raw_title illust) (tags illust)
              (banned w) (disk w)) as [hit s'] eqn:Hc.
  cbn [fst snd] in *. unfold same_rules. cbn [disk banned].
  assert (Hhit : hit = fst (BannedWords.checkIllust (raw_title illust)
                              (tags illust) s d)).
  { replace hit with (fst (BannedWords.checkIllust (raw_title illust)
                             (tags illust) (banned w) (disk w)))
      by (rewrite Hc; reflexivity).
    rewrite Hd. destruct Hb as [->| ->];
      [reflexivity|apply checkIllust_loaded_or_not]. }
  split; [split; [exact Hd|]|exact Hhit].
  rewrite Hd in Hsnd.
  destruct Hb as [Hb|Hb]; rewrite Hb in Hsnd; destruct Hsnd as [->| ->]; auto.
  right. apply ensureLoaded_idem.
Qed.

(** The loop keeps two facts about its accumulator: every accepted item
    is the projection of an illustration of the batch that passes the
    filters, and no more than [count] items are accepted. *)
Lemma extract_loop_accepts (config : PluginConfig) (count : Z)
      (s : BannedWords.Service) (d : BannedWords.Disk)
      (all : list RawIllust) (batch : list RawIllust) :
  forall (acc : Scan) (w : World),
    same_rules s d w ->
    (forall raw, In raw batch -> In raw all) ->
    (forall x, In x (sc_result acc) ->
       exists raw, In raw all /\ x = projection raw
                   /\ passes_filters config s d raw) ->
    Z.of_nat (length (sc_result acc)) <= Z.max 0 count ->
    returns (extract_loop config count batch acc) w
      (fun sc w' =>
         same_rules s d w'
         /\ (forall x, In x (sc_result sc) ->
               exists raw, In raw all /\ x = projection raw
                           /\ passes_filters config s d raw)
         /\ Z.of_nat (length (sc_result sc)) <= Z.max 0 count).
Proof.
  induction batch as [|illust rest IH]; intros acc w Hrules Hsub Hacc Hlen.
  - cbn [extract_loop]. apply returns_ret. auto.
  - assert (Hrest : forall raw, In raw rest -> In raw all)
      by (intros raw Hr; apply Hsub; now right).
    cbn [extract_loop].
    destruct (Z.geb_spec (Z.of_nat (length (sc_result acc))) count) as [Hfull|Hroom].
    { apply returns_ret. cbn [sc_result]. auto. }
    destruct (negb (flag (r18Enabled config))
              && match xRestrict illust with
                 | Some x => negb (x =? 0)
                 | None => false
                 end) eqn:Hr18.
    { apply IH; auto. }
    destruct (negb (flag (sensitiveEnabled config))
              && (nullish (sanityLevel illust) (nullish (sanity_level illust) 0)
                  >=? 4)) eqn:Hsens.
    { apply IH; auto. }
    eapply returns_bind; [apply (bannedWords_checkIllust_rules s d illust w Hrules)|].
    intros hit w1 [Hrules1 Hhit]. cbv beta.
    destruct hit as [word|].
    { apply IH; auto. }
    fold (resolved_url illust).
    destruct (truthy (resolved_url illust)) eqn:Hurl; cbn [negb].
    2:{ apply IH; auto. }
    apply IH; auto; cbn [sc_result].
    + intros x Hx. apply in_app_or in Hx. destruct Hx as [Hx|[<-|[]]]; [auto|].
      exists illust. split; [apply Hsub; now left|]. split; [reflexivity|].
      unfold passes_filters. repeat split.
      * intros Hflag. rewrite Hflag in Hr18. cbn [negb andb] in Hr18.
        destruct (xRestrict illust) as [x|]; [|now left].
        right. f_equal. apply negb_false_iff in Hr18. lia.
      * intros Hflag. rewrite Hflag in Hsens. cbn [negb andb] in Hsens.
        destruct (Z.geb_spec (nullish (sanityLevel illust)
                                (nullish (sanity_level illust) 0)) 4);
          [discriminate|lia].
      * symmetry. exact Hhit.
      * exact Hurl.
    + rewrite length_app. cbn [length]. lia.
Qed.

Lemma extractTopSafe_accepts (config : PluginConfig) (batch : list RawIllust)
      (shuffle : bool) (w : World) :
  returns (extractTopSafe config batch shuffle) w
    (fun r w' =>
       same_rules (banned w) (disk w) w'
       /\ (forall x, In x (illusts r) ->
             exists raw, In raw batch /\ x = projection raw
                         /\ passes_filters config (banned w) (disk w) raw)
       /\ Z.of_nat (length (illusts r)) <= Z.max 0 (requiredCount config)).
Proof.
  unfold extractTopSafe, extractTopSafe_scan.
  eapply returns_bind; [|intros bs w2 H; apply returns_ret; exact H].
  eapply returns_bind with
    (P := fun l' w1 => Permutation batch l'
                       /\ same_rules (banned w) (disk w) w1).
  - destruct (shuffle && _).
    + eapply returns_mono; [apply fisher_yates_Permutation|].
      intros l' w1 (Hp & Hb & Hd). split; [exact Hp|].
      split; [exact Hd|left; exact Hb].
    + apply returns_ret. split; [reflexivity|]. split; [reflexivity|now left].
  - intros l' w1 [Hp Hrules].
    eapply returns_bind;
      [apply (extract_loop_accepts config (requiredCount config)
                (banned w) (disk w) batch l' scan0 w1 Hrules)|].
    + intros raw Hr. eapply Permutation_in; [symmetry; exact Hp|exact Hr].
    + intros x [].
    + cbn [scan0 sc_result length]. lia.
    + intros sc w2 H. apply returns_ret. cbn [fst snd illusts]. exact H.
Qed.

(** X10.  [extractTopSafe] accepts nothing it should filter: every item
    of its result is the projection (id, title, author or the placeholder,
    original URL before large before medium) of an illustration of the
    batch that is not age-restricted unless R-18 is enabled, has a sanity
    level below 4 unless sensitive content is enabled, is not hit by the
    banned words on its title or tags, and has an image URL that is not
    empty. *)
Theorem extractTopSafe_accepts_only_passing_items :
  forall (config : PluginConfig) (batch : list RawIllust) (shuffle : bool)
         (w : World),
    exists r w',
      extractTopSafe config batch shuffle w = (Ok r, w')
      /\ forall x, In x (illusts r) ->
           exists raw,
             In raw batch /\ x = projection raw
             /\ passes_filters config (banned w) (disk w) raw
             /\ imageUrl x <> "".
Proof.
  intros config batch shuffle w.
  pose proof (extractTopSafe_accepts config batch shuffle w) as H.
  unfold returns, wp in H.
  destruct (extractTopSafe config batch shuffle w) as [[r|e|] w'];
    cbn [fst snd] in H; try contradiction.
  exists r, w'. split; [reflexivity|].
  destruct H as (_ & Hacc & _). intros x Hx.
  destruct (Hacc x Hx) as (raw & Hin & -> & Hpass).
  exists raw. split; [exact Hin|]. split; [reflexivity|].
  split; [exact Hpass|].
  destruct Hpass as (_ & _ & _ & Hurl). cbn [projection imageUrl].
  destruct (resolved_url raw) as [u|]; [|discriminate Hurl].
  cbn [nullish truthy] in *. intros Hu. rewrite Hu in Hurl. discriminate Hurl.
Qed.

(** X11.  [extractTopSafe] never accepts more items than the target count
    (no item at all when the count is not positive), and it counts the
    whole batch as scanned. *)
Theorem extractTopSafe_accepts_at_most_count :
  forall (config : PluginConfig) (batch : list RawIllust) (shuffle : bool)
         (w : World),
    exists r w',
      extractTopSafe config batch shuffle w = (Ok r, w')
      /\ Z.of_nat (length (illusts r)) <= Z.max 0 (requiredCount config)
      /\ totalScanned r = length batch.
Proof.
  intros config batch shuffle w.
  pose proof (extractTopSafe_accepts config batch shuffle w) as H.
  pose proof (extractTopSafe_spec config batch shuffle w) as H'.
  unfold returns, wp in H, H'.
  destruct (extractTopSafe config batch shuffle w) as [[r|e|] w'];
    cbn [fst snd] in H, H'; try contradiction.
  exists r, w'. split; [reflexivity|]. split; [apply H|apply H'].
Qed.

End ExtractionProperties.

(** ** The acquisition service: login, calls and tallies *)
Section SessionProperties.
Import Js Pixiv PixivSpec.
Context {E : Engine} {F : FeedClient}.

Local Abbreviation World := (@World F).

(** X12.  [getRandomTop3] adds at most 3 recommendation calls to the
    record, and with any fuel above 3 it completes, by returning or by
    throwing, whatever the upstream answers. *)
Theorem getRandomTop3_terminates_within_budget :
  forall (config : PluginConfig) (fuel : nat) (w : World),
    (recommendations (calls (snd (getRandomTop3 config fuel w)))
     <= recommendations (calls w) + 3)%nat
    /\ ((3 < fuel)%nat -> fst (getRandomTop3 config fuel w) <> OutOfFuel).
Proof.
  intros config fuel w.
  destruct (getRandomTop3_spec config fuel w)
    as (log & (_ & _ & Hcalls & Hfuel & _)).
  split; [exact Hcalls|exact Hfuel].
Qed.

Lemma ensureLoggedIn_logged (config : PluginConfig) (w : World) :
  isLoggedIn w = true -> ensureLoggedIn config w = (Ok tt, w).
Proof.
  intros Hl. unfold ensureLoggedIn, bind, get_isLoggedIn. rewrite Hl.
  reflexivity.
Qed.

Lemma ensureLoggedIn_no_token (config : PluginConfig) (w : World) :
  isLoggedIn w = false ->
  truthy (pixivRefreshToken config) = false ->
  ensureLoggedIn config w = (Throw loginFailed, w).
Proof.
  intros Hl Ht. unfold ensureLoggedIn, init, bind, get_isLoggedIn.
  rewrite Hl, Ht. cbn [negb ret]. rewrite Hl. reflexivity.
Qed.

Lemma ensureLoggedIn_login (config : PluginConfig) (w : World)
      (ok : bool) (f : Feed) :
  isLoggedIn w = false ->
  truthy (pixivRefreshToken config) = true ->
  login (nullish (pixivRefreshToken config) "") (feed w) = (ok, f) ->
  ensureLoggedIn config w
  = (if ok then Ok tt else Throw loginFailed,
     mkWorld (random w) f ok (banned w) (disk w)
       (calls w ++ [CallLogin (nullish (pixivRefreshToken config) "")])
       (attempts w)).
Proof.
  intros Hl Ht Hlogin.
  unfold ensureLoggedIn, init, client_login, bind, get_isLoggedIn,
    set_isLoggedIn, record_call.
  rewrite Hl, Ht. cbn [negb feed]. rewrite Hlogin.
  cbn [random feed isLoggedIn banned disk calls attempts].
  destruct ok; reflexivity.
Qed.

(** X13.  Without a refresh token, a service that is not logged in makes
    [searchTop3] and [getRandomTop3] throw the login failure before any
    upstream call, leaving everything as it was.  With a token that the
    upstream rejects, they throw the login failure after that one login
    call: no search or recommendation call is issued, no attempt is made,
    and the service stays logged out. *)
Theorem sessions_need_a_login :
  forall (config : PluginConfig) (fuel : nat) (keyword : string) (w : World),
    isLoggedIn w = false ->
    (truthy (pixivRefreshToken config) = false ->
     searchTop3 config fuel keyword w = (Throw loginFailed, w)
     /\ getRandomTop3 config fuel w = (Throw loginFailed, w))
    /\ (forall f,
          truthy (pixivRefreshToken config) = true ->
          login (nullish (pixivRefreshToken config) "") (feed w) = (false, f) ->
          let w' := mkWorld (random w) f false (banned w) (disk w)
                      (calls w ++ [CallLogin (nullish (pixivRefreshToken config) "")])
                      (attempts w) in
          searchTop3 config fuel keyword w = (Throw loginFailed, w')
          /\ getRandomTop3 config fuel w = (Throw loginFailed, w')).
Proof.
  intros config fuel keyword w Hl. split.
  - intros Ht. unfold searchTop3, getRandomTop3, bind.
    rewrite (ensureLoggedIn_no_token config w Hl Ht). split; reflexivity.
  - intros f Ht Hlogin w'. unfold searchTop3, getRandomTop3, bind.
    rewrite (ensureLoggedIn_login config w false f Hl Ht Hlogin).
    split; reflexivity.
Qed.

(** X14.  An upstream failure is not retried: when a logged-in service
    gets its first search call rejected, [searchTop3] throws the message of
    the rejection after exactly that one call, and records no attempt. *)
Theorem searchTop3_propagates_rejection :
  forall (config : PluginConfig) (fuel : nat) (keyword message : string)
         (w : World),
    isLoggedIn w = true ->
    (forall offset, fst (searchIllust keyword offset (feed w)) = Rejects message) ->
    exists offset w',
      searchTop3 config (S fuel) keyword w = (Throw message, w')
      /\ calls w' = calls w ++ [CallSearch keyword offset]
      /\ 0 <= offset <= 300
      /\ attempts w' = attempts w.
Proof.
  intros config fuel keyword message w Hl Hrej.
  unfold searchTop3. unfold bind at 1.
  rewrite (ensureLoggedIn_logged config w Hl).
  cbn [retry_loop]. change (0 <? 5) with true. cbv iota.
  unfold search_attempt. cbn [session0 offsetLevel offsetLimits length Nat.sub
                               Nat.min nth].
  change (300 >? 0) with true. cbv iota.
  unfold bind, floor_random_times, client_searchIllust, record_call.
  pose proof (random_floor_range (300 + 1) (random w) ltac:(lia)) as Hoff.
  destruct (random_floor (300 + 1) (random w)) as [off rng]. cbn [fst] in Hoff.
  cbn [feed random isLoggedIn banned disk calls attempts].
  unfold bind. cbn [feed].
  specialize (Hrej off).
  destruct (searchIllust keyword off (feed w)) as [resp f]. cbn [fst] in Hrej.
  subst resp. cbn [settle throw].
  eexists off, _. split; [reflexivity|]. cbn [calls attempts].
  repeat split; lia.
Qed.

Lemma client_searchIllust_keeps_login (keyword : string) (offset : Z) (w : World) :
  wp (client_searchIllust keyword offset) w
    (fun _ w' => isLoggedIn w' = isLoggedIn w).
Proof.
  unfold wp, client_searchIllust, bind, record_call, settle. cbn [fst snd].
  cbn [feed random isLoggedIn banned disk calls attempts].
  destruct (searchIllust keyword offset (feed w)) as [[e|b] f];
    cbn [fst snd isLoggedIn throw ret]; reflexivity.
Qed.

(** One attempt of [searchTop3], seen from outside: the call it issues, the
    login state it keeps, and the raw items it adds to the total. *)
Lemma search_attempt_audit (config : PluginConfig) (keyword : string)
      (attempt : Z) (st : Session) (w : World) :
  wp (search_attempt config keyword attempt st) w
    (fun r w' =>
       isLoggedIn w' = isLoggedIn w
       /\ (exists off, 0 <= off <= 300
                       /\ calls w' = calls w ++ [CallSearch keyword off])
       /\ match r with
          | OutOfFuel => False
          | Throw _ => attempts w' = attempts w
          | Ok step =>
              exists a,
                attempts w' = attempts w ++ [a]
                /\ match step with
                   | Return r =>
                       totalScanned r = (ss_totalScanned st + at_raw a)%nat
                   | Break st' | Continue st' =>
                       ss_totalScanned st' = (ss_totalScanned st + at_raw a)%nat
                   end
          end).
Proof.
  unfold search_attempt. rewrite ceiling_clamp.
  set (ceiling := nth (offsetLevel st) offsetLimits 0).
  assert (Hc0 : 0 <= ceiling <= 300)
    by (split; [apply ceiling_nonneg|apply ceiling_at_most_300]).
  apply wp_bind_returns with
    (P := fun off w1 => quiet w w1 /\ 0 <= off <= 300).
  { destruct (Z.gtb_spec ceiling 0).
    - eapply returns_mono; [apply floor_random_times_spec|].
      intros j w1 [Hq Hj]. split; [exact Hq|lia].
    - apply returns_ret. split; [apply quiet_refl|lia]. }
  intros off w1 [(Hc1 & Ha1 & Hl1) Hoff].
  apply wp_bind. eapply wp_mono;
    [apply wp_conj; [apply client_searchIllust_spec
                    |apply client_searchIllust_keeps_login]|].
  intros r w2 [(Hc2 & Ha2 & Hnf) Hl2].
  assert (Hcall : exists off0, 0 <= off0 <= 300
                    /\ calls w2 = calls w ++ [CallSearch keyword off0]).
  { exists off. split; [exact Hoff|congruence]. }
  destruct r as [result|e|]; [| |congruence].
  2:{ split; [congruence|]. split; [exact Hcall|congruence]. }
  apply wp_bind_returns with
    (P := fun cur w3 => quiet w2 w3
                        /\ totalScanned cur = length (nullish result []));
    [apply extractTopSafe_spec|].
  intros cur w3 [(Hc3 & Ha3 & Hl3) Htot].
  apply wp_bind. unfold wp at 1, record_attempt. cbn [fst snd].
  set (st1 := accumulate cur st).
  set (a := mkAttempt ceiling off (length (nullish result []))
              (illusts cur) (Map_size (collectedMap st1))).
  set (w4 := mkWorld _ _ _ _ _ _ _).
  assert (Hl4 : isLoggedIn w4 = isLoggedIn w)
    by (subst w4; cbn [isLoggedIn]; congruence).
  assert (Hc4 : exists off0, 0 <= off0 <= 300
                  /\ calls w4 = calls w ++ [CallSearch keyword off0]).
  { destruct Hcall as (off0 & Ho & Hc). exists off0. split; [exact Ho|].
    subst w4. cbn [calls]. congruence. }
  assert (Ha4 : attempts w4 = attempts w ++ [a])
    by (subst w4; cbn [attempts]; congruence).
  assert (Hsum : ss_totalScanned st1 = (ss_totalScanned st + at_raw a)%nat).
  { subst st1 a. cbn [accumulate ss_totalScanned at_raw]. now rewrite Htot. }
  destruct (Z.of_nat (Map_size (collectedMap st1)) >=? requiredCount config);
    [|destruct (length (nullish result []) =? 0)%nat;
      [destruct (ceiling =? 0)|]];
    apply wp_ret; (split; [exact Hl4|]); (split; [exact Hc4|]);
    exists a; (split; [exact Ha4|]); exact Hsum.
Qed.

Lemma search_loop_audit (config : PluginConfig) (keyword : string) :
  forall (fuel : nat) (attempt : Z) (st : Session) (w : World),
    wp (retry_loop fuel 5 (search_attempt config keyword) attempt st) w
      (fun r w' =>
         isLoggedIn w' = isLoggedIn w
         /\ exists ext log,
              calls w' = calls w ++ ext
              /\ Forall (fun c => exists off, c = CallSearch keyword off
                                              /\ 0 <= off <= 300) ext
              /\ attempts w' = attempts w ++ log
              /\ forall res, r = Ok res ->
                   match res with
                   | inl st' => ss_totalScanned st'
                   | inr r => totalScanned r
                   end = (ss_totalScanned st + raw_total log)%nat).
Proof.
  induction fuel as [|fuel IH]; intros attempt st w.
  - unfold wp. cbn [retry_loop fst snd]. split; [reflexivity|].
    exists [], []. rewrite !app_nil_r. repeat split; [constructor|intros res [=]].
  - cbn [retry_loop]. destruct (attempt <? 5).
    2:{ apply wp_ret. split; [reflexivity|]. exists [], []. rewrite !app_nil_r.
        repeat split; [constructor|]. intros res [= <-].
        unfold raw_total. cbn [map list_sum fold_right]. lia. }
    apply wp_bind. eapply wp_mono; [apply search_attempt_audit|].
    intros r w1 (Hl1 & (off & Hoff & Hc1) & Hr).
    assert (Hone : Forall (fun c => exists off, c = CallSearch keyword off
                                                /\ 0 <= off <= 300)
                     [CallSearch keyword off]).
    { constructor; [eauto|constructor]. }
    destruct r as [step|e|]; [| |contradiction].
    2:{ split; [exact Hl1|]. exists [CallSearch keyword off], [].
        rewrite app_nil_r. repeat split; try assumption. intros res [=]. }
    destruct Hr as (a & Ha1 & Hstep).
    assert (Hraw : raw_total [a] = at_raw a).
    { unfold raw_total. cbn [map list_sum fold_right]. lia. }
    destruct step as [st'|st'|res].
    + eapply wp_mono; [apply IH|].
      intros r w' (Hl' & ext & log & Hc' & Hall & Ha' & Hres).
      split; [congruence|].
      exists (CallSearch keyword off :: ext), (a :: log).
      split; [rewrite Hc', Hc1, <- app_assoc; reflexivity|].
      split; [constructor; [eauto|exact Hall]|].
      split; [rewrite Ha', Ha1, <- app_assoc; reflexivity|].
      intros res Hok. rewrite (Hres res Hok), Hstep.
      change (raw_total (a :: log)) with (at_raw a + raw_total log)%nat. lia.
    + apply wp_ret. split; [exact Hl1|].
      exists [CallSearch keyword off], [a]. repeat split; try assumption.
      intros res [= <-]. rewrite Hraw. exact Hstep.
    + apply wp_ret. split; [exact Hl1|].
      exists [CallSearch keyword off], [a]. repeat split; try assumption.
      intros res' [= <-]. rewrite Hraw. exact Hstep.
Qed.

(** A whole call of [searchTop3], seen from outside. *)
Lemma searchTop3_audit (config : PluginConfig) (fuel : nat) (keyword : string)
      (w : World) :
  wp (searchTop3 config fuel keyword) w
    (fun r w' =>
       exists ext log,
         calls w' = calls w ++ ext
         /\ Forall (search_session_call
                      (nullish (pixivRefreshToken config) "") keyword) ext
         /\ (isLoggedIn w = true -> Forall (fun c => is_search c = true) ext)
         /\ attempts w' = attempts w ++ log
         /\ forall res, r = Ok res ->
              isLoggedIn w' = true /\ totalScanned res = raw_total log).
Proof.
  unfold searchTop3.
  assert (Hlogin : wp (ensureLoggedIn config) w
            (fun r0 w1 =>
               attempts w1 = attempts w
               /\ (exists pre, calls w1 = calls w ++ pre
                     /\ Forall (search_session_call
                                  (nullish (pixivRefreshToken config) "") keyword) pre
                     /\ (isLoggedIn w = true -> pre = []))
               /\ (r0 = Ok tt -> isLoggedIn w1 = true)
               /\ r0 <> OutOfFuel)).
  { unfold wp. destruct (isLoggedIn w) eqn:Hl.
    - rewrite (ensureLoggedIn_logged config w Hl). cbn [fst snd].
      split; [reflexivity|]. split; [|split; [auto|discriminate]].
      exists []. rewrite app_nil_r.
      split; [reflexivity|split; [constructor|intros; reflexivity]].
    - destruct (truthy (pixivRefreshToken config)) eqn:Ht.
      + destruct (login (nullish (pixivRefreshToken config) "") (feed w))
          as [ok f] eqn:Hlog.
        rewrite (ensureLoggedIn_login config w ok f Hl Ht Hlog).
        cbn [fst snd attempts calls isLoggedIn].
        split; [reflexivity|]. split; [|split].
        * eexists. split; [reflexivity|]. split; [|discriminate].
          constructor; [now left|constructor].
        * destruct ok; [reflexivity|discriminate].
        * destruct ok; discriminate.
      + rewrite (ensureLoggedIn_no_token config w Hl Ht). cbn [fst snd].
        split; [reflexivity|]. split; [|split; discriminate].
        exists []. rewrite app_nil_r.
        split; [reflexivity|split; [constructor|intros; reflexivity]]. }
  apply wp_bind. eapply wp_mono; [exact Hlogin|].
  intros r0 w1 (Ha1 & (pre & Hc1 & Hpre & Hnil) & Hok & Hnf).
  destruct r0 as [[]|e|]; [| |congruence].
  2:{ exists pre, []. rewrite app_nil_r. repeat split; try assumption.
      - intros Hl. rewrite (Hnil Hl). constructor.
      - discriminate.
      - discriminate. }
  specialize (Hok eq_refl).
  apply wp_bind. eapply wp_mono; [apply search_loop_audit|].
  intros r w2 (Hl2 & ext & log & Hc2 & Hext & Ha2 & Hres).
  assert (Hshape : forall (r' : Result ExtractResult),
             (forall res', r' = Ok res' ->
                exists res, r = Ok res
                  /\ totalScanned res'
                     = match res with
                       | inl st' => ss_totalScanned st'
                       | inr r => totalScanned r
                       end) ->
             exists ext0 log0,
               calls w2 = calls w ++ ext0
               /\ Forall (search_session_call
                            (nullish (pixivRefreshToken config) "") keyword) ext0
               /\ (isLoggedIn w = true -> Forall (fun c => is_search c = true) ext0)
               /\ attempts w2 = attempts w ++ log0
               /\ forall res, r' = Ok res ->
                    isLoggedIn w2 = true /\ totalScanned res = raw_total log0).
  { intros r' Hr'. exists (pre ++ ext), log.
    split; [rewrite Hc2, Hc1, <- app_assoc; reflexivity|].
    split.
    { apply Forall_app. split; [exact Hpre|].
      eapply Forall_impl; [|exact Hext]. intros c Hc. right. exact Hc. }
    split.
    { intros Hl. rewrite (Hnil Hl). cbn [app].
      eapply Forall_impl; [|exact Hext]. intros c (off & -> & _). reflexivity. }
    split; [congruence|].
    intros res' Hok'. split; [congruence|].
    destruct (Hr' res' Hok') as (res & Hrok & Htot).
    rewrite Htot, (Hres res Hrok). cbn [session0 ss_totalScanned]. lia. }
  destruct r as [[st'|res]|e|].
  - apply wp_ret. apply Hshape. intros res' [= <-]. eexists. split; reflexivity.
  - apply wp_ret. apply Hshape. intros res' [= <-]. eexists. split; reflexivity.
  - apply Hshape. intros res' [=].
  - apply Hshape. intros res' [=].
Qed.

(** X15.  Whatever [searchTop3] sends upstream is a login with the
    configured token or a search for the keyword as given, at an offset
    between 0 and 300; a service that is already logged in sends searches
    only.  *)
Theorem searchTop3_calls_carry_the_keyword :
  forall (config : PluginConfig) (fuel : nat) (keyword : string) (w : World),
    exists ext,
      calls (snd (searchTop3 config fuel keyword w)) = calls w ++ ext
      /\ Forall (search_session_call
                   (nullish (pixivRefreshToken config) "") keyword) ext
      /\ (isLoggedIn w = true -> Forall (fun c => is_search c = true) ext).
Proof.
  intros config fuel keyword w.
  destruct (searchTop3_audit config fuel keyword w)
    as (ext & log & Hc & Hall & Hsearch & _).
  exists ext. auto.
Qed.

(** X16.  When [searchTop3] returns, the service is logged in, and the
    [totalScanned] of the result is the number of raw items over all the
    attempts of the session, accepted, rejected or never examined. *)
Theorem searchTop3_totalScanned_adds_up :
  forall (config : PluginConfig) (fuel : nat) (keyword : string)
         (w w' : World) (r : ExtractResult),
    searchTop3 config fuel keyword w = (Ok r, w') ->
    exists log,
      attempts w' = attempts w ++ log
      /\ totalScanned r = raw_total log
      /\ isLoggedIn w' = true.
Proof.
  intros config fuel keyword w w' r Hrun.
  destruct (wp_run _ _ _ _ _ (searchTop3_audit config fuel keyword w) Hrun)
    as (ext & log & _ & _ & _ & Hlog & Hres).
  destruct (Hres r eq_refl) as [Hl Htot].
  exists log. auto.
Qed.

End SessionProperties.

(** ** The image materializer: failed downloads *)
Section MaterializerFailures.
Import Materializer.
Context {N : Node}.

(** X17.  A failed download is not cached: when the file of a URL is not
    in the cache and its download fails without leaving a file,
    [downloadImage] throws the error of the downloader after that one
    download, and the next call for the URL starts a download again. *)
Theorem failed_download_is_retried :
  forall (imageUrl message : string) (later : list Download) (c : Cache),
    existsSync (filePath imageUrl) (ensure_tempDir c) = false ->
    network c = Failed message false :: later ->
    exists c1,
      downloadImage imageUrl c = (Throw message, c1)
      /\ downloads c1 = downloads c ++ [(imageUrl, filePath imageUrl)]
      /\ downloads (snd (downloadImage imageUrl c1))
         = downloads c1 ++ [(imageUrl, filePath imageUrl)].
Proof.
  intros imageUrl message later c Hcold Hnet.
  destruct (ensure_tempDir_downloads c) as [Hlog Hnet'].
  pose proof (tempDir_ensured c) as Hdir.
  unfold downloadImage at 1. fold (filePath imageUrl).
  rewrite Hcold. unfold pixivImg. rewrite Hnet', Hnet.
  eexists. split; [reflexivity|]. cbn [downloads]. split; [now rewrite Hlog|].
  set (c1 := mkCache _ later _).
  assert (Hdir1 : existsSync tempDir c1 = true) by exact Hdir.
  assert (Hcold1 : existsSync (filePath imageUrl) c1 = false) by exact Hcold.
  unfold downloadImage, ensure_tempDir. rewrite Hdir1. cbn [negb].
  fold (filePath imageUrl). rewrite Hcold1. unfold pixivImg.
  destruct (network c1) as [|[|e partial] rest]; reflexivity.
Qed.

End MaterializerFailures.

(** ** The rate limiter: what it guarantees *)
Section RateLimitGuarantee.
Import Handler.

Lemma length_shift_old (now : Z) (stamps : list Z) :
  (length (shift_old now stamps) <= length stamps)%nat.
Proof.
  induction stamps as [|t rest IH]; cbn [shift_old]; [lia|].
  destruct (t <=? now - windowMs); cbn [length]; lia.
Qed.

Lemma isRateLimited_length (L now : Z) (stamps : list Z) :
  Z.of_nat (length stamps) <= L ->
  Z.of_nat (length (snd (isRateLimited (Some L) now stamps))) <= L.
Proof.
  intros Hlen. unfold isRateLimited. cbn [Js.nullish].
  destruct (L <=? 0); cbn [snd]; [exact Hlen|].
  pose proof (length_shift_old now stamps) as Hs.
  destruct (Z.geb_spec (Z.of_nat (length (shift_old now stamps))) L);
    cbn [snd]; [lia|].
  rewrite length_app. cbn [length]. lia.
Qed.

Lemma run_isRateLimited_length (L : Z) (nows stamps : list Z) :
  Z.of_nat (length stamps) <= L ->
  Z.of_nat (length (snd (run (isRateLimited (Some L)) nows stamps))) <= L.
Proof.
  revert stamps. induction nows as [|now later IH]; intros stamps Hlen;
    cbn [run]; [exact Hlen|].
  pose proof (isRateLimited_length L now stamps Hlen) as Hstep.
  destruct (isRateLimited (Some L) now stamps) as [limited stamps1].
  cbn [snd] in Hstep. specialize (IH stamps1 Hstep).
  destruct (run (isRateLimited (Some L)) later stamps1) as [answers stamps2].
  exact IH.
Qed.

Lemma isRateLimited_length_max (limit : option Z) (now : Z) (stamps : list Z) :
  Z.of_nat (length (snd (isRateLimited limit now stamps)))
  <= Z.max (Z.of_nat (length stamps)) (Js.nullish limit 60).
Proof.
  unfold isRateLimited.
  destruct (Js.nullish limit 60 <=? 0); cbn [snd]; [lia|].
  pose proof (length_shift_old now stamps) as Hs.
  destruct (Z.geb_spec (Z.of_nat (length (shift_old now stamps)))
              (Js.nullish limit 60)); cbn [snd]; [lia|].
  rewrite length_app. cbn [length]. lia.
Qed.

(** X18.  The array of the rate limiter stays bounded, whatever the
    configured limit and whatever the times of the checks (in order or
    not): after any sequence of checks it holds at most as many stamps as
    the limit (60 when none is configured), or as it held at the start
    if that was more. *)
Theorem rate_limit_window_bounded :
  forall (limit : option Z) (nows stamps : list Z),
    Z.of_nat (length (snd (run (isRateLimited limit) nows stamps)))
    <= Z.max (Z.of_nat (length stamps)) (Js.nullish limit 60).
Proof.
  intros limit nows. induction nows as [|now later IH]; intros stamps;
    cbn [run]; [cbn [snd]; lia|].
  pose proof (isRateLimited_length_max limit now stamps) as Hstep.
  destruct (isRateLimited limit now stamps) as [limited stamps1].
  cbn [snd] in Hstep. specialize (IH stamps1).
  destruct (run (isRateLimited limit) later stamps1) as [answers stamps2].
  cbn [snd] in IH |- *. lia.
Qed.

Lemma filter_filter_later (a b : Z) (l : list Z) :
  a <= b ->
  filter (fun t => b <? t) (filter (fun t => a <? t) l)
  = filter (fun t => b <? t) l.
Proof.
  intros Hab. induction l as [|t l IH]; [reflexivity|]. cbn [filter].
  destruct (Z.ltb_spec a t); cbn [filter].
  - now rewrite IH.
  - destruct (Z.ltb_spec b t); [lia|exact IH].
Qed.

Lemma admitted_cons (now : Z) (later : list Z) (limited : bool)
      (answers : list bool) :
  admitted (now :: later) (limited :: answers)
  = (if limited then [] else [now]) ++ admitted later answers.
Proof. unfold admitted. destruct limited; reflexivity. Qed.

(** On chronological checks, the array after the last check holds the
    earlier stamps and the admitted times that the window of the last
    check still covers. *)
Lemma run_check_spec_window (L : Z) (nows : list Z) :
  forall stamps : list Z,
    StronglySorted Z.le nows -> nows <> [] ->
    snd (run (check_spec L) nows stamps)
    = filter (fun t => last nows 0 - windowMs <? t)
        (stamps ++ admitted nows (fst (run (check_spec L) nows stamps))).
Proof.
  induction nows as [|now later IH]; intros stamps Hs Hne; [contradiction|].
  inversion Hs as [|? ? Hlater Hall]; subst.
  cbn [run]. destruct (check_spec L now stamps) as [limited stamps1] eqn:Hc.
  assert (Hstep : stamps1
                  = filter (fun t => now - windowMs <? t)
                      (stamps ++ if limited then [] else [now])).
  { unfold check_spec in Hc. rewrite filter_app.
    destruct (Z.of_nat (length (filter _ stamps)) <? L);
      injection Hc as <- <-; cbn [filter].
    - destruct (Z.ltb_spec (now - windowMs) now);
        [reflexivity|unfold windowMs in *; lia].
    - now rewrite app_nil_r. }
  destruct later as [|next later'].
  - cbn [run fst snd last admitted combine filter map negb].
    rewrite Hstep. destruct limited; cbn [negb filter map fst]; reflexivity.
  - specialize (IH stamps1 Hlater ltac:(discriminate)).
    destruct (run (check_spec L) (next :: later') stamps1) as [answers stamps2].
    cbn [fst snd] in *. rewrite IH.
    assert (Hlast : now <= last (next :: later') 0).
    { rewrite Forall_forall in Hall. apply Hall.
      destruct (exists_last (l:=next :: later') ltac:(discriminate))
        as (front & z & Hz).
      rewrite Hz, last_last. apply in_or_app. right. now left. }
    change (last (now :: next :: later') 0) with (last (next :: later') 0).
    set (T := last (next :: later') 0) in *.
    rewrite (admitted_cons now (next :: later') limited answers).
    rewrite Hstep, !filter_app.
    rewrite !(filter_filter_later (now - windowMs) (T - windowMs))
      by (unfold windowMs; lia).
    rewrite <- app_assoc. reflexivity.
Qed.

(** X19.  The limit holds: over any chronological sequence of checks
    started from the empty array with a limit L > 0, at most L of the
    admitted checks lie within the 60 seconds that end at the last check
    (and so, taking prefixes, within the 60 seconds that end at any
    check). *)
Theorem rate_limit_admits_at_most_L_per_window :
  forall (L : Z) (nows : list Z),
    0 < L -> StronglySorted Z.le nows ->
    Z.of_nat
      (length (filter (fun t => last nows 0 - windowMs <? t)
                 (admitted nows (fst (run (isRateLimited (Some L)) nows [])))))
    <= L.
Proof.
  intros L nows HL Hs.
  destruct nows as [|now later].
  - cbn. lia.
  - pose proof (run_isRateLimited_length L (now :: later) []
                  ltac:(cbn [length]; lia)) as Hbound.
    rewrite (run_isRateLimited_check_spec L (now :: later) [] HL Hs) in *;
      try constructor; try (intros t n []).
    rewrite (run_check_spec_window L (now :: later) [] Hs ltac:(discriminate))
      in Hbound.
    cbn [app] in Hbound. exact Hbound.
Qed.

End RateLimitGuarantee.

(** ** The group cooldown *)
Section CooldownProperties.
Import Handler.

Lemma ceil_div_bounds (x cd : Z) :
  0 < x <= cd * 1000 -> 0 < ceil_div x 1000 <= cd.
Proof.
  intros Hx. unfold ceil_div.
  pose proof (Z.div_mod (- x) 1000 ltac:(lia)) as Hdm.
  pose proof (Z.mod_pos_bound (- x) 1000 ltac:(lia)) as Hm.
  lia.
Qed.

Lemma ceil_div_nonpos (x : Z) : x <= 0 -> ceil_div x 1000 <= 0.
Proof.
  intros Hx. unfold ceil_div.
  pose proof (Z.div_mod (- x) 1000 ltac:(lia)) as Hdm.
  pose proof (Z.mod_pos_bound (- x) 1000 ltac:(lia)) as Hm.
  lia.
Qed.

(** X20.  A cooldown of [cd] > 0 seconds set at a time [t0] counts down:
    a lookup for the same group at a time from [t0] up to, but not
    including, [t0 + cd * 1000] answers the remaining milliseconds rounded
    up to seconds, between 1 and [cd], and leaves the map alone; a lookup
    from [t0 + cd * 1000] on answers 0 and evicts the entry of that group
    only. *)
Theorem cooldown_counts_down_and_expires :
  forall (cooldownSeconds : option Z) (key : string) (t0 now : Z)
         (m : CooldownMap),
    0 < cdSeconds cooldownSeconds ->
    0 <= t0 ->
    let cd := cdSeconds cooldownSeconds in
    let m1 := setCooldown cooldownSeconds key t0 m in
    (t0 <= now < t0 + cd * 1000 ->
     getCooldownRemaining cooldownSeconds key now m1
     = (ceil_div (t0 + cd * 1000 - now) 1000, m1)
     /\ 0 < ceil_div (t0 + cd * 1000 - now) 1000 <= cd)
    /\ (t0 + cd * 1000 <= now ->
        fst (getCooldownRemaining cooldownSeconds key now m1) = 0
        /\ snd (getCooldownRemaining cooldownSeconds key now m1) key = None
        /\ forall other, other <> key ->
             snd (getCooldownRemaining cooldownSeconds key now m1) other
             = m other).
Proof.
  intros cooldownSeconds key t0 now m Hcd Ht0 cd m1.
  assert (Hget : m1 key = Some (t0 + cd * 1000)).
  { subst m1. unfold setCooldown. fold cd.
    destruct (Z.leb_spec cd 0); [lia|].
    unfold Map_set. now rewrite String.eqb_refl. }
  assert (Hother : forall other, other <> key -> m1 other = m other).
  { intros other Hne. subst m1. unfold setCooldown. fold cd.
    destruct (Z.leb_spec cd 0); [lia|].
    unfold Map_set. now destruct (String.eqb_spec other key). }
  unfold getCooldownRemaining. fold cd. rewrite Hget.
  destruct (Z.leb_spec cd 0); [lia|].
  destruct (Z.eqb_spec (t0 + cd * 1000) 0); [lia|].
  split.
  - intros Hnow.
    pose proof (ceil_div_bounds (t0 + cd * 1000 - now) cd ltac:(lia)) as Hb.
    destruct (Z.leb_spec (ceil_div (t0 + cd * 1000 - now) 1000) 0); [lia|].
    split; [reflexivity|exact Hb].
  - intros Hnow.
    pose proof (ceil_div_nonpos (t0 + cd * 1000 - now) ltac:(lia)) as Hb.
    destruct (Z.leb_spec (ceil_div (t0 + cd * 1000 - now) 1000) 0); [|lia].
    cbn [fst snd]. split; [reflexivity|]. unfold Map_delete. split.
    + now rewrite String.eqb_refl.
    + intros other Hne. destruct (String.eqb_spec other key); [contradiction|].
      now apply Hother.
Qed.

(** X21.  Cooldowns are kept per group and can be switched off: setting or
    looking up the cooldown of one group changes neither the answer nor the
    entry of another group; with a configured value that is missing, 0 or
    negative every lookup answers 0 and setting does nothing; after
    [clearCooldownMap] every lookup answers 0. *)
Theorem cooldown_is_per_group :
  forall (cooldownSeconds : option Z) (key other : string) (t0 now : Z)
         (m : CooldownMap),
    (other <> key ->
     fst (getCooldownRemaining cooldownSeconds other now
            (setCooldown cooldownSeconds key t0 m))
     = fst (getCooldownRemaining cooldownSeconds other now m)
     /\ snd (getCooldownRemaining cooldownSeconds key now m) other = m other)
    /\ (cdSeconds cooldownSeconds <= 0 ->
        getCooldownRemaining cooldownSeconds key now m = (0, m)
        /\ setCooldown cooldownSeconds key t0 m = m)
    /\ fst (getCooldownRemaining cooldownSeconds key now (clearCooldownMap m)) = 0.
Proof.
  intros cooldownSeconds key other t0 now m. split; [|split].
  - intros Hne. split.
    + unfold getCooldownRemaining, setCooldown.
      destruct (cdSeconds cooldownSeconds <=? 0); [reflexivity|].
      unfold Map_set. destruct (String.eqb_spec other key); [contradiction|].
      destruct (m other) as [e|]; [|reflexivity].
      destruct (e =? 0); [reflexivity|].
      destruct (ceil_div (e - now) 1000 <=? 0); reflexivity.
    + unfold getCooldownRemaining.
      destruct (cdSeconds cooldownSeconds <=? 0); [reflexivity|].
      destruct (m key) as [e|]; [|reflexivity].
      destruct (e =? 0); [reflexivity|].
      destruct (ceil_div (e - now) 1000 <=? 0); [|reflexivity].
      cbn [snd]. unfold Map_delete.
      destruct (String.eqb_spec other key); [contradiction|reflexivity].
  - intros Hoff. unfold getCooldownRemaining, setCooldown.
    destruct (Z.leb_spec (cdSeconds cooldownSeconds) 0); [|lia].
    split; reflexivity.
  - unfold getCooldownRemaining, clearCooldownMap, Map_empty.
    destruct (cdSeconds cooldownSeconds <=? 0); reflexivity.
Qed.

End CooldownProperties.

Section DispatchProperties.
Import Js Handler MessageHandler.
Context {E : Engine} {S : StringOps}.

Lemma getCooldownRemaining_positive (cd : option Z) (key : string) (now : Z)
      (m : CooldownMap) :
  0 < fst (getCooldownRemaining cd key now m) ->
  snd (getCooldownRemaining cd key now m) = m.
Proof.
  unfold getCooldownRemaining.
  destruct (cdSeconds cd <=? 0); [cbn; lia|].
  destruct (m key) as [e|]; [|cbn; lia].
  destruct (e =? 0); [cbn; lia|].
  destruct (ceil_div (e - now) 1000 <=? 0); cbn; [lia|reflexivity].
Qed.

Lemma cooldown_block_private (settings : Settings) (clock : Clock)
      (event : OB11Message) (m : CooldownMap) :
  groupKey event = None ->
  cooldown_block settings clock event m = (None, m).
Proof. intros Hk. unfold cooldown_block. rewrite Hk. reflexivity. Qed.

Lemma cooldown_block_group (settings : Settings) (clock : Clock)
      (event : OB11Message) (m : CooldownMap) (key : string) :
  groupKey event = Some key ->
  let r := getCooldownRemaining (cooldownSeconds settings) key
             (at_cooldown_check clock) m in
  (0 < fst r ->
   cooldown_block settings clock event m = (Some (pleaseWait (fst r)), m))
  /\ (fst r <= 0 ->
      cooldown_block settings clock event m
      = (None, setCooldown (cooldownSeconds settings) key
                 (at_cooldown_set clock) (snd r))).
Proof.
  intros Hk r. unfold cooldown_block. rewrite Hk.
  pose proof (getCooldownRemaining_positive (cooldownSeconds settings) key
                (at_cooldown_check clock) m) as Hpos.
  fold r in Hpos |- *. destruct r as [remaining m']. cbn [fst snd] in *.
  split; intros Hr.
  - rewrite (Hpos Hr). destruct (remaining >? 0) eqn:Hg; [reflexivity|].
    rewrite Z.gtb_ltb, Z.ltb_ge in Hg. lia.
  - destruct (remaining >? 0) eqn:Hg; [|reflexivity].
    rewrite Z.gtb_ltb, Z.ltb_lt in Hg. lia.
Qed.

(** X22.  [handleMessage] hands a message to [handlePixivCommand] only
    after both checks let it pass: the global rate limiter answered false,
    and, for a group message, the group is enabled and its cooldown has
    run out.  The arguments handed on are the words after the sub-command,
    and the message is then counted as processed. *)
Theorem pixiv_command_passes_both_checks :
  forall (settings : Settings) (state : PluginState) (clock : Clock)
         (event : OB11Message) (limits : Limits) (args : list string),
    In (HandlePixivCommand args)
       (fst (handleMessage settings state clock event limits)) ->
    fst (isRateLimited (rateLimitPerMinute settings) (at_rate_check clock)
           (requestTimestamps limits)) = false
    /\ (forall key, groupKey event = Some key ->
          isGroupEnabled state key = true
          /\ fst (getCooldownRemaining (cooldownSeconds settings) key
                    (at_cooldown_check clock) (cooldownMap limits)) <= 0)
    /\ args = tl (split_whitespace
                    (trim (slice (String.length (prefixOf settings))
                             (rawMessageOf event))))
    /\ fst (handleMessage settings state clock event limits)
       = [HandlePixivCommand args; IncrementProcessed].
Proof.
  intros settings state clock event limits args.
  unfold handleMessage.
  destruct (groupKey event) as [key|] eqn:Hk.
  - destruct (negb (isGroupEnabled state key)) eqn:Hen; [intros []|].
    destruct (negb (String.prefix (prefixOf settings) (rawMessageOf event)));
      [intros []|].
    destruct (isRateLimited (rateLimitPerMinute settings) (at_rate_check clock)
                (requestTimestamps limits)) as [limited stamps].
    destruct limited; [intros [H|[]]; discriminate|].
    destruct (String.eqb _ "help"); [intros [H|[]]; discriminate|].
    destruct (cooldown_block_group settings clock event (cooldownMap limits)
                key Hk) as [Hwait Hfree].
    destruct (Z_lt_le_dec 0
                (fst (getCooldownRemaining (cooldownSeconds settings) key
                        (at_cooldown_check clock) (cooldownMap limits))))
      as [Hpos|Hle].
    + rewrite (Hwait Hpos).
      destruct (String.eqb _ "ping"); [intros [H|[]]; discriminate|].
      destruct (String.eqb _ "p站"); [intros [H|[]]; discriminate|].
      destruct (String.eqb _ "status"); [intros [H|[]]; discriminate|intros []].
    + rewrite (Hfree Hle).
      destruct (String.eqb _ "ping");
        [intros [H|[H|[]]]; discriminate|].
      destruct (String.eqb _ "p站").
      * intros [H|[H|[]]]; [|discriminate].
        injection H as <-. cbn [fst].
        split; [reflexivity|]. split; [|split; reflexivity].
        intros key' Hk'. injection Hk' as <-.
        apply negb_false_iff in Hen. split; [exact Hen|exact Hle].
      * destruct (String.eqb _ "status"); [intros [H|[]]; discriminate|intros []].
  - destruct (negb (String.prefix (prefixOf settings) (rawMessageOf event)));
      [intros []|].
    destruct (isRateLimited (rateLimitPerMinute settings) (at_rate_check clock)
                (requestTimestamps limits)) as [limited stamps].
    destruct limited; [intros [H|[]]; discriminate|].
    destruct (String.eqb _ "help"); [intros [H|[]]; discriminate|].
    rewrite (cooldown_block_private settings clock event (cooldownMap limits) Hk).
    destruct (String.eqb _ "ping");
      [intros [H|[H|[]]]; discriminate|].
    destruct (String.eqb _ "p站").
    + intros [H|[H|[]]]; [|discriminate].
      injection H as <-. cbn [fst].
      split; [reflexivity|]. split; [|split; reflexivity].
      intros key' Hk'. discriminate.
    + destruct (String.eqb _ "status"); [intros [H|[]]; discriminate|intros []].
Qed.

(** X23.  A message of a group that is not enabled, or one that does not
    start with the command prefix, is dropped before the rate limiter is
    consulted: nothing is sent, and neither the recorded time stamps nor
    the cooldowns change. *)
Theorem ignored_messages_cost_nothing :
  forall (settings : Settings) (state : PluginState) (clock : Clock)
         (event : OB11Message) (limits : Limits),
    (exists key, groupKey event = Some key /\ isGroupEnabled state key = false)
    \/ String.prefix (prefixOf settings) (rawMessageOf event) = false ->
    handleMessage settings state clock event limits = ([], limits).
Proof.
  intros settings state clock event limits H. unfold handleMessage.
  destruct H as [(key & Hk & Hen)|Hp].
  - rewrite Hk, Hen. reflexivity.
  - rewrite Hp. cbn [negb].
    destruct (match groupKey event with
              | Some key => negb (isGroupEnabled state key)
              | None => false
              end); reflexivity.
Qed.

(** X24.  Cooldowns do not apply to private chats: for a private message
    neither the configured cooldown nor the recorded cooldowns have any
    influence on what [handleMessage] does, and the recorded cooldowns
    are left as they are. *)
Theorem private_chat_ignores_cooldown :
  forall (settings : Settings) (state : PluginState) (clock : Clock)
         (event : OB11Message) (stamps : list Z) (m m' : CooldownMap)
         (cd' : option Z),
    message_type event = private ->
    fst (handleMessage settings state clock event (mkLimits stamps m))
    = fst (handleMessage
             (mkSettings (commandPrefix settings) cd'
                (rateLimitPerMinute settings))
             state clock event (mkLimits stamps m'))
    /\ cooldownMap
         (snd (handleMessage settings state clock event (mkLimits stamps m)))
       = m.
Proof.
  intros settings state clock event stamps m m' cd' Hp.
  assert (Hk : groupKey event = None).
  { unfold groupKey. rewrite Hp. reflexivity. }
  unfold handleMessage. rewrite Hk.
  rewrite !(cooldown_block_private _ _ _ _ Hk).
  change (prefixOf (mkSettings (commandPrefix settings) cd'
                      (rateLimitPerMinute settings)))
    with (prefixOf settings).
  cbn [rateLimitPerMinute requestTimestamps cooldownMap].
  destruct (negb (String.prefix (prefixOf settings) (rawMessageOf event)));
    [split; reflexivity|].
  destruct (isRateLimited (rateLimitPerMinute settings) (at_rate_check clock)
              stamps) as [limited stamps'].
  destruct limited; [split; reflexivity|].
  destruct (String.eqb _ "help"); [split; reflexivity|].
  destruct (String.eqb _ "ping"); [split; reflexivity|].
  destruct (String.eqb _ "p站"); [split; reflexivity|].
  destruct (String.eqb _ "status"); split; reflexivity.
Qed.

(** X25.  Every message with the command prefix from a chat that is not
    disabled consults the rate limiter exactly once, whatever its
    sub-command: the recorded time stamps afterwards are those the check
    leaves.  When the check answers true the only effect is the reply that
    requests are too frequent, and the cooldowns are untouched. *)
Theorem prefixed_message_consults_rate_limiter :
  forall (settings : Settings) (state : PluginState) (clock : Clock)
         (event : OB11Message) (limits : Limits),
    (forall key, groupKey event = Some key -> isGroupEnabled state key = true) ->
    String.prefix (prefixOf settings) (rawMessageOf event) = true ->
    let verdict :=
      isRateLimited (rateLimitPerMinute settings) (at_rate_check clock)
        (requestTimestamps limits) in
    requestTimestamps (snd (handleMessage settings state clock event limits))
    = snd verdict
    /\ (fst verdict = true ->
        handleMessage settings state clock event limits
        = ([SendReply tooFrequent], mkLimits (snd verdict) (cooldownMap limits))).
Proof.
  intros settings state clock event limits Hen Hp verdict.
  unfold handleMessage. rewrite Hp. cbn [negb].
  assert (Hoff : match groupKey event with
                 | Some key => negb (isGroupEnabled state key)
                 | None => false
                 end = false).
  { destruct (groupKey event) as [key|]; [|reflexivity].
    rewrite (Hen key eq_refl). reflexivity. }
  rewrite Hoff. fold verdict.
  destruct verdict as [limited stamps]. cbn [fst snd].
  destruct limited; [split; [reflexivity|intros _; reflexivity]|].
  split; [|discriminate].
  destruct (String.eqb _ "help"); [reflexivity|].
  destruct (String.eqb _ "ping");
    [destruct (cooldown_block settings clock event (cooldownMap limits))
       as [[wait|] m0]; reflexivity|].
  destruct (String.eqb _ "p站");
    [destruct (cooldown_block settings clock event (cooldownMap limits))
       as [[wait|] m0]; reflexivity|].
  destruct (String.eqb _ "status"); reflexivity.
Qed.

(** X26.  While the cooldown of a group is running, no message of that
    group is handed to [handlePixivCommand] or counted as processed, and
    the refused message does not extend the cooldown: the recorded
    cooldowns stay as they are. *)
Theorem running_cooldown_blocks_group_commands :
  forall (settings : Settings) (state : PluginState) (clock : Clock)
         (event : OB11Message) (limits : Limits) (key : string),
    groupKey event = Some key ->
    0 < fst (getCooldownRemaining (cooldownSeconds settings) key
               (at_cooldown_check clock) (cooldownMap limits)) ->
    ~ In IncrementProcessed
         (fst (handleMessage settings state clock event limits))
    /\ (forall args,
          ~ In (HandlePixivCommand args)
               (fst (handleMessage settings state clock event limits)))
    /\ cooldownMap (snd (handleMessage settings state clock event limits))
       = cooldownMap limits.
Proof.
  intros settings state clock event limits key Hk Hpos.
  unfold handleMessage. rewrite Hk.
  destruct (cooldown_block_group settings clock event (cooldownMap limits)
              key Hk) as [Hwait _].
  rewrite (Hwait Hpos).
  assert (Hnil : forall g : Limits,
             ~ In IncrementProcessed (fst (@nil Effect, g))
             /\ (forall args, ~ In (HandlePixivCommand args) (fst (@nil Effect, g))))
    by (intros g; split; [|intros args]; intros []).
  assert (Hone : forall (text : string) (g : Limits),
             ~ In IncrementProcessed (fst ([SendReply text], g))
             /\ (forall args,
                   ~ In (HandlePixivCommand args) (fst ([SendReply text], g))))
    by (intros text g; split; [|intros args]; intros [H|[]]; discriminate).
  destruct (negb (isGroupEnabled state key));
    [destruct (Hnil limits); repeat split; assumption|].
  destruct (negb (String.prefix (prefixOf settings) (rawMessageOf event)));
    [destruct (Hnil limits); repeat split; assumption|].
  destruct (isRateLimited (rateLimitPerMinute settings) (at_rate_check clock)
              (requestTimestamps limits)) as [limited stamps].
  destruct limited;
    [destruct (Hone tooFrequent (mkLimits stamps (cooldownMap limits)));
     repeat split; assumption|].
  destruct (String.eqb _ "help");
    [destruct (Hone (helpText (prefixOf settings))
                 (mkLimits stamps (cooldownMap limits)));
     repeat split; assumption|].
  destruct (String.eqb _ "ping");
    [match goal with
     | |- context [SendReply ?t] =>
         destruct (Hone t (mkLimits stamps (cooldownMap limits)))
     end; repeat split; assumption|].
  destruct (String.eqb _ "p站");
    [match goal with
     | |- context [SendReply ?t] =>
         destruct (Hone t (mkLimits stamps (cooldownMap limits)))
     end; repeat split; assumption|].
  destruct (String.eqb _ "status");
    [destruct (Hone (statusText state) (mkLimits stamps (cooldownMap limits)))
    |destruct (Hnil (mkLimits stamps (cooldownMap limits)))];
    repeat split; assumption.
Qed.

End DispatchProperties.

Section PixivHandlerProperties.
Import Js Pixiv PixivSpec PixivHandler.
Context {E : Engine} {F : FeedClient}.



(** X27.  [handleSearch] refuses a keyword that a banned-word rule
    matches before it contacts the upstream service: the only effect is
    the refusal, no upstream call is made (not even a login), no attempt
    is recorded, and nothing is drawn from the random source. *)
Theorem banned_keyword_is_refused_without_upstream_call :
  forall (config : PluginConfig) (fuel : nat)
         (downloadResults : nat -> Settled) (selfId : option string)
         (forwarded : bool) (sender : Sender) (keyword : string) (w : World)
         (hit : BannedWords.BannedWord),
    fst (BannedWords.checkKeyword keyword (banned w) (disk w)) = Some hit ->
    let run := handleSearch config fuel downloadResults selfId forwarded
                 sender keyword w in
    fst run = Ok [SendReply refused]
    /\ quiet w (snd run)
    /\ feed (snd run) = feed w
    /\ random (snd run) = random w.
Proof.
  intros config fuel downloadResults selfId forwarded sender keyword w hit Hhit.
  unfold handleSearch.
  destruct (BannedWords.checkKeyword keyword (banned w) (disk w)) as [b s].
  cbn [fst] in Hhit. subst b. cbn. unfold quiet. cbn. repeat split.
Qed.



End PixivHandlerProperties.

(** ** The further properties on concrete runs *)

Lemma rule_list_stays_in_sync_witness :
  let d := Some Examples.rules in
  let '(_, s', d') := BannedWords.remove "r2" Examples.service d in
  BannedWords.loaded s' = true
  /\ BannedWords.in_sync s' d'
  /\ BannedWords.words (BannedWords.reload s' d') = BannedWords.words s'.
Proof.
  intros d.
  exact (proj2 (proj2 (@rule_list_stays_in_sync Examples.engine
                         Examples.service d (fun _ => eq_refl))) "r2").
Defined.

Lemma remove_first_rule_with_id_witness :
  BannedWords.remove "r2" Examples.service None
  = (true, BannedWords.mkService [Scenarios.r1; Scenarios.r3] true,
     Some [Scenarios.r1; Scenarios.r3])
  /\ BannedWords.remove "zz" Examples.service None
     = (false, Examples.service, None).
Proof.
  split.
  - apply (proj2 (remove_first_rule_with_id "r2" Examples.service None)
             [Scenarios.r1] Scenarios.r2 [Scenarios.r3]);
      [reflexivity|reflexivity|intros x [<-|[]]; discriminate].
  - apply (proj1 (remove_first_rule_with_id "zz" Examples.service None)).
    intros w [<-|[<-|[<-|[]]]]; discriminate.
Defined.

Lemma add_then_remove_restores_witness :
  let d := Some Examples.rules in
  let '(_, s1, d1) :=
    @BannedWords.add Examples.engine "cat" BannedWords.fuzzy "u9" 9
      Examples.service d in
  BannedWords.remove "u9" s1 d1 = (true, Examples.service, d).
Proof.
  intros d.
  assert (Hadd : @BannedWords.add Examples.engine "cat" BannedWords.fuzzy "u9" 9
                   Examples.service d
                 = (Js.Ok Scenarios.cat_rule,
                    BannedWords.mkService (Examples.rules ++ [Scenarios.cat_rule]) true,
                    Some (Examples.rules ++ [Scenarios.cat_rule])))
    by (vm_compute; reflexivity).
  rewrite Hadd.
  apply (@add_then_remove_restores Examples.engine "cat" BannedWords.fuzzy "u9" 9
           Examples.service d Scenarios.cat_rule _ _); [|exact Hadd].
  intros w [<-|[<-|[<-|[]]]]; discriminate.
Defined.

Lemma update_changes_first_rule_with_id_witness :
  let r2' := BannedWords.mkBannedWord "r2" "guro" BannedWords.fuzzy true 2 in
  @BannedWords.update Examples.engine "r2"
    (BannedWords.mkUpdates (Some "guro") None (Some true)) Examples.service None
  = (Js.Ok (Some r2'),
     BannedWords.mkService [Scenarios.r1; r2'; Scenarios.r3] true,
     Some [Scenarios.r1; r2'; Scenarios.r3]).
Proof.
  intros r2'.
  apply (@update_changes_first_rule_with_id Examples.engine "r2"
           (BannedWords.mkUpdates (Some "guro") None (Some true))
           Examples.service None [Scenarios.r1] [Scenarios.r3] Scenarios.r2);
    [reflexivity|reflexivity|intros x [<-|[]]; discriminate
    |intros H; discriminate H].
Defined.

Lemma regex_rules_stay_valid_witness :
  @BannedWords.all_regex_valid Examples.engine
    (BannedWords.words
       (snd (fst (@BannedWords.update Examples.engine "r1"
                    (BannedWords.mkUpdates (Some "(a)") (Some BannedWords.regex) None)
                    Examples.service None)))).
Proof.
  apply (proj1 (proj2 (@regex_rules_stay_valid Examples.engine
                         Examples.service None
                         ltac:(intros w [<-|[<-|[<-|[]]]] Hm;
                               try discriminate Hm;
                               vm_compute; discriminate)))).
Defined.

Lemma disabled_rule_never_answers_witness :
  let '(r, s', d') :=
    @BannedWords.update Examples.engine "r1" BannedWords.disable
      Examples.service None in
  (exists w', r = Js.Ok (Some w') /\ BannedWords.id w' = "r1"
              /\ BannedWords.enabled w' = false)
  /\ forall keyword hit,
       fst (@BannedWords.checkKeyword Examples.engine keyword s' d') = Some hit ->
       BannedWords.id hit <> "r1".
Proof.
  apply (@disabled_rule_never_answers Examples.engine "r1" Examples.service None).
  - vm_compute. repeat constructor; cbn; intuition discriminate.
  - intros w [<-|[<-|[<-|[]]]] Hm; try discriminate Hm.
    vm_compute; discriminate.
  - exists Scenarios.r1. split; [left; reflexivity|reflexivity].
Defined.

Lemma added_rule_takes_effect_witness :
  let '(_, s1, d1) :=
    @BannedWords.add Examples.engine "cat" BannedWords.fuzzy "u9" 9
      Examples.service None in
  exists hit,
    fst (@BannedWords.checkKeyword Examples.engine "my CAT" s1 d1) = Some hit
    /\ BannedWords.enabled hit = true
    /\ @BannedWords.rule_matches Examples.engine "my CAT" hit = true.
Proof.
  assert (Hadd : @BannedWords.add Examples.engine "cat" BannedWords.fuzzy "u9" 9
                   Examples.service None
                 = (Js.Ok Scenarios.cat_rule,
                    BannedWords.mkService (Examples.rules ++ [Scenarios.cat_rule]) true,
                    Some (Examples.rules ++ [Scenarios.cat_rule])))
    by (vm_compute; reflexivity).
  rewrite Hadd.
  apply (@added_rule_takes_effect Examples.engine "cat" BannedWords.fuzzy "u9" 9
           Examples.service None Scenarios.cat_rule _ _ "my CAT" Hadd).
  vm_compute. reflexivity.
Defined.

Lemma getRandomTop3_terminates_within_budget_witness :
  let run := @Pixiv.getRandomTop3 Examples.engine Examples.scripted
               (Examples.config 3) 4 (Examples.world Examples.growing) in
  fst run <> Js.OutOfFuel.
Proof.
  intros run.
  apply (proj2 (@getRandomTop3_terminates_within_budget Examples.engine
                  Examples.scripted (Examples.config 3) 4
                  (Examples.world Examples.growing))).
  lia.
Defined.

Lemma sessions_need_a_login_witness :
  let config := Pixiv.mkConfig None (Some false) (Some false) (Some 3) (Some 60) in
  let w := Examples.world Examples.growing in
  @Pixiv.searchTop3 Examples.engine Examples.scripted config 6 "cat" w
  = (Js.Throw Pixiv.loginFailed, w)
  /\ @Pixiv.getRandomTop3 Examples.engine Examples.scripted config 6 w
     = (Js.Throw Pixiv.loginFailed, w).
Proof.
  intros config w.
  apply (proj1 (@sessions_need_a_login Examples.engine Examples.scripted
                  config 6 "cat" w eq_refl)).
  reflexivity.
Defined.

Lemma searchTop3_propagates_rejection_witness :
  let w := @Pixiv.mkWorld Scenarios.rejecting [] tt true BannedWords.initial
             None [] [] in
  exists offset w',
    @Pixiv.searchTop3 Examples.engine Scenarios.rejecting (Examples.config 3) 6
      "cat" w = (Js.Throw "Rate Limit", w')
    /\ Pixiv.calls w' = [Pixiv.CallSearch "cat" offset]
    /\ 0 <= offset <= 300.
Proof.
  intros w.
  destruct (@searchTop3_propagates_rejection Examples.engine Scenarios.rejecting
              (Examples.config 3) 5 "cat" "Rate Limit" w eq_refl
              (fun _ => eq_refl))
    as (offset & w' & Hrun & Hcalls & Hoffset & _).
  exists offset, w'. split; [exact Hrun|]. split; [exact Hcalls|exact Hoffset].
Defined.

Lemma searchTop3_totalScanned_adds_up_witness :
  let run := @Pixiv.searchTop3 Examples.engine Examples.scripted
               (Examples.config 3) 6 "cat" (Examples.world Examples.growing) in
  exists log,
    Pixiv.attempts (snd run) = log
    /\ option_map Pixiv.totalScanned
         (match fst run with Js.Ok r => Some r | _ => None end)
       = Some (PixivSpec.raw_total log)
    /\ PixivSpec.raw_total log = 3%nat.
Proof.
  intros run.
  pose (r := Pixiv.mkResult
               [Examples.safe 1 "title"; Examples.safe 3 "title";
                Examples.safe 2 "title"] 3 0 0 0).
  assert (Hrun : run = (Js.Ok r, snd run)) by (vm_compute; reflexivity).
  destruct (@searchTop3_totalScanned_adds_up Examples.engine Examples.scripted
              (Examples.config 3) 6 "cat" (Examples.world Examples.growing)
              (snd run) r Hrun) as (log & Hlog & Htotal & _).
  change (Pixiv.attempts (snd run) = log) in Hlog.
  exists log. split; [exact Hlog|].
  rewrite Hrun. cbn [fst option_map]. rewrite <- Htotal.
  split; reflexivity.
Defined.

Lemma failed_download_is_retried_witness :
  let url := "https://i.pximg.net/img-original/img/2024/01/01/00/00/00/1_p0.png" in
  let path := "/tmp/napcat-pixiv-plugin/1_p0.png" in
  let c := Materializer.mkCache []
             [Materializer.Failed "socket hang up" false; Materializer.Saved] [] in
  exists c1,
    @Materializer.downloadImage Examples.posix url c
    = (Js.Throw "socket hang up", c1)
    /\ Materializer.downloads (snd (@Materializer.downloadImage Examples.posix url c1))
       = [(url, path); (url, path)].
Proof.
  intros url path c.
  destruct (@failed_download_is_retried Examples.posix url "socket hang up"
              [Materializer.Saved] c)
    as (c1 & Hfirst & Hlog & Hsecond).
  - vm_compute. reflexivity.
  - reflexivity.
  - exists c1. split; [exact Hfirst|]. rewrite Hsecond, Hlog.
    vm_compute. reflexivity.
Defined.

Lemma rate_limit_admits_at_most_L_per_window_witness :
  Z.of_nat
    (length
       (filter (fun t => last [0; 400; 900; 61000] 0 - Handler.windowMs <? t)
          (Handler.admitted [0; 400; 900; 61000]
             (fst (Handler.run (Handler.isRateLimited (Some 2))
                     [0; 400; 900; 61000] [])))))
  <= 2.
Proof.
  apply rate_limit_admits_at_most_L_per_window;
    [lia|repeat constructor; lia].
Defined.

Lemma cooldown_counts_down_and_expires_witness :
  let m1 := Handler.setCooldown (Some 60) "123456" 1000 Handler.Map_empty in
  fst (Handler.getCooldownRemaining (Some 60) "123456" 30500 m1) = 31
  /\ fst (Handler.getCooldownRemaining (Some 60) "123456" 61000 m1) = 0.
Proof.
  intros m1.
  pose proof (cooldown_counts_down_and_expires (Some 60) "123456" 1000 30500
                Handler.Map_empty ltac:(cbn; lia) ltac:(lia)) as Hin.
  pose proof (cooldown_counts_down_and_expires (Some 60) "123456" 1000 61000
                Handler.Map_empty ltac:(cbn; lia) ltac:(lia)) as Hout.
  cbv zeta in Hin, Hout.
  destruct Hin as [Hin _]. destruct Hout as [_ Hout].
  split.
  - fold m1 in Hin. rewrite (proj1 (Hin ltac:(cbn; lia))). reflexivity.
  - exact (proj1 (Hout ltac:(cbn; lia))).
Defined.

Lemma cooldown_is_per_group_witness :
  fst (Handler.getCooldownRemaining (Some 60) "222" 5000
         (Handler.setCooldown (Some 60) "111" 1000 Handler.Map_empty)) = 0
  /\ Handler.setCooldown (Some 0) "111" 1000 Handler.Map_empty
     = Handler.Map_empty.
Proof.
  destruct (cooldown_is_per_group (Some 60) "111" "222" 1000 5000
              Handler.Map_empty) as (Hiso & _ & _).
  destruct (cooldown_is_per_group (Some 0) "111" "222" 1000 5000
              Handler.Map_empty) as (_ & Hoff & _).
  split.
  - rewrite (proj1 (Hiso ltac:(intros H; discriminate H))). reflexivity.
  - exact (proj2 (Hoff ltac:(cbn; lia))).
Defined.

Lemma pixiv_command_passes_both_checks_witness :
  let run := @MessageHandler.handleMessage Examples.engine Scenarios.strings
               Scenarios.settings Scenarios.state
               (MessageHandler.mkClock 1000 1000 1000)
               (Scenarios.group_message "#p站 cat girl") Scenarios.limits0 in
  fst run = [MessageHandler.HandlePixivCommand ["cat"; "girl"];
             MessageHandler.IncrementProcessed]
  /\ fst (Handler.isRateLimited (Some 2) 1000 []) = false
  /\ fst (Handler.getCooldownRemaining (Some 60) "123456" 1000 Handler.Map_empty)
     <= 0.
Proof.
  intros run.
  assert (Hrun : fst run = [MessageHandler.HandlePixivCommand ["cat"; "girl"];
                            MessageHandler.IncrementProcessed])
    by (vm_compute; reflexivity).
  destruct (@pixiv_command_passes_both_checks Examples.engine Scenarios.strings
              Scenarios.settings Scenarios.state
              (MessageHandler.mkClock 1000 1000 1000)
              (Scenarios.group_message "#p站 cat girl") Scenarios.limits0
              ["cat"; "girl"])
    as (Hrate & Hgroup & _ & _).
  - fold run. rewrite Hrun. left. reflexivity.
  - split; [exact Hrun|]. split; [exact Hrate|].
    exact (proj2 (Hgroup "123456" ltac:(vm_compute; reflexivity))).
Defined.

Lemma ignored_messages_cost_nothing_witness :
  @MessageHandler.handleMessage Examples.engine Scenarios.strings
    Scenarios.settings Scenarios.state (MessageHandler.mkClock 0 0 0)
    (Scenarios.private_message "hello") Scenarios.limits0
  = ([], Scenarios.limits0).
Proof. apply ignored_messages_cost_nothing. right. reflexivity. Defined.

Lemma private_chat_ignores_cooldown_witness :
  let m := Handler.setCooldown (Some 60) "42" 0 Handler.Map_empty in
  let run := @MessageHandler.handleMessage Examples.engine Scenarios.strings
               Scenarios.settings Scenarios.state (MessageHandler.mkClock 5 5 5)
               (Scenarios.private_message "#p站")
               (MessageHandler.mkLimits [] m) in
  fst run = [MessageHandler.HandlePixivCommand [];
             MessageHandler.IncrementProcessed]
  /\ MessageHandler.cooldownMap (snd run) = m.
Proof.
  intros m run.
  destruct (@private_chat_ignores_cooldown Examples.engine Scenarios.strings
              Scenarios.settings Scenarios.state (MessageHandler.mkClock 5 5 5)
              (Scenarios.private_message "#p站") [] m Handler.Map_empty None
              eq_refl) as [Hfst Hmap].
  split; [|exact Hmap].
  unfold run. rewrite Hfst. vm_compute. reflexivity.
Defined.

Lemma prefixed_message_consults_rate_limiter_witness :
  @MessageHandler.handleMessage Examples.engine Scenarios.strings
    Scenarios.settings Scenarios.state (MessageHandler.mkClock 1000 1000 1000)
    (Scenarios.group_message "#ping")
    (MessageHandler.mkLimits [100; 200] Handler.Map_empty)
  = ([MessageHandler.SendReply MessageHandler.tooFrequent],
     MessageHandler.mkLimits [100; 200] Handler.Map_empty).
Proof.
  pose proof (@prefixed_message_consults_rate_limiter Examples.engine
                Scenarios.strings Scenarios.settings Scenarios.state
                (MessageHandler.mkClock 1000 1000 1000)
                (Scenarios.group_message "#ping")
                (MessageHandler.mkLimits [100; 200] Handler.Map_empty)
                (fun _ _ => eq_refl) eq_refl) as H.
  cbv zeta in H. destruct H as [_ H]. exact (H eq_refl).
Defined.

Lemma running_cooldown_blocks_group_commands_witness :
  let limits := MessageHandler.mkLimits []
                 (Handler.setCooldown (Some 60) "123456" 0 Handler.Map_empty) in
  let run := @MessageHandler.handleMessage Examples.engine Scenarios.strings
               Scenarios.settings Scenarios.state
               (MessageHandler.mkClock 1000 1000 1000)
               (Scenarios.group_message "#p站 cat") limits in
  fst run = [MessageHandler.SendReply (MessageHandler.pleaseWait 59)]
  /\ ~ In MessageHandler.IncrementProcessed (fst run)
  /\ MessageHandler.cooldownMap (snd run) = MessageHandler.cooldownMap limits.
Proof.
  intros limits run.
  destruct (@running_cooldown_blocks_group_commands Examples.engine
              Scenarios.strings Scenarios.settings Scenarios.state
              (MessageHandler.mkClock 1000 1000 1000)
              (Scenarios.group_message "#p站 cat") limits "123456")
    as (Hcount & _ & Hmap).
  - vm_compute. reflexivity.
  - vm_compute. reflexivity.
  - split; [vm_compute; reflexivity|]. split; [exact Hcount|exact Hmap].
Defined.

Lemma banned_keyword_is_refused_without_upstream_call_witness :
  let w := Scenarios.world_with_rules Examples.growing in
  let run := @PixivHandler.handleSearch Examples.engine Examples.scripted
               (Examples.config 3) 6 (fun _ => PixivHandler.Rejected) None true
               (PixivHandler.mkSender None None) "血腥 cat" w in
  fst run = Js.Ok [PixivHandler.SendReply PixivHandler.refused]
  /\ Pixiv.calls (snd run) = []
  /\ Pixiv.feed (snd run) = Examples.growing.
Proof.
  intros w run.
  pose proof (@banned_keyword_is_refused_without_upstream_call Examples.engine
                Examples.scripted (Examples.config 3) 6
                (fun _ => PixivHandler.Rejected) None true
                (PixivHandler.mkSender None None) "血腥 cat" w Scenarios.r1
                ltac:(vm_compute; reflexivity)) as H.
  cbv zeta in H. destruct H as (Hrun & (Hcalls & _) & Hfeed & _).
  split; [exact Hrun|]. split; [exact Hcalls|exact Hfeed].
Defined.

